(** * Amazon Best Sellers (Electronics) scraper: extraction pipeline

    A shallow embedding of [parser.py] (field parsing and per-item
    extraction), [data_handler.py] (validation, append and export), the
    scroll loop of [browser_manager.py], and the page loop and the debug dump
    of [main.py], with the properties of the written specification and
    further properties of the code proved over it.

    Conventions of the embedding.
    - A Python [str] is a list of Unicode code points ([pystr]).
    - A Python [float] obtained from a decimal string is the exact rational
      that the string denotes, kept in lowest terms ([Q] after [Qred]);
      binary64 rounding and overflow to [inf] are outside the model. A
      numeral of at most 15 digits and its float determine each other, and
      the properties that rest on the value of a float are stated for such
      numerals.
    - [None] is [None]; an exception is a [Raise] of the [result] type.
    - The page driver (Playwright) is an answer table: a [Locator] holds
      what each query on it returns. *)

From Stdlib Require Import List NArith ZArith QArith Qround Bool Ascii String Lia.
From stdpp Require Import base gmap.
Import ListNotations.

Local Open Scope N_scope.

(** ** Python strings *)

Definition pystr := list N.

(** An ASCII literal as a Python string. *)
Definition u (s : string) : pystr := List.map N_of_ascii (list_ascii_of_string s).

(** Truthiness of [Optional[str]]: [None] and the empty string are falsy. *)
Definition truthy (o : option pystr) : bool :=
  match o with
  | Some (_ :: _) => true
  | _ => false
  end.

(** [str.isspace] on one code point; [re]'s [\s] and [str.strip] use the same
    table ([Py_UNICODE_ISSPACE]). *)
Definition is_space (c : N) : bool :=
  ((9 <=? c) && (c <=? 13)) || ((28 <=? c) && (c <=? 32))
  || (c =? 133) || (c =? 160) || (c =? 5760)
  || ((8192 <=? c) && (c <=? 8202))
  || (c =? 8232) || (c =? 8233) || (c =? 8239) || (c =? 8287) || (c =? 12288).

(** First code points of the runs of ten decimal digits (Unicode category Nd,
    Unicode 14, the table of CPython 3.11): [re]'s [\d] and the digits
    [float] accepts. *)
Definition decimal_runs : list N :=
  [48; 1632; 1776; 1984; 2406; 2534; 2662; 2790; 2918; 3046; 3174; 3302; 3430;
   3558; 3664; 3792; 3872; 4160; 4240; 6112; 6160; 6470; 6608; 6784; 6800;
   6992; 7088; 7232; 7248; 42528; 43216; 43264; 43472; 43504; 43600; 44016;
   65296; 66720; 68912; 69734; 69872; 69942; 70096; 70384; 70736; 70864;
   71248; 71360; 71472; 71904; 72016; 72784; 73040; 73120; 92768; 92864;
   93008; 120782; 120792; 120802; 120812; 120822; 123200; 123632; 125264;
   130032].

(** The value of a decimal digit, [None] for any other code point. *)
Definition digit_value (c : N) : option N :=
  match List.find (fun b => (b <=? c) && (c <? b + 10)) decimal_runs with
  | Some b => Some (c - b)
  | None => None
  end.

(** [\d] *)
Definition is_decimal (c : N) : bool :=
  match digit_value c with Some _ => true | None => false end.

(** [[0-9]] *)
Definition is_ascii_digit (c : N) : bool := (48 <=? c) && (c <=? 57).

Definition chr_comma : N := 44.
Definition chr_dot : N := 46.
Definition chr_dollar : N := 36.
Definition chr_slash : N := 47.
Definition chr_space : N := 32.
Definition chr_nbsp : N := 160.

Fixpoint dropwhile (p : N -> bool) (s : pystr) : pystr :=
  match s with
  | c :: t => if p c then dropwhile p t else s
  | [] => []
  end.

(** [s.lstrip()], [s.rstrip()] and [s.strip()] *)
Definition lstrip (s : pystr) : pystr := dropwhile is_space s.
Definition rstrip (s : pystr) : pystr := rev (dropwhile is_space (rev s)).
Definition strip (s : pystr) : pystr := rstrip (lstrip s).

(** [s.rstrip("/")] *)
Definition rstrip_slash (s : pystr) : pystr :=
  rev (dropwhile (N.eqb chr_slash) (rev s)).

(** [s.replace(a, b)] for single characters [a] and [b] *)
Definition replace_chr (a b : N) (s : pystr) : pystr :=
  List.map (fun c => if c =? a then b else c) s.

(** [s.replace(a, "")] for a single character [a] *)
Definition remove_chr (a : N) (s : pystr) : pystr :=
  List.filter (fun c => negb (c =? a)) s.

(** [s.startswith(p)] *)
Fixpoint startswith (p s : pystr) : bool :=
  match p, s with
  | [], _ => true
  | a :: p', b :: s' => (a =? b) && startswith p' s'
  | _ :: _, [] => false
  end.

(** ** Regular expressions

    The patterns of the source use character classes, concatenation, one
    optional group, greedy repetition of a character class and one capture
    group. [re_match] is the backtracking matcher of [re]: alternatives are
    tried in priority order (greedy first) and the first complete match wins. *)

Inductive regex : Type :=
| Chr (p : N -> bool)            (* one character of a class *)
| Cat (r1 r2 : regex)            (* r1 r2 *)
| Opt (r : regex)                (* (?:r)? *)
| Star (p : N -> bool)           (* [class]* *)
| Grp (r : regex).               (* (r), capture group 1 *)

(** [[class]+] *)
Definition Plus (p : N -> bool) : regex := Cat (Chr p) (Star p).

(** A literal character, and a literal letter under [re.I]. *)
Definition Lit (c : N) : regex := Chr (N.eqb c).
Definition LitI (lower upper : N) : regex :=
  Chr (fun c => (c =? lower) || (c =? upper)).

(** What is left of the input after a match, and group 1. *)
Definition mres : Type := pystr * option pystr.

Fixpoint star_k (p : N -> bool) (s : pystr) (k : pystr -> option mres) : option mres :=
  match s with
  | c :: t =>
      if p c then
        match star_k p t k with
        | Some x => Some x
        | None => k s
        end
      else k s
  | [] => k []
  end.

Fixpoint re_match (r : regex) (s : pystr) (g : option pystr)
    (k : pystr -> option pystr -> option mres) : option mres :=
  match r with
  | Chr p =>
      match s with
      | c :: t => if p c then k t g else None
      | [] => None
      end
  | Cat r1 r2 => re_match r1 s g (fun s' g' => re_match r2 s' g' k)
  | Opt r1 =>
      match re_match r1 s g k with
      | Some x => Some x
      | None => k s g
      end
  | Star p => star_k p s (fun s' => k s' g)
  | Grp r1 =>
      re_match r1 s g
        (fun s' _ => k s' (Some (firstn (length s - length s') s)))
  end.

(** A match of the pattern at the start of [s]. *)
Definition re_match_at (r : regex) (s : pystr) : option mres :=
  re_match r s None (fun s' g => Some (s', g)).

Record Match := mkMatch { group0 : pystr; group1 : pystr }.

Definition match_of (s : pystr) (m : mres) : Match :=
  {| group0 := firstn (length s - length (fst m)) s;
     group1 := match snd m with Some w => w | None => [] end |}.

(** [re.search(r, s)]: the match at the leftmost position that has one. *)
Fixpoint re_search (r : regex) (s : pystr) : option Match :=
  match re_match_at r s with
  | Some m => Some (match_of s m)
  | None =>
      match s with
      | _ :: t => re_search r t
      | [] => None
      end
  end.

(** [re.sub(r, repl, s)] for a pattern that matches no empty string (the
    only use in the source is [\s+]). [skip] counts the characters of the
    current match still to pass over. *)
Fixpoint re_sub_from (r : regex) (repl : pystr) (skip : nat) (s : pystr) : pystr :=
  match s with
  | [] => []
  | c :: t =>
      match skip with
      | S n => re_sub_from r repl n t
      | O =>
          match re_match_at r s with
          | Some (s', _) =>
              match (length s - length s')%nat with
              | S n => repl ++ re_sub_from r repl n t
              | O => c :: re_sub_from r repl 0 t
              end
          | None => c :: re_sub_from r repl 0 t
          end
      end
  end.

Definition re_sub (r : regex) (repl s : pystr) : pystr := re_sub_from r repl 0 s.

(** ** Numbers from text *)

Fixpoint pow10 (n : nat) : positive :=
  match n with
  | O => 1%positive
  | S n' => (10 * pow10 n')%positive
  end.

(** The decimal numeral [s] continued from [acc]; [None] when a character of
    [s] is no decimal digit. *)
Fixpoint digits_value (acc : N) (s : pystr) : option N :=
  match s with
  | [] => Some acc
  | c :: t =>
      match digit_value c with
      | Some d => digits_value (acc * 10 + d) t
      | None => None
      end
  end.

(** [s] cut at its first [.]: the part before it and, if there is one, the
    part after it. *)
Fixpoint split_dot (s : pystr) : pystr * option pystr :=
  match s with
  | [] => ([], None)
  | c :: t =>
      if c =? chr_dot then ([], Some t)
      else let (a, b) := split_dot t in (c :: a, b)
  end.

(** [float(s)] for a string of decimal digits and dots, the only strings the
    parser converts; [None] is [ValueError]. Such a string is a float literal
    when it has a digit and at most one dot. *)
Definition py_float (s : pystr) : option Q :=
  let (ip, rest) := split_dot s in
  let fp := match rest with Some f => f | None => [] end in
  match ip ++ fp with
  | [] => None
  | ds =>
      match digits_value 0 ds with
      | Some n => Some (Qred (Z.of_N n # pow10 (length fp)))
      | None => None
      end
  end.

(** [sys.int_max_str_digits] as CPython sets it. *)
Definition int_max_str_digits : nat := 4300.

(** [int(s)] for a string of ASCII digits; [None] is [ValueError]: the empty
    string, and a string of more digits than [int_max_str_digits] (leading
    zeros count). *)
Definition py_int (s : pystr) : option Z :=
  match s with
  | [] => None
  | _ =>
      if (int_max_str_digits <? length s)%nat then None
      else option_map Z.of_N (digits_value 0 s)
  end.

(** The integer nearest to [q], ties to the even one. *)
Definition round_half_even (q : Q) : Z :=
  let f := Qfloor q in
  match Qcompare (q - inject_Z f) (1 # 2) with
  | Lt => f
  | Gt => (f + 1)%Z
  | Eq => if Z.even f then f else (f + 1)%Z
  end.

(** [round(q, 1)] *)
Definition py_round1 (q : Q) : Q := Qred (round_half_even (q * 10) # 10).

(** ** Exceptions *)

(** Modelled from the spec: the module [exceptions] that declares
    [ElementNotFound] is not among the sources. Section 7 of the
    specification gives it as the error for a "required structural element
    (URL) absent on an item", apart from the errors of the page driver; here
    it is an exception of its own with its message, next to the driver's
    [playwright.async_api.Error], whose message [str(e)] is [msg]. *)
Inductive exn : Type :=
| ElementNotFound (msg : string)
| Error (msg : string).

Inductive result (A : Type) : Type :=
| Ok (a : A)
| Raise (e : exn).
Arguments Ok {A} a.
Arguments Raise {A} e.

(** Sequencing of awaited calls: the first exception ends the function. *)
#[export] Instance result_bind : MBind result := fun A B f m =>
  match m with
  | Ok a => f a
  | Raise e => Raise e
  end.

(** ** The page driver

    A locator is what its queries answer: it matches nothing, or its browsing
    context is gone and every query raises, or it is an element with its text
    content, its rendered text, its attributes and the first match of each
    selector below it. Selectors are written with single quotes. *)

#[local] Set Warnings "-register-all".

Inductive Locator : Type :=
| NoMatch
| Closed (msg : string)
| Element (text : option pystr) (inner : pystr)
          (attrs : list (string * pystr)) (below : list (string * Locator)).

Fixpoint assoc {A : Type} (key : string) (l : list (string * A)) : option A :=
  match l with
  | [] => None
  | (k, v) :: t => if String.eqb k key then Some v else assoc key t
  end.

Definition timeout_msg : string := "Timeout 30000ms exceeded.".

(** [item.locator(selector).first] *)
Definition locator_first (item : Locator) (selector : string) : Locator :=
  match item with
  | Element _ _ _ below =>
      match assoc selector below with
      | Some l => l
      | None => NoMatch
      end
  | NoMatch => NoMatch
  | Closed msg => Closed msg
  end.

(** [await locator.count()] *)
Definition count (l : Locator) : result nat :=
  match l with
  | NoMatch => Ok 0%nat
  | Closed msg => Raise (Error msg)
  | Element _ _ _ _ => Ok 1%nat
  end.

(** [await locator.get_attribute(name)] *)
Definition get_attribute (l : Locator) (name : string) : result (option pystr) :=
  match l with
  | NoMatch => Raise (Error timeout_msg)
  | Closed msg => Raise (Error msg)
  | Element _ _ attrs _ => Ok (assoc name attrs)
  end.

(** [await locator.text_content()] *)
Definition text_content (l : Locator) : result (option pystr) :=
  match l with
  | NoMatch => Raise (Error timeout_msg)
  | Closed msg => Raise (Error msg)
  | Element text _ _ _ => Ok text
  end.

(** [await locator.inner_text()] *)
Definition inner_text (l : Locator) : result pystr :=
  match l with
  | NoMatch => Raise (Error timeout_msg)
  | Closed msg => Raise (Error msg)
  | Element _ inner _ _ => Ok inner
  end.

(** ** Product records *)

Inductive ItemType : Type := Organic | Sponsored.

(** The dictionary built by [Parser.extract]; [timestamp] is the key that
    [DataHandler.add_record] adds. A field is what [record.get] returns. *)
Record record : Type := mkRecord {
  name : option pystr;
  price : option Q;
  original_price : option Q;
  rating : option Q;
  reviews : option Z;
  url : option pystr;
  item_type : ItemType;
  timestamp : option pystr
}.

(** ** [parser.py]: the static field parsers *)

Module Parser.

(** [re.sub(r"\s+", " ", raw).strip()], and the empty string for a falsy [raw]. *)
Definition _normalize_text (raw : option pystr) : pystr :=
  if negb (truthy raw) then []
  else
    match raw with
    | Some s => strip (re_sub (Plus is_space) [chr_space] s)
    | None => []
    end.

(** [[\d,.]] *)
Definition price_char (c : N) : bool :=
  is_decimal c || (c =? chr_comma) || (c =? chr_dot).

(** [r"([\d,.]+)"] *)
Definition PRICE_RE : regex := Grp (Plus price_char).

Definition _parse_price (raw : option pystr) : option Q :=
  if negb (truthy raw) then None
  else
    match raw with
    | Some s =>
        let cleaned := replace_chr chr_nbsp chr_space s in
        match re_search PRICE_RE cleaned with
        | None => None
        | Some m =>
            let num := remove_chr chr_comma (group1 m) in
            py_float num
        end
    | None => None
    end.

(** [[0-9]+(?:\.[0-9])?] *)
Definition NUMBER : regex :=
  Cat (Plus is_ascii_digit) (Opt (Cat (Lit chr_dot) (Chr is_ascii_digit))).

(** [out of] under [re.I]; the blank of the pattern is a literal space. *)
Definition OUT_OF (r : regex) : regex :=
  Cat (LitI 111 79) (Cat (LitI 117 85) (Cat (LitI 116 84) (Cat (Lit chr_space)
    (Cat (LitI 111 79) (Cat (LitI 102 70) r))))).

(** [r"([0-9]+(?:\.[0-9])?)\s*out of\s*5"] with [flags=re.I] *)
Definition RATING_RE : regex :=
  Cat (Grp NUMBER) (Cat (Star is_space) (OUT_OF (Cat (Star is_space) (Lit 53)))).

(** [r"([0-9]+(?:\.[0-9])?)"] *)
Definition FIRST_FLOAT_RE : regex := Grp NUMBER.

Definition _parse_rating (raw : option pystr) : option Q :=
  if negb (truthy raw) then None
  else
    match raw with
    | Some s =>
        match re_search RATING_RE s with
        | None =>
            (* Fallback: extract first float *)
            match re_search FIRST_FLOAT_RE s with
            | None => None
            | Some m2 => option_map py_round1 (py_float (group1 m2))
            end
        | Some m => option_map py_round1 (py_float (group1 m))
        end
    | None => None
    end.

(** [[0-9,]] *)
Definition count_char (c : N) : bool := is_ascii_digit c || (c =? chr_comma).

(** [r"([0-9,]+)"] *)
Definition REVIEWS_RE : regex := Grp (Plus count_char).

Definition _parse_reviews (raw : option pystr) : option Z :=
  if negb (truthy raw) then None
  else
    match raw with
    | Some s =>
        match re_search REVIEWS_RE s with
        | None => None
        | Some m => py_int (remove_chr chr_comma (group1 m))
        end
    | None => None
    end.

(** *** [Parser.get_price] *)

(** [r"[\d,]+"], [r"\d{1,2}"] and [r"\$([0-9,.]+)"] *)
Definition WHOLE_RE : regex := Plus (fun c => is_decimal c || (c =? chr_comma)).
Definition FRACTION_RE : regex := Cat (Chr is_decimal) (Opt (Chr is_decimal)).
Definition DOLLAR_RE : regex :=
  Cat (Lit chr_dollar)
      (Grp (Plus (fun c => is_ascii_digit c || (c =? chr_comma) || (c =? chr_dot)))).

(** First stage: the off-screen accessible text. *)
Definition price_offscreen (item : Locator) : result (option Q) :=
  let a := locator_first item "span.aok-offscreen" in
  n ← count a;
  if (0 <? n)%nat then
    raw ← text_content a;
    Ok (_parse_price (Some (_normalize_text raw)))
  else Ok None.

(** The digits of the whole part ([w]) and of the fraction ([f]). *)
Definition whole_digits (whole : option pystr) : option pystr :=
  if truthy whole then
    match re_search WHOLE_RE (default [] whole) with
    | Some m1 => Some (remove_chr chr_comma (group0 m1))
    | None => None
    end
  else None.

Definition fraction_digits (frac : option pystr) : option pystr :=
  if truthy frac then
    match re_search FRACTION_RE (default [] frac) with
    | Some m2 => Some (group0 m2)
    | None => None
    end
  else None.

(** The two [try] blocks on [w] and [f]; a [ValueError] passes on. *)
Definition compose_price (w f : option pystr) : option Q :=
  match (if truthy w && truthy f
         then py_float (default [] w ++ [chr_dot] ++ default [] f)
         else None) with
  | Some v => Some v
  | None =>
      if truthy w && negb (truthy f) then py_float (default [] w) else None
  end.

(** Second stage: the whole and fraction nodes below [span.a-price]. *)
Definition price_composed (item : Locator) : result (option Q) :=
  let c := locator_first item "span.a-price" in
  n ← count c;
  if (0 <? n)%nat then
    let whole_loc := locator_first c "span.a-price-whole" in
    let frac_loc := locator_first c "span.a-price-fraction" in
    nw ← count whole_loc;
    whole ← (if (0 <? nw)%nat then text_content whole_loc else Ok None);
    nf ← count frac_loc;
    frac ← (if (0 <? nf)%nat then text_content frac_loc else Ok None);
    if truthy whole || truthy frac then
      Ok (compose_price (whole_digits whole) (fraction_digits frac))
    else Ok None
  else Ok None.

(** Last stage: a [$] amount in the rendered text of the item. *)
Definition price_fallback (item : Locator) : result (option Q) :=
  text ← inner_text item;
  let text := _normalize_text (Some text) in
  match re_search DOLLAR_RE text with
  | Some m => Ok (_parse_price (Some (group1 m)))
  | None => Ok None
  end.

Definition get_price (item : Locator) : result (option Q) :=
  v ← price_offscreen item;
  match v with
  | Some _ => Ok v
  | None =>
      v ← price_composed item;
      match v with
      | Some _ => Ok v
      | None => price_fallback item
      end
  end.

(** *** [Parser.is_sponsored]

    [item.get_by_text("Sponsored", exact=False)] is the text selector
    [text=Sponsored] of the driver. *)
Definition is_sponsored (item : Locator) : result bool :=
  let l1 := locator_first item "text=Sponsored" in
  n1 ← count l1;
  if (0 <? n1)%nat then Ok true
  else
    let l2 := locator_first item "[aria-label='Sponsored']" in
    n2 ← count l2;
    Ok (0 <? n2)%nat.

(** *** [Parser.extract] *)

(** [Parser(base_url)] *)
Record t : Type := { base_url : pystr }.
Definition __init__ (base_url : pystr) : t := {| base_url := rstrip_slash base_url |}.

Local Open Scope string_scope.

Definition URL_SELECTORS : list string :=
  [ "a.a-link-normal.aok-block[href]";
    "a.a-link-normal[href*='/dp/']";
    "a.a-link-normal[href*='/gp/']";
    "a[href^='/dp/']";
    "a[href^='/gp/']" ].

Definition NAME_SELECTORS : list string :=
  [ "div._cDEzb_p13n-sc-css-line-clamp-3_g3dy1";
    "a.a-link-normal[href] .p13n-sc-truncated";
    "a.a-link-normal[href] span[aria-hidden='true']";
    ".a-size-medium.a-color-base.a-text-normal";
    ".a-link-normal .a-size-base-plus" ].

Definition ORIGINAL_PRICE_SELECTORS : list string :=
  [ "span.a-price.a-text-price span.a-offscreen";
    "span.a-text-price span.a-offscreen" ].

Definition RATING_SELECTORS : list string :=
  [ "a.a-link-normal[aria-label*='out of 5 stars']";
    "span[aria-label*='out of 5 stars']";
    "i.a-icon-star-small span.a-icon-alt";
    "i.a-icon-star span.a-icon-alt" ].

Definition REVIEWS_SELECTORS : list string :=
  [ "a[href*='#customerReviews']";
    "a.a-link-normal .a-size-small";
    "span[aria-label$='ratings']";
    "span.a-size-base.s-underline-text" ].

Local Close Scope string_scope.

(** The loop over the URL selectors: the first non-empty [href] wins and is
    resolved against the base URL unless it starts with [http]. *)
Fixpoint find_url (self : t) (item : Locator) (selectors : list string)
    : result (option pystr) :=
  match selectors with
  | [] => Ok None
  | selector :: rest =>
      let locator := locator_first item selector in
      n ← count locator;
      if (0 <? n)%nat then
        href ← get_attribute locator "href";
        match href with
        | Some (c :: h) =>
            if startswith (u "http") (c :: h) then Ok (Some (c :: h))
            else Ok (Some (base_url self ++ c :: h))
        | _ => find_url self item rest
        end
      else find_url self item rest
  end.

(** The loop shared by the other fields: [cur] is the variable the loop
    assigns; each selector that matches assigns what [fetch] reads from its
    first match, and a truthy value ends the loop. *)
Fixpoint first_truthy (fetch : Locator -> result (option pystr)) (item : Locator)
    (selectors : list string) (cur : option pystr) : result (option pystr) :=
  match selectors with
  | [] => Ok cur
  | selector :: rest =>
      let locator := locator_first item selector in
      n ← count locator;
      if (0 <? n)%nat then
        v ← fetch locator;
        if truthy v then Ok v else first_truthy fetch item rest v
      else first_truthy fetch item rest cur
  end.

Definition fetch_name (locator : Locator) : result (option pystr) :=
  raw ← text_content locator;
  Ok (Some (_normalize_text raw)).

Definition fetch_rating (locator : Locator) : result (option pystr) :=
  rating_raw ← get_attribute locator "aria-label";
  if negb (truthy rating_raw) then text_content locator else Ok rating_raw.

Definition extract (self : t) (item : Locator) : result record :=
  (* Product URL *)
  url ← find_url self item URL_SELECTORS;
  if negb (truthy url) then Raise (ElementNotFound "Product URL not found")
  else
    (* Product Name *)
    name ← first_truthy fetch_name item NAME_SELECTORS (Some []);
    price ← get_price item;
    (* Original price (if present) *)
    orig_raw ← first_truthy text_content item ORIGINAL_PRICE_SELECTORS None;
    let original_price := _parse_price (Some (_normalize_text orig_raw)) in
    (* Rating *)
    rating_raw ← first_truthy fetch_rating item RATING_SELECTORS None;
    let rating := _parse_rating (Some (_normalize_text rating_raw)) in
    (* Review count *)
    reviews_raw ← first_truthy text_content item REVIEWS_SELECTORS None;
    let reviews := _parse_reviews (Some (_normalize_text reviews_raw)) in
    sponsored ← is_sponsored item;
    Ok {| name := if truthy name then name else None;
          price := price;
          original_price := original_price;
          rating := rating;
          reviews := reviews;
          url := url;
          item_type := if (sponsored : bool) then Sponsored else Organic;
          timestamp := None |}.

End Parser.

(** ** [data_handler.py] *)

Module DataHandler.

(** [self.rows] *)
Definition rows_t : Type := list record.

(** [all(record.get(k) for k in ["name", "url"])] *)
Definition validate_record (record : record) : bool :=
  truthy (name record) && truthy (url record).

(** [record["timestamp"] = now] *)
Definition stamp (now : pystr) (record : record) :=
  {| name := name record;
     price := price record;
     original_price := original_price record;
     rating := rating record;
     reviews := reviews record;
     url := url record;
     item_type := item_type record;
     timestamp := Some now |}.

(** [record["timestamp"] = self._timestamp(); self.rows.append(record)], with
    [now] the reading of the clock. *)
Definition add_record (now : pystr) (rows : rows_t) (record : record) : rows_t :=
  rows ++ [stamp now record].

(** *** [DataHandler.to_csv]

    The file system as the function meets it: what [open] answers for a
    path, what the [i]-th write to the file at a path answers (the header is
    write 0), and what closing that file answers. *)
Inductive answer : Type :=
| Fine
| Refused               (* [PermissionError] is raised *)
| Broken (e : string).  (* another exception is raised *)

Record FileSystem : Type := {
  open : pystr -> answer;
  write : pystr -> nat -> answer;
  close : pystr -> answer
}.

(** What [csv.DictWriter.writerow] is handed for one column. *)
Inductive cell : Type :=
| CNone
| CStr (s : pystr)
| CFloat (q : Q)
| CInt (z : Z).

Definition headers : list pystr :=
  [u "Name"; u "Price"; u "Rating"; u "Reviews"; u "URL"; u "Item_Type"; u "Timestamp"].

Definition cell_str (v : option pystr) : cell :=
  match v with Some s => CStr s | None => CNone end.

Definition cell_float (v : option Q) : cell :=
  match v with Some q => CFloat q | None => CNone end.

Definition cell_int (v : option Z) : cell :=
  match v with Some z => CInt z | None => CNone end.

(** The dictionary written for a row, in the order of the field names. *)
Definition csv_row (r : record) : list cell :=
  [ cell_str (name r); cell_float (price r); cell_float (rating r);
    cell_int (reviews r); cell_str (url r);
    CStr (match item_type r with Sponsored => u "Sponsored" | Organic => u "Organic" end);
    cell_str (timestamp r) ].

(** [writer.writeheader()] and the loop over [self.rows]. *)
Definition csv_lines (rows : rows_t) : list (list cell) :=
  List.map CStr headers :: List.map csv_row rows.

(** [s.rfind(c)], [None] for [-1]; [i] is the index of the head of [s]. *)
Fixpoint rfind_from (c : N) (s : pystr) (i : nat) : option nat :=
  match s with
  | [] => None
  | x :: t =>
      match rfind_from c t (S i) with
      | Some j => Some j
      | None => if x =? c then Some i else None
      end
  end.

Definition rfind (c : N) (s : pystr) : option nat := rfind_from c s 0.

(** [os.path.splitext(p)] with the separator [/] and no alternative
    separator: the extension starts at the last dot of the last component,
    unless only dots come before it in that component. *)
Definition splitext (p : pystr) : pystr * pystr :=
  match rfind chr_dot p with
  | None => (p, [])
  | Some dotIndex =>
      let filenameIndex :=
        match rfind chr_slash p with Some sepIndex => S sepIndex | None => O end in
      if (filenameIndex <=? dotIndex)%nat then
        if forallb (N.eqb chr_dot)
             (firstn (dotIndex - filenameIndex) (skipn filenameIndex p))
        then (p, [])
        else (firstn dotIndex p, skipn dotIndex p)
      else (p, [])
  end.

(** [f"{base}_{ts}{ext or '.csv'}"], with [ts] the reading of the local
    clock as [strftime("%Y%m%d_%H%M%S")] renders it. *)
Definition fallback_path (ts file_path : pystr) : pystr :=
  let (base, ext) := splitext file_path in
  base ++ u "_" ++ ts ++ (match ext with [] => u ".csv" | _ => ext end).

(** [writer.writeheader()] and the [writer.writerow] calls, from write [i]
    on: the number of lines handed to the writer, and the answer of the
    write that raised if one did. *)
Fixpoint write_lines (fs : FileSystem) (path : pystr) (i : nat)
    (lines : list (list cell)) : nat * answer :=
  match lines with
  | [] => (O, Fine)
  | _ :: rest =>
      match write fs path i with
      | Fine => let (n, a) := write_lines fs path (S i) rest in (S n, a)
      | a => (O, a)
      end
  end.

(** The block [with open(path, "w", ...) as f]: [None] when [open] raises,
    and otherwise the number of lines handed to the writer. Leaving the
    block closes the file, and an exception of [close] is the one raised. *)
Definition write_file (fs : FileSystem) (path : pystr) (lines : list (list cell))
    : option nat * answer :=
  match open fs path with
  | Fine =>
      let (n, a) := write_lines fs path 0 lines in
      (Some n, match close fs path with Fine => a | c => c end)
  | a => (None, a)
  end.

(** How [to_csv] ends. *)
Inductive export : Type :=
| Exported (path : pystr)
| PermissionError
| OtherError (e : string).

(** A file that was opened, with the number of lines handed to its writer. *)
Definition opened (path : pystr) (n : option nat) : list (pystr * nat) :=
  match n with Some k => [(path, k)] | None => [] end.

(** The [try] spans the whole block of the target: a [PermissionError] of
    [open], of a write or of [close] is answered with the fallback path, and
    nothing guards the block of the fallback. The result is how the function
    ends and the files it opened, in the order of their opening. *)
Definition to_csv (fs : FileSystem) (ts : pystr) (rows : rows_t) (file_path : pystr)
    : export * list (pystr * nat) :=
  let lines := csv_lines rows in
  let target := file_path in
  match write_file fs target lines with
  | (n, Fine) => (Exported target, opened target n)
  | (n, Broken e) => (OtherError e, opened target n)
  | (n, Refused) =>
      let fallback := fallback_path ts file_path in
      match write_file fs fallback lines with
      | (k, Fine) => (Exported fallback, opened target n ++ opened fallback k)
      | (k, Refused) => (PermissionError, opened target n ++ opened fallback k)
      | (k, Broken e) => (OtherError e, opened target n ++ opened fallback k)
      end
  end.

End DataHandler.

(** ** [browser_manager.py]: [BrowserManager.scroll_to_bottom] *)

Module BrowserManager.

(** The page as the loop sees it: whether the [i]-th wheel call (from 1)
    returns, and what the three [evaluate] calls after it return ([None] when
    the call raises). Offsets and heights are pixels, never negative.
    [scrollY page 0] is the offset before the first wheel call, which the
    loop does not read. *)
Record Page : Type := {
  wheel : nat -> bool;
  scrollY : nat -> option N;
  scrollHeight : nat -> option N;
  innerHeight : nat -> option N
}.

(** Why the loop was left. *)
Inductive Stop : Type :=
| WheelFailed       (* [page.mouse.wheel] raised *)
| QueryFailed       (* an [evaluate] raised *)
| Bottom            (* [y + ih + 5 >= h] *)
| Stalled           (* [stable_steps >= 3] *)
| Exhausted.        (* the [range(120)] ran out *)

(** The body of [for _ in range(120)], with [fuel] iterations left after [i]
    were begun; the result is the number of iterations begun and the exit. *)
Fixpoint scroll_loop (page : Page) (fuel i : nat) (last_y : Z) (stable_steps : nat)
    : nat * Stop :=
  match fuel with
  | O => (i, Exhausted)
  | S fuel' =>
      let i := S i in
      if negb (wheel page i) then (i, WheelFailed)
      else
        match scrollY page i, scrollHeight page i, innerHeight page i with
        | Some y, Some h, Some ih =>
            let stable_steps :=
              if (Z.of_N y =? last_y)%Z then S stable_steps else O in
            let last_y := if (Z.of_N y =? last_y)%Z then last_y else Z.of_N y in
            if h <=? y + ih + 5 then (i, Bottom)
            else if (3 <=? stable_steps)%nat then (i, Stalled)
            else scroll_loop page fuel' i last_y stable_steps
        | _, _, _ => (i, QueryFailed)
        end
  end.

Definition scroll_to_bottom (page : Page) : nat * Stop :=
  scroll_loop page 120 0 (-1)%Z 0.

End BrowserManager.

(** ** [config.py] *)

Record ScraperConfig : Type := {
  best_sellers_url : pystr;
  base_url : pystr;
  max_pages : Z;
  max_retries : Z
}.

(** [ScraperConfig()] *)
Definition default_config : ScraperConfig :=
  {| best_sellers_url := u "https://www.amazon.com/Best-Sellers-Electronics/zgbs/electronics";
     base_url := u "https://www.amazon.com";
     max_pages := 3;
     max_retries := 3 |}.

(** ** [main.py]: [scrape] *)

Module Main.

(** What the browser answers during one run: whether [page.goto] returns at
    attempt [attempt] of page [pg], the items that
    [page.locator("#gridItemRoot").all()] lists after scroll attempt [k] on
    page [pg], and the [n]-th reading of the clock. *)
Record Session : Type := {
  goto : nat -> nat -> bool;
  grid_items : nat -> nat -> list Locator;
  utcnow : nat -> pystr
}.

(** [needle in hay] *)
Fixpoint contains (needle hay : string) : bool :=
  String.prefix needle hay ||
  match hay with
  | String _ t => contains needle t
  | EmptyString => false
  end.

Definition closed_msg : string := "Target page, context or browser has been closed".

(** [len([r for r in handler.rows if r.get("name")])] *)
Definition named_count (rows : list record) : nat :=
  length (List.filter (fun r => truthy (name r)) rows).

(** [{r.get("url") for r in handler.rows if r.get("url")}] *)
Definition urls_of (rows : list record) : gset (option pystr) :=
  list_to_set (List.map url (List.filter (fun r => truthy (url r)) rows)).

(** [items[:n]] *)
Definition py_take {A : Type} (n : Z) (items : list A) : list A :=
  if (0 <=? n)%Z then firstn (Z.to_nat n) items
  else firstn (length items - Z.to_nat (- n)) items.

(** *** [dump_html] *)

(** [[a-zA-Z0-9_-]] *)
Definition safe_char (c : N) : bool :=
  ((97 <=? c) && (c <=? 122)) || ((65 <=? c) && (c <=? 90))
  || ((48 <=? c) && (c <=? 57)) || (c =? 95) || (c =? 45).

(** [re.sub(r"[^a-zA-Z0-9_-]+", "_", name)[:50]] *)
Definition safe (name : pystr) : pystr :=
  firstn 50 (re_sub (Plus (fun c => negb (safe_char c))) (u "_") name).

(** [os.path.join("debug_html", f"{int(time.time())}_{safe}.html")], with
    [now] the decimal numeral of [int(time.time())] and [/] the separator of
    the platform. *)
Definition dump_path (now name : pystr) : pystr :=
  u "debug_html/" ++ now ++ u "_" ++ safe name ++ u ".html".

(** The name handed to [dump_html] after an item was processed, if it is
    called: [record.get("price") is None and record.get("name")] guards the
    call and the name is [record.get("name") or "item"]. *)
Definition dump_request (record : record) : option pystr :=
  match price record with
  | None =>
      if truthy (name record)
      then Some (if truthy (name record) then default [] (name record) else u "item")
      else None
  | Some _ => None
  end.

(** [for attempt in range(attempt, attempt + left)]: does a [goto] return? *)
Fixpoint navigate (s : Session) (pg attempt left : nat) : bool :=
  match left with
  | O => false
  | S left' => if goto s pg attempt then true else navigate s pg (S attempt) left'
  end.

(** [for scroll_attempt in range(k, k + left)]: the items listed when the
    loop is left. *)
Fixpoint reveal (s : Session) (pg : nat) (target_page_count : Z) (k left : nat)
    (items : list Locator) : list Locator :=
  match left with
  | O => items
  | S left' =>
      let items := grid_items s pg k in
      if (target_page_count <=? Z.of_nat (length items))%Z then items
      else reveal s pg target_page_count (S k) left' items
  end.

(** The state of the run: [handler.rows] and [seen_urls]. *)
Definition state : Type := list record * gset (option pystr).

(** The body of the loop over the items, from [parser.extract] on; [true]
    stands for [break]. *)
Definition process_item (s : Session) (parser : Parser.t) (st : state) (item : Locator)
    : state * bool :=
  let (rows, seen_urls) := st in
  match Parser.extract parser item with
  | Raise (ElementNotFound _) => (st, false)
  | Raise (Error e) => (st, contains closed_msg e)
  | Ok record =>
      if DataHandler.validate_record record then
        if decide (url record ∈ seen_urls) then (st, false)
        else
          ((DataHandler.add_record (utcnow s (length rows)) rows record,
            {[ url record ]} ∪ seen_urls), false)
      else (st, false)
  end.

Fixpoint process_items (s : Session) (parser : Parser.t) (st : state)
    (items : list Locator) : state :=
  match items with
  | [] => st
  | item :: rest =>
      let (st', brk) := process_item s parser st item in
      if brk then st' else process_items s parser st' rest
  end.

(** [target_page_count] *)
Definition target_of (pg : nat) (rows : list record) : Z :=
  if (pg =? 1)%nat then 50%Z
  else Z.min 50 (100 - Z.of_nat (named_count rows)).

(** One page that loaded and listed items: the rows after its items. *)
Definition collect_page (s : Session) (parser : Parser.t) (rows : list record)
    (target_page_count : Z) (items : list Locator) : list record :=
  fst (process_items s parser (rows, urls_of rows) (py_take target_page_count items)).

(** [for pg in pages]: the rows at the end of the loop. *)
Fixpoint scrape_pages (config : ScraperConfig) (s : Session) (parser : Parser.t)
    (pages : list nat) (rows : list record) : list record :=
  match pages with
  | [] => rows
  | pg :: rest =>
      if negb (navigate s pg 1 (Z.to_nat (max_retries config))) then
        scrape_pages config s parser rest rows
      else
        let target_page_count := target_of pg rows in
        match reveal s pg target_page_count 0 6 [] with
        | [] => rows
        | items =>
            let rows := collect_page s parser rows target_page_count items in
            if (100 <=? named_count rows)%nat then rows
            else scrape_pages config s parser rest rows
        end
  end.

(** The rows handed to [handler.to_csv] at the end of [scrape]. *)
Definition scrape (config : ScraperConfig) (s : Session) : list record :=
  scrape_pages config s (Parser.__init__ (base_url config))
    (seq 1 (Z.to_nat (max_pages config))) [].

End Main.

(** ** Sample pages *)

Module Sample.

Definition node (text : pystr) : Locator := Element (Some text) text [] [].

Definition link (href : pystr) : Locator := Element (Some []) [] [("href"%string, href)] [].

(** A grid item with a product link and a title. *)
Definition product (href title : pystr) : Locator :=
  Element (Some title) title []
    [ ("a.a-link-normal.aok-block[href]"%string, link href);
      ("div._cDEzb_p13n-sc-css-line-clamp-3_g3dy1"%string, node title) ].

(** A grid item with a title and no link. *)
Definition unlinked (title : pystr) : Locator :=
  Element (Some title) title []
    [ ("div._cDEzb_p13n-sc-css-line-clamp-3_g3dy1"%string, node title) ].

(** The [n]-th product of a catalogue, [n < 1000]. *)
Definition numbered (n : nat) : Locator :=
  product (u "/dp/B" ++ [48 + N.of_nat (n / 100); 48 + N.of_nat (n / 10 mod 10);
                         48 + N.of_nat (n mod 10)])
          (u "Item").

Definition clock (n : nat) : pystr := u "2024-01-01T00:00:00+00:00".

(** Every page loads and lists 60 products; page [pg] starts at product
    [50 * (pg - 1)]. *)
Definition catalogue : Main.Session :=
  {| Main.goto := fun _ _ => true;
     Main.grid_items := fun pg _ => List.map numbered (seq (50 * (pg - 1)) 60);
     Main.utcnow := clock |}.

(** Two pages that list the same product; the third lists nothing. *)
Definition repeated : Main.Session :=
  {| Main.goto := fun _ _ => true;
     Main.grid_items := fun pg _ =>
       if (pg <=? 2)%nat then [product (u "/dp/B01") (u "Echo Dot")] else [];
     Main.utcnow := clock |}.

(** One page with a full item and an item without a link. *)
Definition two_items : Main.Session :=
  {| Main.goto := fun _ _ => true;
     Main.grid_items := fun pg _ =>
       if (pg =? 1)%nat
       then [product (u "/dp/B01") (u "Echo Dot"); unlinked (u "Fire TV")]
       else [];
     Main.utcnow := clock |}.

(** A grid item with a product link and no title. *)
Definition untitled (href : pystr) : Locator :=
  Element (Some []) [] []
    [ ("a.a-link-normal.aok-block[href]"%string, link href) ].

(** A product whose star icon carries the text [alt]. *)
Definition rated (alt : pystr) : Locator :=
  Element (Some alt) alt []
    [ ("a.a-link-normal.aok-block[href]"%string, link (u "/dp/B01"));
      ("div._cDEzb_p13n-sc-css-line-clamp-3_g3dy1"%string, node (u "Echo Dot"));
      ("i.a-icon-star-small span.a-icon-alt"%string, node alt) ].

(** A grid item whose price node holds a whole part and a fraction, or one
    of them only; [inner] is the rendered text of the item. *)
Definition priced (whole frac : option pystr) (inner : pystr) : Locator :=
  Element (Some inner) inner []
    [ ("span.a-price"%string,
       Element None [] []
         ((match whole with
           | Some w => [("span.a-price-whole"%string, node w)]
           | None => []
           end) ++
          (match frac with
           | Some f => [("span.a-price-fraction"%string, node f)]
           | None => []
           end))) ].

(** A page that never scrolls: the offset is 0 before and after every wheel
    call, in a document taller than the viewport. *)
Definition never_moves : BrowserManager.Page :=
  {| BrowserManager.wheel := fun _ => true;
     BrowserManager.scrollY := fun _ => Some 0;
     BrowserManager.scrollHeight := fun _ => Some 100000;
     BrowserManager.innerHeight := fun _ => Some 768 |}.

(** A page that moves by 1000 pixels at each of its first [n] steps and not
    after them, in a document whose bottom is never reached. *)
Definition moves_for (n : nat) : BrowserManager.Page :=
  {| BrowserManager.wheel := fun _ => true;
     BrowserManager.scrollY := fun i => Some (1000 * N.of_nat (Nat.min i n));
     BrowserManager.scrollHeight := fun _ => Some 1000000;
     BrowserManager.innerHeight := fun _ => Some 768 |}.

(** Every page loads and lists one product on the first five scroll attempts
    and nothing on the sixth. *)
Definition vanishing : Main.Session :=
  {| Main.goto := fun _ _ => true;
     Main.grid_items := fun _ k =>
       if (k <? 5)%nat then [product (u "/dp/B01") (u "Echo Dot")] else [];
     Main.utcnow := clock |}.

(** [p] is the path [target]. *)
Definition same_path (target p : pystr) : bool :=
  startswith target p && startswith p target.

(** A file system in which [target] takes its first [k] writes and refuses
    the next one, and every other path takes all. *)
Definition read_only_after (k : nat) (target : pystr) : DataHandler.FileSystem :=
  {| DataHandler.open := fun _ => DataHandler.Fine;
     DataHandler.write := fun p i =>
       if same_path target p && (k <=? i)%nat
       then DataHandler.Refused else DataHandler.Fine;
     DataHandler.close := fun _ => DataHandler.Fine |}.

End Sample.

(** * The vocabulary of the properties *)

Local Open Scope nat_scope.

(** ** Of the run *)

(** A record that passes the validation gate. *)
Definition accepted (r : record) : Prop :=
  truthy (name r) = true /\ truthy (url r) = true.

(** What the loop over the items keeps true of [handler.rows] and
    [seen_urls]. *)
Definition run_inv (st : Main.state) : Prop :=
  Forall accepted (fst st) /\
  NoDup (List.map url (fst st)) /\
  (forall r, In r (fst st) -> url r ∈ snd st).

(** ** Of the extraction *)

(** The selector's first match carries a non-empty [href]. *)
Definition yields_href (item : Locator) (selector : string) : bool :=
  match locator_first item selector with
  | Element _ _ attrs _ => truthy (assoc "href" attrs)
  | _ => false
  end.

(** The locator is an element of the page. *)
Definition present (l : Locator) : bool :=
  match l with
  | Element _ _ _ _ => true
  | _ => false
  end.

(** The driver answers every query on the locator and below it. *)
Fixpoint live (l : Locator) : bool :=
  match l with
  | NoMatch => true
  | Closed _ => false
  | Element _ _ _ below =>
      (fix all (kvs : list (string * Locator)) : bool :=
         match kvs with
         | [] => true
         | (_, x) :: t => live x && all t
         end) below
  end.

(** The computation raises no [ElementNotFound]. *)
Definition driver_only {A : Type} (m : result A) : Prop :=
  forall msg, m <> Raise (ElementNotFound msg).

(** ** Of the scroll loop *)

(** Through step [n] the wheel calls return, the page answers its queries and
    the bottom of the document is not in view. *)
Definition steady (page : BrowserManager.Page) (n : nat) : Prop :=
  forall i, 1 <= i <= n ->
    BrowserManager.wheel page i = true /\
    exists y h ih,
      BrowserManager.scrollY page i = Some y /\
      BrowserManager.scrollHeight page i = Some h /\
      BrowserManager.innerHeight page i = Some ih /\
      (y + ih + 5 < h)%N.

(** The scroll offset changes at each of the steps 1 to [n] and at no step
    after them. *)
Definition stalls_after (page : BrowserManager.Page) (n : nat) : Prop :=
  (forall i, 1 <= i <= n ->
     BrowserManager.scrollY page i <> BrowserManager.scrollY page (i - 1)) /\
  (forall i, n < i -> BrowserManager.scrollY page i = BrowserManager.scrollY page n).

(** The loop is left at step [i] whatever its state: the wheel call or a
    query fails, or the bottom is in view. *)
Definition halts_at (page : BrowserManager.Page) (i : nat) : Prop :=
  BrowserManager.wheel page i = false \/
  BrowserManager.scrollY page i = None \/
  BrowserManager.scrollHeight page i = None \/
  BrowserManager.innerHeight page i = None \/
  (exists y h ih,
     BrowserManager.scrollY page i = Some y /\
     BrowserManager.scrollHeight page i = Some h /\
     BrowserManager.innerHeight page i = Some ih /\
     (h <= y + ih + 5)%N).

(** ** Of texts and patterns *)

(** The longest prefix of characters of a class; [dropwhile] leaves the rest. *)
Fixpoint takewhile (p : N -> bool) (s : pystr) : pystr :=
  match s with
  | c :: t => if p c then c :: takewhile p t else []
  | [] => []
  end.

(** The first maximal run of characters of a class. *)
Definition first_run (p : N -> bool) (s : pystr) : option pystr :=
  match dropwhile (fun c => negb (p c)) s with
  | [] => None
  | r => Some (takewhile p r)
  end.

(** Every run of characters of the class replaced by [repl]; [inrun] says
    that the character before belongs to a run. *)
Fixpoint squeeze (p : N -> bool) (repl : pystr) (inrun : bool) (s : pystr) : pystr :=
  match s with
  | [] => []
  | c :: t =>
      if p c then
        if inrun then squeeze p repl true t else repl ++ squeeze p repl true t
      else c :: squeeze p repl false t
  end.

(** "Collapses all whitespace runs to a single space". *)
Definition collapse_whitespace (s : pystr) : pystr :=
  squeeze is_space [chr_space] false s.

(** Whitespace is single spaces only; [after_space] says that the character
    before is one. *)
Fixpoint tidy (after_space : bool) (s : pystr) : bool :=
  match s with
  | [] => true
  | c :: t =>
      if is_space c then (c =? chr_space)%N && negb after_space && tidy true t
      else tidy false t
  end.

(** What [lstrip] leaves starts with no whitespace, and so does any prefix
    of it. *)
Definition no_lead (s : pystr) : Prop :=
  match s with c :: _ => is_space c = false | [] => True end.

(** [parsePrice] in the words of the specification: non-breaking spaces
    replaced, the first contiguous run of digits, commas and dots taken, the
    commas stripped and the rest converted; absent without a run or when the
    conversion fails. *)
Definition parse_price_words (raw : option pystr) : option Q :=
  match raw with
  | None => None
  | Some s =>
      match first_run Parser.price_char (replace_chr chr_nbsp chr_space s) with
      | None => None
      | Some run => py_float (remove_chr chr_comma run)
      end
  end.

(** The text of the whole-part node below the price node, if there is one. *)
Definition whole_text (item : Locator) : option pystr :=
  match locator_first (locator_first item "span.a-price") "span.a-price-whole" with
  | Element text _ _ _ => text
  | _ => None
  end.

(** The strings a pattern matches, whatever the order in which the matcher
    tries them. *)
Inductive matches : regex -> pystr -> Prop :=
| matches_chr p c : p c = true -> matches (Chr p) [c]
| matches_cat r1 r2 w1 w2 :
    matches r1 w1 -> matches r2 w2 -> matches (Cat r1 r2) (w1 ++ w2)
| matches_opt_skip r : matches (Opt r) []
| matches_opt_take r w : matches r w -> matches (Opt r) w
| matches_star p w : Forall (fun c => p c = true) w -> matches (Star p) w
| matches_grp r w : matches r w -> matches (Grp r) w.

(** The pattern matches somewhere in the text. *)
Definition occurs (r : regex) (s : pystr) : Prop :=
  exists pre w post, s = pre ++ w ++ post /\ matches r w.

(** The pattern has no capture group. *)
Fixpoint groupless (r : regex) : bool :=
  match r with
  | Chr _ | Star _ => true
  | Cat r1 r2 => groupless r1 && groupless r2
  | Opt r1 => groupless r1
  | Grp _ => false
  end.

(** ** Of numbers *)

(** Every character is one of [0] to [9]. *)
Definition ascii_digits (w : pystr) : Prop :=
  Forall (fun c => is_ascii_digit c = true) w.

(** One or more digits, then perhaps a dot and one digit. *)
Definition numeral (w : pystr) : Prop :=
  exists c ds,
    ascii_digits (c :: ds) /\
    (w = c :: ds \/ exists d, is_ascii_digit d = true /\ w = (c :: ds) ++ [chr_dot; d]).

(** A number of tenths, not negative. *)
Definition tenths (q : Q) : Prop := exists n : N, q = Qred (Z.of_N n # 10).

(** The numeral at the start of [s]: its digits and, if a dot and a digit
    follow them, these two. *)
Definition number_at (s : pystr) : pystr :=
  match dropwhile is_ascii_digit s with
  | x :: d :: _ =>
      if (chr_dot =? x)%N && is_ascii_digit d
      then takewhile is_ascii_digit s ++ [x; d]
      else takewhile is_ascii_digit s
  | _ => takewhile is_ascii_digit s
  end.

(** The first numeral of the text as the code reads it: at the first digit,
    the digits and at most one decimal digit. *)
Definition first_number (s : pystr) : option pystr :=
  match dropwhile (fun c => negb (is_ascii_digit c)) s with
  | [] => None
  | r => Some (number_at r)
  end.

(** The floating-point number at the start of [s]: its digits and, if a dot
    and digits follow them, the dot and all of these digits. *)
Definition float_at (s : pystr) : pystr :=
  match dropwhile is_ascii_digit s with
  | x :: d :: rest =>
      if (chr_dot =? x)%N && is_ascii_digit d
      then takewhile is_ascii_digit s ++ x :: takewhile is_ascii_digit (d :: rest)
      else takewhile is_ascii_digit s
  | _ => takewhile is_ascii_digit s
  end.

(** "The first floating-point number anywhere in the text". *)
Definition first_float (s : pystr) : option pystr :=
  match dropwhile (fun c => negb (is_ascii_digit c)) s with
  | [] => None
  | r => Some (float_at r)
  end.

(** [parseRating] in the words of the specification: the number of the
    primary pattern, or else the first floating-point number of the text,
    rounded to one decimal place. *)
Definition parse_rating_words (raw : option pystr) : option Q :=
  match raw with
  | None => None
  | Some s =>
      match re_search Parser.RATING_RE s with
      | Some m => option_map py_round1 (py_float (group1 m))
      | None =>
          match first_float s with
          | Some num => option_map py_round1 (py_float num)
          | None => None
          end
      end
  end.

(** The length of the longest run of digits in [s], when [k] digits of a run
    come right before [s]. *)
Fixpoint digit_run_from (k : nat) (s : pystr) : nat :=
  match s with
  | [] => k
  | c :: t =>
      if is_ascii_digit c then digit_run_from (S k) t
      else Nat.max k (digit_run_from 0 t)
  end.

Definition longest_digit_run (s : pystr) : nat := digit_run_from 0 s.

(** A text whose numerals have at most 15 digits: the float of such a
    numeral is the one that the decimal denotes, and rounding it to one
    decimal place is exact. *)
Definition short_numerals (s : pystr) : Prop := longest_digit_run s <= 14.

(** The text that [extract] hands to [_parse_rating]. *)
Definition rating_text (item : Locator) : option pystr :=
  match Parser.first_truthy Parser.fetch_rating item Parser.RATING_SELECTORS None with
  | Ok rating_raw => Some (Parser._normalize_text rating_raw)
  | Raise _ => None
  end.

(** [\s*out of\s*5] *)
Definition OUT_OF_5 : regex :=
  Cat (Star is_space) (Parser.OUT_OF (Cat (Star is_space) (Lit 53))).

(** Both rating patterns start with a digit. *)
Definition no_digit_first (s : pystr) : Prop :=
  match s with c :: _ => is_ascii_digit c = false | [] => True end.

(** The primary path: the text holds [<numeral> out of 5], and the rating is
    the numeral of the leftmost such place; rounding it changes nothing. *)
Definition primary_rating (s : pystr) : Prop :=
  exists pre num tail post q,
    s = pre ++ num ++ tail ++ post /\
    matches Parser.NUMBER num /\
    matches OUT_OF_5 tail /\
    (forall pre' w' post',
       s = pre' ++ w' ++ post' -> matches Parser.RATING_RE w' ->
       length pre <= length pre') /\
    py_float num = Some q /\
    py_round1 q = q /\
    Parser._parse_rating (Some s) = Some q.

(** The fallback path: the rating is the first numeral of the text, which
    rounding does not change, and absent if the text has no digit. *)
Definition fallback_rating (s : pystr) : Prop :=
  Parser._parse_rating (Some s) =
    match first_number s with
    | Some num => py_float num
    | None => None
    end.

(** ** Of the further properties *)

(** [_parse_reviews] in words: the first run of digits and commas, the commas
    stripped, read as an integer; absent without a run or when nothing is
    left of it. *)
Definition parse_reviews_words (raw : option pystr) : option Z :=
  match raw with
  | None => None
  | Some s =>
      match first_run Parser.count_char s with
      | None => None
      | Some run => py_int (remove_chr chr_comma run)
      end
  end.

(** The [href] of the selector's first match. *)
Definition href_of (item : Locator) (selector : string) : option pystr :=
  match locator_first item selector with
  | Element _ _ attrs _ => assoc "href" attrs
  | _ => None
  end.

(** [href] resolved against the base URL of the parser. *)
Definition resolve (self : Parser.t) (href : pystr) : pystr :=
  if startswith (u "http") href then href else Parser.base_url self ++ href.

(** [[0-9,.]] *)
Definition amount_char (c : N) : bool :=
  is_ascii_digit c || (c =? chr_comma)%N || (c =? chr_dot)%N.

(** The run of digits, commas and dots after the first [$] that has one
    directly after it. *)
Fixpoint dollar_amount (s : pystr) : option pystr :=
  match s with
  | [] => None
  | c :: t =>
      match (if (c =? chr_dollar)%N then takewhile amount_char t else []) with
      | [] => dollar_amount t
      | run => Some run
      end
  end.

(** A string of decimal digits and its value. *)
Definition reads (w : pystr) (n : N) : Prop := digits_value 0 w = Some n.

(** A text with no whitespace at either end and none inside but single
    spaces. *)
Definition clean (s : pystr) : Prop :=
  tidy false s = true /\ no_lead s /\ no_lead (rev s).

(** [v] is what [fetch] reads at the first selector, in the order of the
    list, whose node is on the page and gives a non-empty value. *)
Definition first_hit (fetch : Locator -> result (option pystr)) (item : Locator)
    (selectors : list string) (v : option pystr) : Prop :=
  exists pre sel post,
    selectors = pre ++ sel :: post /\
    present (locator_first item sel) = true /\
    fetch (locator_first item sel) = Ok v /\
    truthy v = true /\
    Forall (fun s => present (locator_first item s) = true ->
                     exists v', fetch (locator_first item s) = Ok v' /\ truthy v' = false)
           pre.

(** What each way of leaving the scroll loop at step [n] says of the page. *)
Definition left_by (page : BrowserManager.Page) (n : nat) (why : BrowserManager.Stop)
    : Prop :=
  match why with
  | BrowserManager.WheelFailed => BrowserManager.wheel page n = false
  | BrowserManager.QueryFailed =>
      BrowserManager.wheel page n = true /\
      (BrowserManager.scrollY page n = None \/
       BrowserManager.scrollHeight page n = None \/
       BrowserManager.innerHeight page n = None)
  | BrowserManager.Bottom =>
      BrowserManager.wheel page n = true /\
      exists y h ih,
        BrowserManager.scrollY page n = Some y /\
        BrowserManager.scrollHeight page n = Some h /\
        BrowserManager.innerHeight page n = Some ih /\
        (h <= y + ih + 5)%N
  | BrowserManager.Stalled =>
      4 <= n /\ steady page n /\
      exists y, forall j, n - 3 <= j <= n -> BrowserManager.scrollY page j = Some y
  | BrowserManager.Exhausted => n = 120 /\ steady page 120
  end.

(** What the loop knows after step [i]: [last_y] is the last offset read and
    the last [stable_steps + 1] readings are equal to it. *)
Definition scroll_inv (page : BrowserManager.Page) (i : nat) (last_y : Z)
    (stable_steps : nat) : Prop :=
  (i = 0 /\ last_y = (-1)%Z /\ stable_steps = 0) \/
  (stable_steps < i /\
   exists y, last_y = Z.of_N y /\
     forall j, i - stable_steps <= j <= i -> BrowserManager.scrollY page j = Some y).

(** The item is listed by a page of the run that loaded within the retries,
    on one of the six scroll attempts of that page. *)
Definition listed (config : ScraperConfig) (s : Main.Session) (item : Locator) : Prop :=
  exists pg k,
    1 <= pg <= Z.to_nat (max_pages config) /\ k < 6 /\
    Main.navigate s pg 1 (Z.to_nat (max_retries config)) = true /\
    In item (Main.grid_items s pg k).

(** The row is a record that extraction returned for a listed item and that
    passed validation, with the reading of the clock added. *)
Definition scraped_from (config : ScraperConfig) (s : Main.Session) (row : record)
    : Prop :=
  exists item r n,
    listed config s item /\
    Parser.extract (Parser.__init__ (base_url config)) item = Ok r /\
    DataHandler.validate_record r = true /\
    row = DataHandler.stamp (Main.utcnow s n) r.

(** A cell that holds a non-empty string. *)
Definition filled (c : DataHandler.cell) : Prop :=
  exists s, c = DataHandler.CStr s /\ s <> [].

(** The cell of a line in the column of a header. *)
Definition column (k : nat) (line : list DataHandler.cell) : DataHandler.cell :=
  nth k line DataHandler.CNone.

(** The text of the fraction node below the price node, if there is one. *)
Definition frac_text (item : Locator) : option pystr :=
  match locator_first (locator_first item "span.a-price") "span.a-price-fraction" with
  | Element text _ _ _ => text
  | _ => None
  end.

(** * Properties *)

(** ** The run: validation, deduplication and the budget *)

Section Run.

Variable s : Main.Session.
Variable parser : Parser.t.

Lemma validate_record_accepted r :
  DataHandler.validate_record r = true <-> accepted r.
Proof. unfold DataHandler.validate_record, accepted. apply andb_true_iff. Qed.

(** An item either leaves the state as it is or appends one validated record
    whose url was not seen. *)
Lemma process_item_cases st item :
  (exists b, Main.process_item s parser st item = (st, b)) \/
  (exists r, Parser.extract parser item = Ok r /\
             DataHandler.validate_record r = true /\
             (url r ∉ snd st) /\
             Main.process_item s parser st item =
               ((DataHandler.add_record (Main.utcnow s (length (fst st))) (fst st) r,
                 {[ url r ]} ∪ snd st), false)).
Proof.
  destruct st as [rows seen]. unfold Main.process_item. simpl.
  destruct (Parser.extract parser item) as [r | [msg | msg]]; eauto.
  destruct (DataHandler.validate_record r) eqn:Hv; eauto.
  destruct (decide (url r ∈ seen)); eauto.
  right. exists r. auto.
Qed.

Lemma add_record_urls now rows r :
  List.map url (DataHandler.add_record now rows r) = List.map url rows ++ [url r].
Proof. unfold DataHandler.add_record. rewrite List.map_app. reflexivity. Qed.

Lemma add_record_accepted now rows r :
  Forall accepted rows -> accepted r ->
  Forall accepted (DataHandler.add_record now rows r).
Proof.
  intros Hrows Hr. unfold DataHandler.add_record.
  apply Forall_app. split; [exact Hrows |].
  constructor; [exact Hr | constructor].
Qed.

Lemma process_item_inv st item :
  run_inv st -> run_inv (fst (Main.process_item s parser st item)).
Proof.
  intros (Hacc & Hnd & Hseen).
  destruct (process_item_cases st item) as [[b Hb] | (r & _ & Hv & Hnew & Hstep)].
  - rewrite Hb. unfold run_inv. cbn [fst snd]. repeat split; assumption.
  - rewrite Hstep. unfold run_inv. cbn [fst snd]. repeat split.
    + apply add_record_accepted; [exact Hacc | apply validate_record_accepted, Hv].
    + rewrite add_record_urls. apply NoDup_app. repeat split.
      * exact Hnd.
      * intros x Hx Hx'. apply list_elem_of_singleton in Hx'. subst x.
        apply list_elem_of_In, in_map_iff in Hx. destruct Hx as (r' & Heq & Hin).
        apply Hnew. rewrite <- Heq. apply Hseen, Hin.
      * apply NoDup_singleton.
    + intros r' Hin. unfold DataHandler.add_record in Hin.
      apply in_app_iff in Hin. destruct Hin as [Hin | [<- | []]].
      * apply elem_of_union_r, Hseen, Hin.
      * cbn [url]. apply elem_of_union_l, elem_of_singleton. reflexivity.
Qed.

Lemma process_items_inv items : forall st,
  run_inv st -> run_inv (Main.process_items s parser st items).
Proof.
  induction items as [| item rest IH]; intros st Hst; simpl; [exact Hst |].
  pose proof (process_item_inv st item Hst) as Hstep.
  destruct (Main.process_item s parser st item) as [st' brk]. simpl in Hstep.
  destruct brk; [exact Hstep | apply IH, Hstep].
Qed.

Lemma urls_of_spec rows r :
  In r rows -> truthy (url r) = true -> url r ∈ Main.urls_of rows.
Proof.
  intros Hin Ht. unfold Main.urls_of. apply elem_of_list_to_set.
  apply list_elem_of_In, in_map_iff. exists r. split; [reflexivity |].
  apply filter_In. auto.
Qed.

Lemma run_inv_page_start rows :
  Forall accepted rows -> NoDup (List.map url rows) ->
  run_inv (rows, Main.urls_of rows).
Proof.
  intros Hacc Hnd. repeat split; simpl; try assumption.
  intros r Hin. apply urls_of_spec; [exact Hin |].
  rewrite List.Forall_forall in Hacc. apply Hacc, Hin.
Qed.

Lemma collect_page_inv rows target items :
  Forall accepted rows -> NoDup (List.map url rows) ->
  Forall accepted (Main.collect_page s parser rows target items) /\
  NoDup (List.map url (Main.collect_page s parser rows target items)).
Proof.
  intros Hacc Hnd. unfold Main.collect_page.
  destruct (process_items_inv (Main.py_take target items) _
              (run_inv_page_start rows Hacc Hnd)) as (H1 & H2 & _).
  split; assumption.
Qed.

Lemma scrape_pages_inv config pages : forall rows,
  Forall accepted rows -> NoDup (List.map url rows) ->
  Forall accepted (Main.scrape_pages config s parser pages rows) /\
  NoDup (List.map url (Main.scrape_pages config s parser pages rows)).
Proof.
  induction pages as [| pg rest IH]; intros rows Hacc Hnd;
    cbn [Main.scrape_pages]; [auto |].
  destruct (negb _); [apply IH; assumption |].
  destruct (Main.reveal s pg (Main.target_of pg rows) 0 6 [])
    as [| item items] eqn:Hitems; [auto |].
  destruct (collect_page_inv rows (Main.target_of pg rows) (item :: items) Hacc Hnd)
    as [Hacc' Hnd'].
  destruct (_ <=? _)%nat; [auto | apply IH; assumption].
Qed.

(** *** The budget of named records *)

Lemma named_count_app rows1 rows2 :
  Main.named_count (rows1 ++ rows2) = Main.named_count rows1 + Main.named_count rows2.
Proof. unfold Main.named_count. rewrite List.filter_app, List.length_app. reflexivity. Qed.

Lemma add_record_named now rows r :
  Main.named_count (DataHandler.add_record now rows r) <= S (Main.named_count rows).
Proof.
  unfold DataHandler.add_record, DataHandler.stamp. rewrite named_count_app.
  unfold Main.named_count at 2. cbn [List.filter name].
  destruct (truthy (name r)); cbn [length]; lia.
Qed.

Lemma process_item_named st item :
  Main.named_count (fst (fst (Main.process_item s parser st item)))
  <= S (Main.named_count (fst st)).
Proof.
  destruct (process_item_cases st item) as [[b Hb] | (r & _ & _ & _ & Hstep)].
  - rewrite Hb. cbn [fst]. lia.
  - rewrite Hstep. cbn [fst]. apply add_record_named.
Qed.

Lemma process_items_named items : forall st,
  Main.named_count (fst (Main.process_items s parser st items))
  <= Main.named_count (fst st) + length items.
Proof.
  induction items as [| item rest IH]; intros st; cbn [Main.process_items length];
    [lia |].
  pose proof (process_item_named st item) as Hstep.
  destruct (Main.process_item s parser st item) as [st' brk]. cbn [fst] in Hstep.
  destruct brk; [lia |].
  specialize (IH st'). lia.
Qed.

Lemma py_take_length {A : Type} (n : Z) (items : list A) :
  (0 <= n)%Z -> length (Main.py_take n items) <= Z.to_nat n.
Proof.
  intros Hn. unfold Main.py_take.
  destruct (Z.leb_spec 0 n) as [_ | Hlt]; [| lia].
  rewrite List.length_firstn. lia.
Qed.

Lemma target_of_bounds pg rows :
  Main.named_count rows <= 100 ->
  (0 <= Main.target_of pg rows <= 50)%Z /\
  (pg <> 1 -> Main.named_count rows + Z.to_nat (Main.target_of pg rows) <= 100).
Proof.
  intros Hn. unfold Main.target_of.
  destruct (Nat.eqb_spec pg 1) as [-> | Hpg]; split; try lia.
Qed.

(** The items of one page, cut at any point: the first page stays within 50
    named records, a later page within 100. *)
Lemma page_prefix_named pg rows items j :
  Main.named_count rows <= 100 ->
  Main.named_count
    (fst (Main.process_items s parser (rows, Main.urls_of rows)
            (firstn j (Main.py_take (Main.target_of pg rows) items))))
  <= (if pg =? 1 then Main.named_count rows + 50 else 100).
Proof.
  intros Hn.
  destruct (target_of_bounds pg rows Hn) as [[Hlo Hhi] Hsum].
  pose proof (process_items_named
    (firstn j (Main.py_take (Main.target_of pg rows) items)) (rows, Main.urls_of rows))
    as Hitems.
  pose proof (py_take_length (Main.target_of pg rows) items Hlo) as Hlen.
  rewrite List.length_firstn in Hitems. cbn [fst] in Hitems.
  destruct (Nat.eqb_spec pg 1) as [-> | Hpg]; [lia |].
  specialize (Hsum Hpg). lia.
Qed.

Lemma collect_page_named pg rows items :
  Main.named_count rows <= 100 ->
  Main.named_count (Main.collect_page s parser rows (Main.target_of pg rows) items)
  <= (if pg =? 1 then Main.named_count rows + 50 else 100).
Proof.
  intros Hn. unfold Main.collect_page.
  pose proof (page_prefix_named pg rows items
    (length (Main.py_take (Main.target_of pg rows) items)) Hn) as H.
  rewrite List.firstn_all in H. exact H.
Qed.

Lemma scrape_pages_budget config pages : forall rows,
  Forall (fun pg => pg <> 1) pages ->
  Main.named_count rows <= 100 ->
  Main.named_count (Main.scrape_pages config s parser pages rows) <= 100.
Proof.
  induction pages as [| pg rest IH]; intros rows Hpages Hn;
    cbn [Main.scrape_pages]; [exact Hn |].
  inversion Hpages as [| ? ? Hpg Hrest]; subst.
  destruct (negb _); [apply IH; assumption |].
  destruct (Main.reveal s pg (Main.target_of pg rows) 0 6 [])
    as [| item items] eqn:Hitems; [exact Hn |].
  pose proof (collect_page_named pg rows (item :: items) Hn) as Hpage.
  destruct (Nat.eqb_spec pg 1) as [-> | _]; [contradiction |].
  destruct (_ <=? _); [exact Hpage | apply IH; assumption].
Qed.

Lemma seq_from_2 k : Forall (fun pg => pg <> 1) (seq 2 k).
Proof.
  apply List.Forall_forall. intros pg Hin. apply in_seq in Hin. lia.
Qed.

(** The rows after the first [k] pages of a run, or at its exit if it was
    left earlier. *)
Lemma scrape_prefix_budget config k :
  Main.named_count (Main.scrape_pages config s parser (seq 1 k) []) <= 100.
Proof.
  destruct k as [| k]; [cbn; lia |].
  cbn [seq Main.scrape_pages].
  destruct (negb _); [apply scrape_pages_budget; [apply seq_from_2 | cbn; lia] |].
  destruct (Main.reveal s 1 (Main.target_of 1 []) 0 6 [])
    as [| item items] eqn:Hitems; [cbn; lia |].
  assert (Hn : Main.named_count [] <= 100) by (cbn; lia).
  pose proof (collect_page_named 1 [] (item :: items) Hn) as Hpage.
  cbn [Nat.eqb] in Hpage. change (Main.named_count []) with 0 in Hpage.
  destruct (_ <=? _); [lia |].
  apply scrape_pages_budget; [apply seq_from_2 | lia].
Qed.

(** Once the count of a page's end reaches 100 the loop is left: the pages
    after it change nothing. *)
Lemma scrape_pages_stop config pages1 pages2 : forall rows,
  Main.named_count rows < 100 ->
  100 <= Main.named_count (Main.scrape_pages config s parser pages1 rows) ->
  Main.scrape_pages config s parser (pages1 ++ pages2) rows =
  Main.scrape_pages config s parser pages1 rows.
Proof.
  induction pages1 as [| pg rest IH]; intros rows Hlt Hge.
  - cbn [Main.scrape_pages] in Hge. lia.
  - cbn [app Main.scrape_pages] in *.
    destruct (negb _); [apply IH; assumption |].
    destruct (Main.reveal s pg (Main.target_of pg rows) 0 6 [])
      as [| item items] eqn:Hitems; [reflexivity |].
    destruct (Nat.leb_spec 100
      (Main.named_count
         (Main.collect_page s parser rows (Main.target_of pg rows) (item :: items))))
      as [_ | Hlt']; [reflexivity | apply IH; assumption].
Qed.

End Run.

(** *** Timestamps *)

Lemma process_items_stamped s parser items : forall st,
  Forall (fun r => timestamp r <> None) (fst st) ->
  Forall (fun r => timestamp r <> None) (fst (Main.process_items s parser st items)).
Proof.
  induction items as [| item rest IH]; intros st Hst; cbn [Main.process_items];
    [exact Hst |].
  assert (Hstep : Forall (fun r => timestamp r <> None)
                    (fst (fst (Main.process_item s parser st item)))).
  { destruct (process_item_cases s parser st item) as [[b Hb] | (r & _ & _ & _ & Hstep)].
    - rewrite Hb. exact Hst.
    - rewrite Hstep. cbn [fst]. unfold DataHandler.add_record.
      apply Forall_app. split; [exact Hst |].
      constructor; [discriminate | constructor]. }
  destruct (Main.process_item s parser st item) as [st' brk]. cbn [fst] in Hstep.
  destruct brk; [exact Hstep | apply IH, Hstep].
Qed.

Lemma scrape_pages_stamped config s parser pages : forall rows,
  Forall (fun r => timestamp r <> None) rows ->
  Forall (fun r => timestamp r <> None) (Main.scrape_pages config s parser pages rows).
Proof.
  induction pages as [| pg rest IH]; intros rows Hrows;
    cbn [Main.scrape_pages]; [exact Hrows |].
  destruct (negb _); [apply IH; assumption |].
  destruct (Main.reveal s pg (Main.target_of pg rows) 0 6 [])
    as [| item items] eqn:Hitems; [exact Hrows |].
  assert (Hpage : Forall (fun r => timestamp r <> None)
            (Main.collect_page s parser rows (Main.target_of pg rows) (item :: items))).
  { unfold Main.collect_page. apply process_items_stamped. exact Hrows. }
  destruct (_ <=? _); [exact Hpage | apply IH; exact Hpage].
Qed.

Lemma extract_no_timestamp parser item r :
  Parser.extract parser item = Ok r -> timestamp r = None.
Proof.
  unfold Parser.extract. intros H.
  repeat match type of H with
  | (mbind _ ?m = Ok _) => destruct m; cbn [mbind result_bind] in H; try discriminate
  | ((if ?b then _ else _) = Ok _) => destruct b; try discriminate
  end.
  injection H as <-. reflexivity.
Qed.

(** ** The claims on the run *)

(** C1. No two records of the final dataset share a url. The set of seen
    urls built at the start of a page holds the url of every record accepted
    on the pages before it, and a record whose url is in the set is dropped:
    rows and set stay as they are. *)
Theorem scrape_urls_unique (config : ScraperConfig) (s : Main.Session) :
  NoDup (List.map url (Main.scrape config s)) /\
  (forall k r,
     In r (Main.scrape_pages config s (Parser.__init__ (base_url config)) (seq 1 k) []) ->
     url r ∈ Main.urls_of
       (Main.scrape_pages config s (Parser.__init__ (base_url config)) (seq 1 k) [])) /\
  (forall parser rows seen_urls item r,
     Parser.extract parser item = Ok r ->
     url r ∈ seen_urls ->
     Main.process_item s parser (rows, seen_urls) item = ((rows, seen_urls), false)).
Proof.
  split; [| split].
  - unfold Main.scrape. apply scrape_pages_inv; constructor.
  - intros k r Hin.
    destruct (scrape_pages_inv s (Parser.__init__ (base_url config)) config (seq 1 k) [])
      as [Hacc _]; [constructor | constructor |].
    apply urls_of_spec; [exact Hin |].
    rewrite List.Forall_forall in Hacc. apply (Hacc r Hin).
  - intros parser rows seen item r Hr Hseen. unfold Main.process_item. rewrite Hr.
    destruct (DataHandler.validate_record r); [| reflexivity].
    destruct (decide (url r ∈ seen)); [reflexivity | contradiction].
Qed.

(** Two pages listing the same product leave one copy of it. *)
Lemma scrape_urls_unique_witness :
  NoDup (List.map url (Main.scrape default_config Sample.repeated)) /\
  length (Main.scrape default_config Sample.repeated) = 1.
Proof.
  split.
  - exact (proj1 (scrape_urls_unique default_config Sample.repeated)).
  - vm_compute. reflexivity.
Defined.

(** C2. Every record of the final dataset has a non-empty name and a
    non-empty url. A record that fails the gate leaves rows and seen urls as
    they are, whatever its url; extraction sets no timestamp, and every row
    of the dataset has one. *)
Theorem scrape_rows_validated (config : ScraperConfig) (s : Main.Session) :
  Forall (fun r => truthy (name r) = true /\ truthy (url r) = true)
         (Main.scrape config s) /\
  (forall parser st item r,
     Parser.extract parser item = Ok r ->
     DataHandler.validate_record r = false ->
     Main.process_item s parser st item = (st, false)) /\
  (forall parser item r, Parser.extract parser item = Ok r -> timestamp r = None) /\
  Forall (fun r => timestamp r <> None) (Main.scrape config s).
Proof.
  split; [| split; [| split]].
  - unfold Main.scrape. apply scrape_pages_inv; constructor.
  - intros parser [rows seen] item r Hr Hv. unfold Main.process_item.
    rewrite Hr, Hv. reflexivity.
  - apply extract_no_timestamp.
  - unfold Main.scrape. apply scrape_pages_stamped. constructor.
Qed.

(** An item with a link and no title fails the gate: nothing is appended and
    its url is not recorded as seen. *)
Lemma scrape_rows_validated_witness :
  Main.process_item Sample.repeated (Parser.__init__ (base_url default_config))
    ([], ∅) (Sample.untitled (u "/dp/B02")) = (([], ∅), false).
Proof.
  destruct (Parser.extract (Parser.__init__ (base_url default_config))
              (Sample.untitled (u "/dp/B02"))) as [r | e] eqn:Hr;
    [| vm_compute in Hr; discriminate Hr].
  apply (proj1 (proj2 (scrape_rows_validated default_config Sample.repeated))
           _ _ _ r Hr).
  vm_compute in Hr. injection Hr as <-. reflexivity.
Defined.

(** C3. At every point of a run the count of named records is at most 100:
    after the first [k] pages, and after any number [j] of the items of the
    page that follows. That page processes at most 50 items if it is the
    first and at most [min(50, 100 - count)] otherwise, and once the count
    has reached 100 at the end of a page the later pages add nothing. *)
Theorem scrape_named_budget (config : ScraperConfig) (s : Main.Session) (k : nat) :
  let parser := Parser.__init__ (base_url config) in
  let rows := Main.scrape_pages config s parser (seq 1 k) [] in
  Main.named_count (Main.scrape config s) <= 100 /\
  Main.named_count rows <= 100 /\
  (forall items j,
     Main.named_count
       (fst (Main.process_items s parser (rows, Main.urls_of rows)
               (firstn j (Main.py_take (Main.target_of (S k) rows) items)))) <= 100) /\
  (forall (items : list Locator),
     length (Main.py_take (Main.target_of (S k) rows) items)
     <= (if k =? 0 then 50 else Nat.min 50 (100 - Main.named_count rows))) /\
  (forall k',
     100 <= Main.named_count rows ->
     Main.scrape_pages config s parser (seq 1 (k + k')) [] = rows).
Proof.
  intros parser rows.
  assert (Hrows : Main.named_count rows <= 100) by apply scrape_prefix_budget.
  split; [apply scrape_prefix_budget |].
  split; [exact Hrows |].
  split; [| split].
  - intros items j.
    pose proof (page_prefix_named s parser (S k) rows items j Hrows) as H.
    destruct k as [| k]; [| exact H].
    cbn [Nat.eqb] in H. change (Main.named_count rows) with 0 in H. lia.
  - intros items.
    destruct (target_of_bounds (S k) rows Hrows) as [[Hlo Hhi] _].
    pose proof (py_take_length (Main.target_of (S k) rows) items Hlo) as Hlen.
    unfold Main.target_of in *.
    destruct k as [| k]; cbn [Nat.eqb] in *; lia.
  - intros k' Hfull. rewrite List.seq_app.
    apply scrape_pages_stop; [cbn; lia | exact Hfull].
Qed.

(** A run over a catalogue of 60 products a page: the second page brings the
    count to 100 and the third page is not processed. *)
Lemma scrape_named_budget_witness :
  Main.named_count
    (Main.scrape_pages default_config Sample.catalogue
       (Parser.__init__ (base_url default_config)) (seq 1 2) []) = 100 /\
  Main.scrape_pages default_config Sample.catalogue
    (Parser.__init__ (base_url default_config)) (seq 1 (2 + 1)) [] =
  Main.scrape_pages default_config Sample.catalogue
    (Parser.__init__ (base_url default_config)) (seq 1 2) [].
Proof.
  assert (H : Main.named_count
    (Main.scrape_pages default_config Sample.catalogue
       (Parser.__init__ (base_url default_config)) (seq 1 2) []) = 100)
    by (vm_compute; reflexivity).
  split; [exact H |].
  apply (scrape_named_budget default_config Sample.catalogue 2).
  rewrite H. apply le_n.
Defined.

(** ** Per-item extraction *)

Lemma driver_only_ok {A : Type} (a : A) : driver_only (Ok a).
Proof. intros msg; discriminate. Qed.

Lemma driver_only_bind {A B : Type} (m : result A) (f : A -> result B) :
  driver_only m -> (forall a, driver_only (f a)) -> driver_only (mbind f m).
Proof.
  intros Hm Hf msg. destruct m as [a | e]; cbn [mbind result_bind].
  - exact (Hf a msg).
  - intros Heq. apply (Hm msg). injection Heq as ->. reflexivity.
Qed.

Lemma driver_only_count l : driver_only (count l).
Proof. destruct l; intros m; discriminate. Qed.

Lemma driver_only_get_attribute l a : driver_only (get_attribute l a).
Proof. destruct l; intros m; discriminate. Qed.

Lemma driver_only_text_content l : driver_only (text_content l).
Proof. destruct l; intros m; discriminate. Qed.

Lemma driver_only_inner_text l : driver_only (inner_text l).
Proof. destruct l; intros m; discriminate. Qed.

Create HintDb driver.

#[local] Hint Resolve driver_only_ok driver_only_count driver_only_get_attribute
  driver_only_text_content driver_only_inner_text : driver.

Ltac driver_step :=
  repeat first
    [ apply driver_only_bind; [ | intros ? ]
    | progress auto with driver
    | match goal with
      | |- driver_only (if ?b then _ else _) => destruct b
      | |- driver_only (match ?x with _ => _ end) => destruct x
      end ].

Lemma driver_only_first_truthy fetch item selectors : forall cur,
  (forall l, driver_only (fetch l)) ->
  driver_only (Parser.first_truthy fetch item selectors cur).
Proof.
  induction selectors as [| sel rest IH]; intros cur Hfetch;
    cbn [Parser.first_truthy]; [apply driver_only_ok |].
  driver_step; auto.
Qed.

Lemma driver_only_get_price item : driver_only (Parser.get_price item).
Proof.
  unfold Parser.get_price, Parser.price_offscreen, Parser.price_composed,
    Parser.price_fallback.
  driver_step.
Qed.

Lemma driver_only_is_sponsored item : driver_only (Parser.is_sponsored item).
Proof. unfold Parser.is_sponsored. driver_step. Qed.

Lemma driver_only_find_url self item selectors :
  driver_only (Parser.find_url self item selectors).
Proof.
  induction selectors as [| sel rest IH]; cbn [Parser.find_url];
    [apply driver_only_ok |].
  driver_step; auto.
Qed.

(** *** Items the driver answers *)

Lemma live_locator_first item selector :
  live item = true -> live (locator_first item selector) = true.
Proof.
  destruct item as [| msg | text inner attrs below]; cbn [locator_first];
    [reflexivity | discriminate |].
  cbn [live]. induction below as [| [k v] rest IH]; cbn [assoc]; [reflexivity |].
  intros H. apply andb_true_iff in H. destruct H as [Hv Hrest].
  destruct (String.eqb k selector); [exact Hv | apply IH, Hrest].
Qed.

Ltac live_destruct :=
  match goal with
  | H : live ?x = true |- context [locator_first ?x ?sel] =>
      let Hs := fresh "Hlive" in
      pose proof (live_locator_first x sel H) as Hs;
      destruct (locator_first x sel) as [| ? | ? ? ? ?];
      [ | discriminate Hs | ]
  end.

Ltac run_driver :=
  cbn [count text_content get_attribute inner_text mbind result_bind Nat.ltb Nat.leb].

Lemma yields_href_spec item selector :
  yields_href item selector = true <->
  exists text inner attrs below c h,
    locator_first item selector = Element text inner attrs below /\
    assoc "href" attrs = Some (c :: h).
Proof.
  unfold yields_href. split.
  - destruct (locator_first item selector) as [| msg | text inner attrs below];
      try discriminate.
    destruct (assoc "href" attrs) as [[| c h] |] eqn:Hhref; try discriminate.
    intros _. exists text, inner, attrs, below, c, h. auto.
  - intros (text & inner & attrs & below & c & h & -> & ->). reflexivity.
Qed.

Lemma find_url_truthy self item selectors v :
  Parser.find_url self item selectors = Ok (Some v) -> truthy (Some v) = true.
Proof.
  induction selectors as [| sel rest IH]; cbn [Parser.find_url]; [discriminate |].
  destruct (locator_first item sel) as [| msg | text inner attrs below]; run_driver;
    [exact IH | discriminate |].
  destruct (assoc "href" attrs) as [[| c h] |]; try exact IH.
  destruct (startswith (u "http") (c :: h)); intros H; injection H as <-;
    [reflexivity |].
  destruct (Parser.base_url self); reflexivity.
Qed.

Lemma find_url_none_inv self item selectors :
  Parser.find_url self item selectors = Ok None ->
  forall sel, In sel selectors -> yields_href item sel = false.
Proof.
  induction selectors as [| sel0 rest IH]; cbn [Parser.find_url]; [intros _ sel [] |].
  destruct (locator_first item sel0) as [| msg | text inner attrs below] eqn:Hloc;
    run_driver; [ | discriminate | ].
  - intros H sel [<- | Hin]; [unfold yields_href; rewrite Hloc; reflexivity | auto].
  - destruct (assoc "href" attrs) as [[| c h] |] eqn:Hhref.
    + intros H sel [<- | Hin]; [unfold yields_href; rewrite Hloc, Hhref; reflexivity | auto].
    + destruct (startswith (u "http") (c :: h)); discriminate.
    + intros H sel [<- | Hin]; [unfold yields_href; rewrite Hloc, Hhref; reflexivity | auto].
Qed.

Lemma find_url_live self item selectors :
  live item = true ->
  (forall sel, In sel selectors -> yields_href item sel = false) /\
    Parser.find_url self item selectors = Ok None
  \/
  (exists sel, In sel selectors /\ yields_href item sel = true) /\
    exists v, Parser.find_url self item selectors = Ok (Some v).
Proof.
  intros Hlive. induction selectors as [| sel0 rest IH]; cbn [Parser.find_url].
  - left. split; [intros sel [] | reflexivity].
  - pose proof (live_locator_first item sel0 Hlive) as Hsub.
    assert (Hcase : yields_href item sel0 = true \/ yields_href item sel0 = false)
      by (destruct (yields_href item sel0); auto).
    destruct Hcase as [Hy | Hn].
    + right. split; [exists sel0; split; [left; reflexivity | exact Hy] |].
      apply yields_href_spec in Hy.
      destruct Hy as (text & inner & attrs & below & c & h & -> & Hhref).
      run_driver. rewrite Hhref.
      destruct (startswith (u "http") (c :: h)); eauto.
    + assert (Hskip : Parser.find_url self item (sel0 :: rest) =
                      Parser.find_url self item rest).
      { cbn [Parser.find_url]. unfold yields_href in Hn.
        destruct (locator_first item sel0) as [| msg | text inner attrs below];
          run_driver; [reflexivity | discriminate Hsub |].
        destruct (assoc "href" attrs) as [[| c h] |]; try reflexivity.
        discriminate Hn. }
      cbn [Parser.find_url] in Hskip. rewrite Hskip.
      destruct IH as [[Hall Hnone] | [(sel & Hin & Hy) Hsome]].
      * left. split; [| exact Hnone].
        intros sel [<- | Hin]; [exact Hn | auto].
      * right. split; [exists sel; split; [right; exact Hin | exact Hy] | exact Hsome].
Qed.

Lemma first_truthy_nomatch fetch item selectors cur :
  (forall sel, In sel selectors -> locator_first item sel = NoMatch) ->
  Parser.first_truthy fetch item selectors cur = Ok cur.
Proof.
  induction selectors as [| sel rest IH]; intros Hall; cbn [Parser.first_truthy];
    [reflexivity |].
  rewrite (Hall sel (or_introl eq_refl)). run_driver.
  apply IH. intros sel' Hin. apply Hall. right. exact Hin.
Qed.

Lemma first_truthy_live fetch item selectors : forall cur,
  live item = true ->
  (forall l, present l = true -> live l = true -> exists v, fetch l = Ok v) ->
  exists v, Parser.first_truthy fetch item selectors cur = Ok v.
Proof.
  intros cur Hlive Hfetch. revert cur.
  induction selectors as [| sel rest IH]; intros cur; cbn [Parser.first_truthy];
    [eauto |].
  live_destruct; run_driver; [apply IH |].
  match goal with H : live (Element ?t ?i ?a ?b) = true |- _ =>
    rename t into text; rename i into inner; rename a into attrs; rename b into below;
    rename H into Hlive0 end.
  destruct (Hfetch (Element text inner attrs below) eq_refl Hlive0) as [v Hv].
  rewrite Hv. run_driver.
  destruct (truthy v); [eauto | apply IH].
Qed.

Lemma fetch_name_live l :
  present l = true -> live l = true -> exists v, Parser.fetch_name l = Ok v.
Proof.
  destruct l; try discriminate. intros _ _. unfold Parser.fetch_name. run_driver. eauto.
Qed.

Lemma fetch_rating_live l :
  present l = true -> live l = true -> exists v, Parser.fetch_rating l = Ok v.
Proof.
  destruct l; try discriminate. intros _ _. unfold Parser.fetch_rating. run_driver.
  destruct (negb _); run_driver; eauto.
Qed.

Lemma text_content_live l :
  present l = true -> live l = true -> exists v, text_content l = Ok v.
Proof. destruct l; try discriminate. intros _ _. run_driver. eauto. Qed.

Lemma get_price_live item :
  present item = true -> live item = true -> exists v, Parser.get_price item = Ok v.
Proof.
  intros Hp Hlive.
  assert (Hfb : exists v, Parser.price_fallback item = Ok v).
  { unfold Parser.price_fallback. destruct item; try discriminate. run_driver.
    destruct (re_search _ _); eauto. }
  assert (Hc : exists v, Parser.price_composed item = Ok v).
  { unfold Parser.price_composed.
    live_destruct; run_driver; [eauto |].
    repeat (live_destruct; run_driver); destruct (_ || _); eauto. }
  assert (Ho : exists v, Parser.price_offscreen item = Ok v).
  { unfold Parser.price_offscreen. live_destruct; run_driver; eauto. }
  unfold Parser.get_price.
  destruct Ho as [[v |] ->]; run_driver; [eauto |].
  destruct Hc as [[v |] ->]; run_driver; [eauto | exact Hfb].
Qed.

Lemma is_sponsored_live item :
  live item = true -> exists v, Parser.is_sponsored item = Ok v.
Proof.
  intros Hlive. unfold Parser.is_sponsored.
  repeat (live_destruct; run_driver); eauto.
Qed.

Lemma extract_enf_iff self item :
  (exists msg, Parser.extract self item = Raise (ElementNotFound msg)) <->
  Parser.find_url self item Parser.URL_SELECTORS = Ok None.
Proof.
  unfold Parser.extract. split.
  - intros [msg H].
    destruct (Parser.find_url self item Parser.URL_SELECTORS) as [[v |] | e] eqn:Hurl;
      [ | reflexivity | ]; exfalso.
    + cbn [mbind result_bind] in H.
      rewrite (find_url_truthy _ _ _ _ Hurl) in H. cbn [negb] in H.
      revert H. apply driver_only_bind;
        [apply driver_only_first_truthy; intros l; unfold Parser.fetch_name; driver_step |].
      intros nm. apply driver_only_bind; [apply driver_only_get_price |].
      intros pr. apply driver_only_bind;
        [apply driver_only_first_truthy; auto with driver |].
      intros og. apply driver_only_bind;
        [apply driver_only_first_truthy; intros l; unfold Parser.fetch_rating; driver_step |].
      intros rt. apply driver_only_bind;
        [apply driver_only_first_truthy; auto with driver |].
      intros rv. apply driver_only_bind; [apply driver_only_is_sponsored |].
      intros sp. apply driver_only_ok.
    + cbn [mbind result_bind] in H.
      apply (driver_only_find_url self item Parser.URL_SELECTORS msg).
      rewrite Hurl. injection H as ->. reflexivity.
  - intros ->. cbn [mbind result_bind truthy negb]. eauto.
Qed.

(** On an item the driver answers, extraction returns a record as soon as a
    URL is found: each later stage returns a value, absent or not. *)
Lemma extract_live self item v :
  present item = true -> live item = true ->
  Parser.find_url self item Parser.URL_SELECTORS = Ok (Some v) ->
  exists nm pr og rt rv sp,
    Parser.first_truthy Parser.fetch_name item Parser.NAME_SELECTORS (Some []) = Ok nm /\
    Parser.get_price item = Ok pr /\
    Parser.first_truthy text_content item Parser.ORIGINAL_PRICE_SELECTORS None = Ok og /\
    Parser.first_truthy Parser.fetch_rating item Parser.RATING_SELECTORS None = Ok rt /\
    Parser.first_truthy text_content item Parser.REVIEWS_SELECTORS None = Ok rv /\
    Parser.is_sponsored item = Ok sp /\
    Parser.extract self item =
      Ok {| name := if truthy nm then nm else None;
            price := pr;
            original_price := Parser._parse_price (Some (Parser._normalize_text og));
            rating := Parser._parse_rating (Some (Parser._normalize_text rt));
            reviews := Parser._parse_reviews (Some (Parser._normalize_text rv));
            url := Some v;
            item_type := if sp then Sponsored else Organic;
            timestamp := None |}.
Proof.
  intros Hp Hlive Hurl.
  destruct (first_truthy_live Parser.fetch_name item Parser.NAME_SELECTORS (Some [])
              Hlive fetch_name_live) as [nm Hnm].
  destruct (get_price_live item Hp Hlive) as [pr Hpr].
  destruct (first_truthy_live text_content item Parser.ORIGINAL_PRICE_SELECTORS None
              Hlive text_content_live) as [og Hog].
  destruct (first_truthy_live Parser.fetch_rating item Parser.RATING_SELECTORS None
              Hlive fetch_rating_live) as [rt Hrt].
  destruct (first_truthy_live text_content item Parser.REVIEWS_SELECTORS None
              Hlive text_content_live) as [rv Hrv].
  destruct (is_sponsored_live item Hlive) as [sp Hsp].
  exists nm, pr, og, rt, rv, sp. repeat (split; [assumption |]).
  unfold Parser.extract. rewrite Hurl. cbn [mbind result_bind].
  rewrite (find_url_truthy _ _ _ _ Hurl). cbn [negb].
  rewrite Hnm. cbn [mbind result_bind]. rewrite Hpr. cbn [mbind result_bind].
  rewrite Hog. cbn [mbind result_bind]. rewrite Hrt. cbn [mbind result_bind].
  rewrite Hrv. cbn [mbind result_bind]. rewrite Hsp. cbn [mbind result_bind].
  reflexivity.
Qed.

Lemma get_price_absent item text :
  locator_first item "span.aok-offscreen" = NoMatch ->
  locator_first item "span.a-price" = NoMatch ->
  inner_text item = Ok text ->
  re_search Parser.DOLLAR_RE (Parser._normalize_text (Some text)) = None ->
  Parser.get_price item = Ok None.
Proof.
  intros Ha Hc Ht Hre.
  unfold Parser.get_price, Parser.price_offscreen, Parser.price_composed,
    Parser.price_fallback.
  rewrite Ha, Hc, Ht. run_driver. rewrite Hre. reflexivity.
Qed.




(** ** The scroll loop *)

Lemma scroll_loop_bound page : forall fuel i last_y stable,
  fst (BrowserManager.scroll_loop page fuel i last_y stable) <= i + fuel.
Proof.
  induction fuel as [| fuel IH]; intros i last_y stable;
    cbn [BrowserManager.scroll_loop]; [cbn; lia |].
  destruct (negb _); [cbn; lia |].
  destruct (BrowserManager.scrollY page (S i)) as [y |]; [| cbn; lia].
  destruct (BrowserManager.scrollHeight page (S i)) as [h |]; [| cbn; lia].
  destruct (BrowserManager.innerHeight page (S i)) as [ih |]; [| cbn; lia].
  destruct (_ <=? _)%N; [cbn; lia |].
  destruct (3 <=? _); [cbn; lia |].
  specialize (IH (S i)
    (if (Z.of_N y =? last_y)%Z then last_y else Z.of_N y)
    (if (Z.of_N y =? last_y)%Z then S stable else 0)). lia.
Qed.

Lemma scroll_loop_halts page j : forall fuel i last_y stable,
  i < j -> halts_at page j ->
  fst (BrowserManager.scroll_loop page fuel i last_y stable) <= j.
Proof.
  induction fuel as [| fuel IH]; intros i last_y stable Hij Hhalt;
    cbn [BrowserManager.scroll_loop]; [cbn; lia |].
  assert (Hcase : S i = j \/ S i < j) by lia.
  destruct Hcase as [<- | Hlt].
  - destruct Hhalt as [Hw | [Hy | [Hh | [Hih | (y & h & ih & Hy & Hh & Hih & Hb)]]]].
    + rewrite Hw. cbn. lia.
    + destruct (negb _); [cbn; lia |]. rewrite Hy. cbn. lia.
    + destruct (negb _); [cbn; lia |]. rewrite Hh.
      destruct (BrowserManager.scrollY page (S i)); cbn; lia.
    + destruct (negb _); [cbn; lia |]. rewrite Hih.
      destruct (BrowserManager.scrollY page (S i)); [| cbn; lia].
      destruct (BrowserManager.scrollHeight page (S i)); cbn; lia.
    + destruct (negb _); [cbn; lia |]. rewrite Hy, Hh, Hih.
      apply N.leb_le in Hb. rewrite Hb. cbn. lia.
  - destruct (negb _); [cbn; lia |].
    destruct (BrowserManager.scrollY page (S i)) as [y |]; [| cbn; lia].
    destruct (BrowserManager.scrollHeight page (S i)) as [h |]; [| cbn; lia].
    destruct (BrowserManager.innerHeight page (S i)) as [ih |]; [| cbn; lia].
    destruct (_ <=? _)%N; [cbn; lia |].
    destruct (3 <=? _); [cbn; lia |].
    apply IH; assumption.
Qed.

(** The state of the loop after step [i] on a steady page that stalls after
    step [n]: the code sees its last change at step [max n 1], since the
    first reading differs from the initial [last_y = -1]. *)
Lemma scroll_loop_stall page n : forall fuel i last_y stable,
  steady page (i + fuel) ->
  stalls_after page n ->
  i < Nat.max n 1 + 3 ->
  stable = i - Nat.max n 1 ->
  (i = 0 -> last_y = (-1)%Z) ->
  (1 <= i -> option_map Z.of_N (BrowserManager.scrollY page i) = Some last_y) ->
  BrowserManager.scroll_loop page fuel i last_y stable =
    if Nat.max n 1 + 3 <=? i + fuel
    then (Nat.max n 1 + 3, BrowserManager.Stalled)
    else (i + fuel, BrowserManager.Exhausted).
Proof.
  induction fuel as [| fuel IH]; intros i last_y stable Hsteady Hstall Hi Hst H0 H1;
    cbn [BrowserManager.scroll_loop].
  - destruct (Nat.leb_spec (Nat.max n 1 + 3) (i + 0)); [lia |].
    f_equal. lia.
  - destruct (Hsteady (S i)) as (Hw & y & h & ih & Hy & Hh & Hih & Hb); [lia |].
    rewrite Hw, Hy, Hh, Hih. cbn [negb].
    destruct (N.leb_spec h (y + ih + 5)) as [Hle | _]; [lia |].
    destruct Hstall as [Hmove Hstay].
    assert (Hcmp : (Z.of_N y =? last_y)%Z = (Nat.max n 1 <=? i)).
    { destruct (Nat.leb_spec (Nat.max n 1) i) as [Hge | Hlt].
      - apply Z.eqb_eq.
        assert (Hsame : BrowserManager.scrollY page (S i) = BrowserManager.scrollY page i).
        { rewrite (Hstay (S i)) by lia.
          destruct (Nat.eq_dec i n) as [-> | Hne]; [reflexivity |].
          rewrite (Hstay i) by lia. reflexivity. }
        specialize (H1 ltac:(lia)). rewrite <- Hsame, Hy in H1. cbn in H1.
        injection H1 as <-. reflexivity.
      - apply Z.eqb_neq. destruct i as [| i].
        + rewrite (H0 eq_refl). lia.
        + specialize (H1 ltac:(lia)). intros Heq.
          apply (Hmove (S (S i))); [lia |].
          replace (S (S i) - 1) with (S i) by lia. rewrite Hy.
          destruct (BrowserManager.scrollY page (S i)) as [y' |]; cbn in H1;
            [| discriminate].
          injection H1 as H1. f_equal. lia. }
    rewrite Hcmp.
    destruct (Nat.leb_spec (Nat.max n 1) i) as [Hge | Hlt].
    + destruct (Nat.leb_spec 3 (S stable)) as [H3 | H3].
      * destruct (Nat.leb_spec (Nat.max n 1 + 3) (i + S fuel)); [| lia].
        f_equal. lia.
      * rewrite (IH (S i) last_y (S stable)); try lia.
        -- replace (S i + fuel) with (i + S fuel) by lia. reflexivity.
        -- replace (S i + fuel) with (i + S fuel) by lia. exact Hsteady.
        -- split; assumption.
        -- intros _.
           assert (Hsame : BrowserManager.scrollY page (S i) = BrowserManager.scrollY page i).
           { rewrite (Hstay (S i)) by lia.
             destruct (Nat.eq_dec i n) as [-> | Hne]; [reflexivity |].
             rewrite (Hstay i) by lia. reflexivity. }
           rewrite Hsame. apply H1. lia.
    + cbn [Nat.leb].
      rewrite (IH (S i) (Z.of_N y) 0); try lia.
      * replace (S i + fuel) with (i + S fuel) by lia. reflexivity.
      * replace (S i + fuel) with (i + S fuel) by lia. exact Hsteady.
      * split; assumption.
      * intros _. rewrite Hy. reflexivity.
Qed.

Lemma steady_moves_for n : steady (Sample.moves_for n) 120.
Proof.
  intros i Hi. split; [reflexivity |].
  exists (1000 * N.of_nat (Nat.min i n))%N, 1000000%N, 768%N.
  repeat split. lia.
Qed.

Lemma stalls_after_moves_for n : stalls_after (Sample.moves_for n) n.
Proof.
  split; intros i Hi; cbn [Sample.moves_for BrowserManager.scrollY].
  - intros H. injection H as H. lia.
  - f_equal. lia.
Qed.




(** ** The matcher *)

Lemma takewhile_dropwhile p s : takewhile p s ++ dropwhile p s = s.
Proof.
  induction s as [| c t IH]; cbn; [reflexivity |].
  destruct (p c); cbn; [rewrite IH |]; reflexivity.
Qed.

Lemma takewhile_all p s : Forall (fun c => p c = true) (takewhile p s).
Proof.
  induction s as [| c t IH]; cbn; [constructor |].
  destruct (p c) eqn:Hc; constructor; assumption.
Qed.

Lemma dropwhile_length p s : length (dropwhile p s) <= length s.
Proof.
  induction s as [| c t IH]; cbn; [lia |]. destruct (p c); cbn; lia.
Qed.

Lemma firstn_takewhile p s :
  firstn (length s - length (dropwhile p s)) s = takewhile p s.
Proof.
  rewrite <- (takewhile_dropwhile p s) at 1 3.
  rewrite List.length_app.
  replace (length (takewhile p s) + length (dropwhile p s) - length (dropwhile p s))
    with (length (takewhile p s) + 0) by lia.
  rewrite List.firstn_app_2. cbn. apply List.app_nil_r.
Qed.

Lemma dropwhile_idem p s : dropwhile p (dropwhile p s) = dropwhile p s.
Proof.
  induction s as [| c t IH]; cbn; [reflexivity |].
  destruct (p c) eqn:Hc; [exact IH |]. cbn. rewrite Hc. reflexivity.
Qed.

Lemma dropwhile_all p w s :
  Forall (fun c => p c = true) w -> dropwhile p (w ++ s) = dropwhile p s.
Proof.
  induction 1 as [| c w Hc _ IH]; cbn; [reflexivity |]. rewrite Hc. exact IH.
Qed.

Lemma dropwhile_stop p s :
  match s with c :: _ => p c = false | [] => True end -> dropwhile p s = s.
Proof. destruct s as [| c t]; cbn; [reflexivity |]. intros ->. reflexivity. Qed.

(** The greedy repetition hands on the longest run first. *)
Lemma star_k_longest p s k x :
  k (dropwhile p s) = Some x -> star_k p s k = Some x.
Proof.
  induction s as [| c t IH]; cbn; [auto |].
  destruct (p c); [| auto]. intros H. rewrite (IH H). reflexivity.
Qed.

Lemma star_k_sound p s k x :
  star_k p s k = Some x ->
  exists w s', s = w ++ s' /\ Forall (fun c => p c = true) w /\ k s' = Some x.
Proof.
  induction s as [| c t IH]; cbn.
  - intros H. exists [], []. auto.
  - destruct (p c) eqn:Hc.
    + destruct (star_k p t k) as [y |] eqn:Hstar.
      * intros H. injection H as <-.
        destruct (IH eq_refl) as (w & s' & -> & Hw & Hk).
        exists (c :: w), s'. repeat split; [constructor; assumption | exact Hk].
      * intros H. exists [], (c :: t). auto.
    + intros H. exists [], (c :: t). auto.
Qed.

Lemma star_k_none p s k :
  (forall s', k s' = None) -> star_k p s k = None.
Proof.
  intros Hk. induction s as [| c t IH]; cbn; [apply Hk |].
  destruct (p c); [rewrite IH |]; apply Hk.
Qed.

(** *** Patterns made of one repeated class *)

Lemma re_match_at_plus p s :
  re_match_at (Plus p) s =
    match s with
    | c :: t => if p c then Some (dropwhile p t, None) else None
    | [] => None
    end.
Proof.
  unfold re_match_at, Plus. cbn [re_match].
  destruct s as [| c t]; [reflexivity |].
  destruct (p c); [| reflexivity].
  apply star_k_longest. reflexivity.
Qed.

Lemma re_match_at_grp_plus p s :
  re_match_at (Grp (Plus p)) s =
    match s with
    | c :: t => if p c then Some (dropwhile p t, Some (c :: takewhile p t)) else None
    | [] => None
    end.
Proof.
  unfold re_match_at, Plus. cbn [re_match].
  destruct s as [| c t]; [reflexivity |].
  destruct (p c) eqn:Hc; [| reflexivity].
  apply star_k_longest. do 3 f_equal.
  pose proof (firstn_takewhile p (c :: t)) as H. cbn [dropwhile takewhile] in H.
  rewrite Hc in H. exact H.
Qed.

Lemma re_search_grp_plus p s :
  option_map group1 (re_search (Grp (Plus p)) s) = first_run p s.
Proof.
  unfold first_run. induction s as [| c t IH].
  - cbn. reflexivity.
  - cbn [re_search]. rewrite re_match_at_grp_plus. cbn [dropwhile takewhile].
    destruct (p c) eqn:Hc; cbn [negb].
    + cbn. rewrite Hc. reflexivity.
    + exact IH.
Qed.

Lemma re_search_grp_plus_none p s :
  re_search (Grp (Plus p)) s = None <-> first_run p s = None.
Proof.
  rewrite <- re_search_grp_plus. destruct (re_search _ s); cbn; split; congruence.
Qed.

(** ** Text normalisation *)

Lemma re_sub_from_plus p repl s :
  re_sub_from (Plus p) repl 0 s = squeeze p repl false s /\
  re_sub_from (Plus p) repl (length (takewhile p s)) s = squeeze p repl true s.
Proof.
  induction s as [| c t [IH0 IH1]]; [split; reflexivity |].
  assert (H0 : re_sub_from (Plus p) repl 0 (c :: t) = squeeze p repl false (c :: t)).
  { cbn [re_sub_from squeeze]. rewrite re_match_at_plus.
    destruct (p c) eqn:Hc; [| rewrite IH0; reflexivity].
    pose proof (dropwhile_length p t) as Hlen.
    replace (length (c :: t) - length (dropwhile p t))
      with (S (length (takewhile p t))).
    - rewrite IH1. reflexivity.
    - rewrite <- (takewhile_dropwhile p t) at 2. cbn [length].
      rewrite List.length_app. lia. }
  split; [exact H0 |].
  cbn [takewhile]. destruct (p c) eqn:Hc.
  - cbn [length re_sub_from squeeze]. rewrite Hc. exact IH1.
  - cbn [length]. rewrite H0. cbn [squeeze]. rewrite Hc. reflexivity.
Qed.

Lemma normalize_text_spec s :
  Parser._normalize_text (Some s) = strip (collapse_whitespace s).
Proof.
  unfold Parser._normalize_text, collapse_whitespace, re_sub.
  destruct s as [| c t]; [reflexivity |]. cbn [truthy negb].
  rewrite (proj1 (re_sub_from_plus is_space [chr_space] (c :: t))). reflexivity.
Qed.

Lemma squeeze_tidy s : forall b, tidy b (squeeze is_space [chr_space] b s) = true.
Proof.
  induction s as [| c t IH]; intros b; cbn [squeeze]; [reflexivity |].
  destruct (is_space c) eqn:Hc.
  - destruct b; [apply IH |].
    cbn [app tidy]. change (is_space chr_space) with true. cbn. apply IH.
  - cbn [tidy]. rewrite Hc. apply IH.
Qed.

Lemma tidy_squeeze s : forall b,
  tidy b s = true -> squeeze is_space [chr_space] b s = s.
Proof.
  induction s as [| c t IH]; intros b; cbn [tidy squeeze]; [reflexivity |].
  destruct (is_space c) eqn:Hc.
  - intros H. apply andb_true_iff in H. destruct H as [H Ht].
    apply andb_true_iff in H. destruct H as [Heq Hb].
    apply N.eqb_eq in Heq. subst c. destruct b; [discriminate |].
    cbn [app]. rewrite (IH true Ht). reflexivity.
  - intros Ht. rewrite (IH false Ht). reflexivity.
Qed.

Lemma tidy_weaken s : tidy true s = true -> tidy false s = true.
Proof.
  destruct s as [| c t]; cbn [tidy]; [reflexivity |].
  destruct (is_space c); [| auto]. rewrite andb_false_r. discriminate.
Qed.

Lemma tidy_tail b c t : tidy b (c :: t) = true -> tidy false t = true.
Proof.
  cbn [tidy]. destruct (is_space c); [| auto].
  intros H. apply andb_true_iff in H. apply tidy_weaken, H.
Qed.

Lemma tidy_dropwhile s : forall b,
  tidy b s = true -> tidy false (dropwhile is_space s) = true.
Proof.
  induction s as [| c t IH]; intros b H; cbn [dropwhile]; [reflexivity |].
  destruct (is_space c) eqn:Hc.
  - apply (IH false). exact (tidy_tail b c t H).
  - cbn [tidy] in *. rewrite Hc in *. exact H.
Qed.

Lemma tidy_prefix s1 s2 : forall b, tidy b (s1 ++ s2) = true -> tidy b s1 = true.
Proof.
  induction s1 as [| c t IH]; intros b; cbn [app tidy]; [reflexivity |].
  destruct (is_space c); [| apply IH].
  intros H. apply andb_true_iff in H. destruct H as [H Ht].
  rewrite H. apply (IH true Ht).
Qed.

Lemma rstrip_prefix s : exists w, s = rstrip s ++ w.
Proof.
  unfold rstrip. exists (rev (takewhile is_space (rev s))).
  rewrite <- List.rev_app_distr, takewhile_dropwhile, List.rev_involutive.
  reflexivity.
Qed.

Lemma rstrip_idem s : rstrip (rstrip s) = rstrip s.
Proof. unfold rstrip. rewrite List.rev_involutive, dropwhile_idem. reflexivity. Qed.

Lemma tidy_strip s b : tidy b s = true -> tidy false (strip s) = true.
Proof.
  intros H. unfold strip.
  pose proof (tidy_dropwhile s b H) as Hl. fold (lstrip s) in Hl.
  destruct (rstrip_prefix (lstrip s)) as [w Hw].
  rewrite Hw in Hl. exact (tidy_prefix _ _ _ Hl).
Qed.

Lemma no_lead_dropwhile s : no_lead (dropwhile is_space s).
Proof.
  induction s as [| c t IH]; cbn [dropwhile]; [exact I |].
  destruct (is_space c) eqn:Hc; [exact IH | exact Hc].
Qed.

Lemma no_lead_prefix s1 s2 : no_lead (s1 ++ s2) -> no_lead s1.
Proof. destruct s1; [intros _; exact I | auto]. Qed.

Lemma strip_idem s : strip (strip s) = strip s.
Proof.
  unfold strip at 1.
  assert (Hlead : no_lead (strip s)).
  { unfold strip. destruct (rstrip_prefix (lstrip s)) as [w Hw].
    apply (no_lead_prefix _ w). rewrite <- Hw. apply no_lead_dropwhile. }
  unfold lstrip at 1. rewrite (dropwhile_stop is_space (strip s) Hlead).
  unfold strip. apply rstrip_idem.
Qed.

(** C9. [normalizeText] is idempotent; it is the trimmed text with every
    whitespace run collapsed to a single space, and an empty or absent input
    gives the empty string. *)
Theorem normalize_text_idempotent (raw : option pystr) :
  Parser._normalize_text (Some (Parser._normalize_text raw))
    = Parser._normalize_text raw /\
  (forall s, Parser._normalize_text (Some s) = strip (collapse_whitespace s)) /\
  Parser._normalize_text None = [] /\
  Parser._normalize_text (Some []) = [].
Proof.
  split; [| split; [exact normalize_text_spec | split; reflexivity]].
  destruct raw as [s |]; [| reflexivity].
  rewrite !normalize_text_spec.
  assert (Ht : tidy false (strip (collapse_whitespace s)) = true)
    by apply (tidy_strip _ false), squeeze_tidy.
  unfold collapse_whitespace at 1. rewrite (tidy_squeeze _ false Ht).
  apply strip_idem.
Qed.

(** ** Prices *)

Lemma parse_price_refines raw : Parser._parse_price raw = parse_price_words raw.
Proof.
  unfold Parser._parse_price, parse_price_words.
  destruct raw as [[| c t] |]; [reflexivity | | reflexivity].
  cbn [truthy negb]. unfold Parser.PRICE_RE.
  rewrite <- re_search_grp_plus.
  destruct (re_search _ _); reflexivity.
Qed.

(** C4. [parsePrice] is the function the specification words; it gives
    1234.56 on "$1,234.56" and nothing on a dash. When the off-screen text
    gives no price, a whole part "29" with a fraction "99" composes to 29.99,
    and a whole part "29" alone to 29.0. *)
Theorem parse_price_spec :
  (forall raw, Parser._parse_price raw = parse_price_words raw) /\
  Parser._parse_price (Some (u "$1,234.56")) = Some (Qred 1234.56) /\
  Parser._parse_price (Some [8212%N]) = None /\
  (forall item i1 a1 b1 i2 a2 b2,
     Parser.price_offscreen item = Ok None ->
     locator_first (locator_first item "span.a-price") "span.a-price-whole"
       = Element (Some (u "29")) i1 a1 b1 ->
     locator_first (locator_first item "span.a-price") "span.a-price-fraction"
       = Element (Some (u "99")) i2 a2 b2 ->
     Parser.get_price item = Ok (Some (Qred 29.99))) /\
  (forall item i1 a1 b1,
     Parser.price_offscreen item = Ok None ->
     locator_first (locator_first item "span.a-price") "span.a-price-whole"
       = Element (Some (u "29")) i1 a1 b1 ->
     locator_first (locator_first item "span.a-price") "span.a-price-fraction"
       = NoMatch ->
     Parser.get_price item = Ok (Some (Qred 29))).
Proof.
  split; [exact parse_price_refines |].
  split; [vm_compute; reflexivity |].
  split; [vm_compute; reflexivity |].
  split.
  - intros item i1 a1 b1 i2 a2 b2 Hoff Hw Hf.
    unfold Parser.get_price. rewrite Hoff. run_driver.
    unfold Parser.price_composed.
    destruct (locator_first item "span.a-price") as [| msg | t i a b];
      try discriminate Hw.
    rewrite Hw, Hf. run_driver. vm_compute. reflexivity.
  - intros item i1 a1 b1 Hoff Hw Hf.
    unfold Parser.get_price. rewrite Hoff. run_driver.
    unfold Parser.price_composed.
    destruct (locator_first item "span.a-price") as [| msg | t i a b];
      try discriminate Hw.
    rewrite Hw, Hf. run_driver. vm_compute. reflexivity.
Qed.

(** The sample item with both parts, and the one with the whole part only. *)
Lemma parse_price_spec_witness :
  Parser.get_price (Sample.priced (Some (u "29")) (Some (u "99")) (u "#1 Echo Dot"))
    = Ok (Some (Qred 29.99)) /\
  Parser.get_price (Sample.priced (Some (u "29")) None (u "#1 Echo Dot"))
    = Ok (Some (Qred 29)).
Proof.
  split.
  - apply (proj1 (proj2 (proj2 (proj2 parse_price_spec))))
      with (u "29") [] [] (u "99") [] []; reflexivity.
  - apply (proj2 (proj2 (proj2 (proj2 parse_price_spec))))
      with (u "29") [] []; reflexivity.
Defined.

Lemma compose_price_needs_whole w f v :
  Parser.compose_price w f = Some v -> truthy w = true.
Proof.
  unfold Parser.compose_price. destruct (truthy w); [reflexivity |].
  cbn [andb]. discriminate.
Qed.

Lemma price_composed_needs_whole item v :
  Parser.price_composed item = Ok (Some v) ->
  truthy (Parser.whole_digits (whole_text item)) = true.
Proof.
  unfold Parser.price_composed, whole_text.
  destruct (locator_first item "span.a-price") as [| msg | t i a b]; run_driver;
    try discriminate.
  destruct (locator_first (Element t i a b) "span.a-price-whole")
    as [| msg1 | t1 i1 a1 b1]; run_driver; try discriminate;
  destruct (locator_first (Element t i a b) "span.a-price-fraction")
    as [| msg2 | t2 i2 a2 b2]; run_driver; try discriminate;
  match goal with
  | |- (if ?c then _ else _) = _ -> _ => destruct c; try discriminate
  end;
  intros H; injection H as H; exact (compose_price_needs_whole _ _ _ H).
Qed.

Lemma price_composed_live item :
  live item = true ->
  truthy (Parser.whole_digits (whole_text item)) = false ->
  Parser.price_composed item = Ok None.
Proof.
  intros Hlive Hw.
  assert (Hc : exists v, Parser.price_composed item = Ok v).
  { unfold Parser.price_composed.
    live_destruct; run_driver; [eauto |].
    repeat (live_destruct; run_driver); destruct (_ || _); eauto. }
  destruct Hc as [[v |] Hv]; [| exact Hv].
  rewrite (price_composed_needs_whole item v Hv) in Hw. discriminate.
Qed.

(** C10. The composed stage yields a price only when the whole part has
    digits. With a fraction and no parsable whole part the stage yields
    nothing: a price that [get_price] returns then comes from the off-screen
    text or from the [$] amount of the rendered text, and on an item the
    driver answers [get_price] is the text fallback once the off-screen text
    gave nothing. *)
Theorem composed_price_needs_whole (item : Locator) :
  (forall w f v, Parser.compose_price w f = Some v -> truthy w = true) /\
  (forall v, Parser.price_composed item = Ok (Some v) ->
             truthy (Parser.whole_digits (whole_text item)) = true) /\
  (truthy (Parser.whole_digits (whole_text item)) = false ->
   (forall v, Parser.price_composed item <> Ok (Some v)) /\
   (forall v, Parser.get_price item = Ok (Some v) ->
      Parser.price_offscreen item = Ok (Some v) \/
      (Parser.price_offscreen item = Ok None /\
       Parser.price_fallback item = Ok (Some v))) /\
   (live item = true -> Parser.price_offscreen item = Ok None ->
    Parser.get_price item = Parser.price_fallback item)).
Proof.
  split; [exact compose_price_needs_whole |].
  split; [exact (price_composed_needs_whole item) |].
  intros Hw.
  assert (Hno : forall v, Parser.price_composed item <> Ok (Some v)).
  { intros v Hv. rewrite (price_composed_needs_whole item v Hv) in Hw.
    discriminate. }
  split; [exact Hno |]. split.
  - intros v. unfold Parser.get_price.
    destruct (Parser.price_offscreen item) as [[v1 |] | e]; run_driver;
      [intros H; left; exact H | | discriminate].
    destruct (Parser.price_composed item) as [[v2 |] | e] eqn:Hc; run_driver;
      [exfalso; exact (Hno v2 eq_refl) | | discriminate].
    intros H. right. split; [reflexivity | exact H].
  - intros Hlive Hoff. unfold Parser.get_price. rewrite Hoff. run_driver.
    rewrite (price_composed_live item Hlive Hw). reflexivity.
Qed.

(** An item whose price node holds the fraction "99" only: no price without
    a [$] amount in its text, and the [$] amount when there is one. *)
Lemma composed_price_needs_whole_witness :
  Parser.get_price (Sample.priced None (Some (u "99")) (u "#1 Echo Dot 99"))
    = Ok None /\
  Parser.get_price (Sample.priced None (Some (u "99")) (u "#1 Echo Dot $12.50"))
    = Ok (Some (Qred 12.5)).
Proof.
  split.
  - rewrite (proj2 (proj2 (proj2 (proj2 (composed_price_needs_whole
      (Sample.priced None (Some (u "99")) (u "#1 Echo Dot 99")))) eq_refl))
      eq_refl eq_refl).
    vm_compute. reflexivity.
  - rewrite (proj2 (proj2 (proj2 (proj2 (composed_price_needs_whole
      (Sample.priced None (Some (u "99")) (u "#1 Echo Dot $12.50")))) eq_refl))
      eq_refl eq_refl).
    vm_compute. reflexivity.
Defined.

(** ** The language of a pattern *)

(** What the matcher returns is a match of the pattern followed by a success
    of the continuation; a pattern without a group hands the group on. *)
Lemma re_match_sound r : forall s g k x,
  re_match r s g k = Some x ->
  exists w s' g', s = w ++ s' /\ matches r w /\ k s' g' = Some x /\
                  (groupless r = true -> g' = g).
Proof.
  induction r as [p | r1 IH1 r2 IH2 | r1 IH1 | p | r1 IH1]; intros s g k x;
    cbn [re_match groupless].
  - destruct s as [| c t]; [discriminate |].
    destruct (p c) eqn:Hc; [| discriminate]. intros H.
    exists [c], t, g. repeat split; [constructor; exact Hc | exact H].
  - intros H. destruct (IH1 _ _ _ _ H) as (w1 & s1 & g1 & -> & Hm1 & H1 & Hg1).
    destruct (IH2 _ _ _ _ H1) as (w2 & s2 & g2 & -> & Hm2 & H2 & Hg2).
    exists (w1 ++ w2), s2, g2. rewrite <- List.app_assoc.
    repeat split; [constructor; assumption | exact H2 |].
    intros Hgl. apply andb_true_iff in Hgl. destruct Hgl as [Ha Hb].
    rewrite (Hg2 Hb). exact (Hg1 Ha).
  - destruct (re_match r1 s g k) as [y |] eqn:Hr.
    + intros H. injection H as <-.
      destruct (IH1 _ _ _ _ Hr) as (w & s' & g' & -> & Hm & Hk & Hg).
      exists w, s', g'. repeat split; [apply matches_opt_take, Hm | exact Hk | exact Hg].
    + intros H. exists [], s, g. repeat split; [constructor | exact H].
  - intros H. destruct (star_k_sound _ _ _ _ H) as (w & s' & -> & Hw & Hk).
    exists w, s', g. repeat split; [constructor; exact Hw | exact Hk].
  - intros H. destruct (IH1 _ _ _ _ H) as (w & s' & g' & -> & Hm & Hk & _).
    exists w, s', (Some (firstn (length (w ++ s') - length s') (w ++ s'))).
    repeat split; [constructor; exact Hm | exact Hk | discriminate].
Qed.

Lemma firstn_app_exact (w s : pystr) :
  firstn (length (w ++ s) - length s) (w ++ s) = w.
Proof.
  rewrite List.length_app.
  replace (length w + length s - length s) with (length w + 0) by lia.
  rewrite List.firstn_app_2. cbn. apply List.app_nil_r.
Qed.

(** A pattern [(r1)r2] with no other group: group 1 is the part that [r1]
    matched. *)
Lemma re_match_at_group_sound r1 r2 s x :
  groupless r1 = true -> groupless r2 = true ->
  re_match_at (Cat (Grp r1) r2) s = Some x ->
  exists w1 w2, s = w1 ++ w2 ++ fst x /\ matches r1 w1 /\ matches r2 w2 /\
                snd x = Some w1.
Proof.
  intros Hg1 Hg2. unfold re_match_at. cbn [re_match]. intros H.
  destruct (re_match_sound _ _ _ _ _ H) as (w1 & s1 & g1 & -> & Hm1 & H1 & _).
  rewrite firstn_app_exact in H1.
  destruct (re_match_sound _ _ _ _ _ H1) as (w2 & s2 & g2 & -> & Hm2 & H2 & Hgrp).
  rewrite (Hgrp Hg2) in H2. injection H2 as <-.
  exists w1, w2. auto.
Qed.

Lemma star_k_complete p w s k :
  Forall (fun c => p c = true) w -> k s <> None -> star_k p (w ++ s) k <> None.
Proof.
  intros Hw Hk. induction Hw as [| c w Hc _ IH]; cbn [app].
  - destruct s as [| c t]; cbn [star_k]; [exact Hk |].
    destruct (p c); [| exact Hk].
    destruct (star_k p t k); [discriminate | exact Hk].
  - cbn [star_k]. rewrite Hc.
    destruct (star_k p (w ++ s) k); [discriminate | contradiction].
Qed.

(** The matcher finds a match whenever the pattern has one that the
    continuation accepts. *)
Lemma re_match_complete r w : matches r w -> forall s g k,
  (forall g', k s g' <> None) -> re_match r (w ++ s) g k <> None.
Proof.
  induction 1 as [p c Hc | r1 r2 w1 w2 _ IH1 _ IH2 | r1 | r1 w _ IH | p w Hw
                 | r1 w _ IH]; intros s g k Hk; cbn [re_match].
  - cbn [app]. rewrite Hc. apply Hk.
  - rewrite <- List.app_assoc. apply IH1. intros g'. apply IH2. exact Hk.
  - cbn [app]. destruct (re_match r1 s g k); [discriminate | apply Hk].
  - specialize (IH s g k Hk).
    destruct (re_match r1 (w ++ s) g k); [discriminate | contradiction].
  - apply star_k_complete; [exact Hw | apply Hk].
  - apply IH. intros g'. apply Hk.
Qed.

Lemma re_search_here r s : re_match_at r s <> None -> re_search r s <> None.
Proof.
  intros H. destruct s as [| c t]; cbn [re_search];
    destruct (re_match_at r _); try discriminate; contradiction.
Qed.

Lemma re_search_complete r s : occurs r s -> re_search r s <> None.
Proof.
  intros (pre & w & post & -> & Hm).
  induction pre as [| c pre IH].
  - cbn [app]. apply re_search_here. unfold re_match_at.
    apply re_match_complete; [exact Hm | discriminate].
  - cbn [app re_search].
    destruct (re_match_at r (c :: pre ++ w ++ post)); [discriminate | exact IH].
Qed.

(** The match that [re.search] returns: where it starts, no earlier start
    has a match. *)
Lemma re_search_sound r s m :
  re_search r s = Some m ->
  exists pre s0 x,
    s = pre ++ s0 /\ re_match_at r s0 = Some x /\ m = match_of s0 x /\
    (forall pre' s1, s = pre' ++ s1 -> length pre' < length pre ->
                     re_match_at r s1 = None).
Proof.
  induction s as [| c t IH]; cbn [re_search].
  - destruct (re_match_at r []) as [x |] eqn:Hx; [| discriminate].
    intros H. injection H as <-. exists [], [], x.
    repeat split; [exact Hx |]. intros pre' s1 _ Hlen. cbn in Hlen. lia.
  - destruct (re_match_at r (c :: t)) as [x |] eqn:Hx.
    + intros H. injection H as <-. exists [], (c :: t), x.
      repeat split; [exact Hx |]. intros pre' s1 _ Hlen. cbn in Hlen. lia.
    + intros H. destruct (IH H) as (pre & s0 & x & -> & Hx0 & -> & Hmin).
      exists (c :: pre), s0, x. repeat split; [exact Hx0 |].
      intros pre' s1 Heq Hlen. destruct pre' as [| c' pre'].
      * cbn [app] in Heq. subst s1. exact Hx.
      * cbn [app] in Heq. injection Heq as -> Heq.
        apply (Hmin pre' s1 Heq). cbn [length] in Hlen. lia.
Qed.

Lemma re_search_none_iff r s : re_search r s = None <-> ~ occurs r s.
Proof.
  split.
  - intros Hnone Hocc. exact (re_search_complete r s Hocc Hnone).
  - intros Hno. destruct (re_search r s) as [m |] eqn:Hs; [| reflexivity].
    exfalso. apply Hno.
    destruct (re_search_sound r s m Hs) as (pre & s0 & x & -> & Hx & _ & _).
    destruct (re_match_sound _ _ _ _ _ Hx) as (w & s' & g' & -> & Hm & _ & _).
    exists pre, w, s'. auto.
Qed.

(** ** Numerals *)

Lemma matches_number w : matches Parser.NUMBER w -> numeral w.
Proof.
  unfold Parser.NUMBER, Plus, Lit. intros H.
  inversion H as [| ? ? w1 w2 H1 H2 | | | |]; subst.
  inversion H1 as [| ? ? w3 w4 H3 H4 | | | |]; subst.
  inversion H3 as [? c Hc | | | | |]; subst.
  inversion H4 as [| | | | ? ? Hds |]; subst.
  assert (Hall : ascii_digits (c :: w4)) by (constructor; assumption).
  exists c, w4. split; [exact Hall |].
  inversion H2 as [| | | ? ? H5 | |]; subst.
  - left. rewrite List.app_nil_r. reflexivity.
  - right. inversion H5 as [| ? ? w5 w6 H6 H7 | | | |]; subst.
    inversion H6 as [? x Hx | | | | |]; subst.
    inversion H7 as [? d Hd | | | | |]; subst.
    apply N.eqb_eq in Hx. subst x. exists d. split; [exact Hd | reflexivity].
Qed.

Lemma digit_value_ascii c :
  is_ascii_digit c = true -> digit_value c = Some (c - 48)%N.
Proof.
  unfold is_ascii_digit, digit_value, decimal_runs. intros H.
  apply andb_true_iff in H. destruct H as [Hlo Hhi].
  cbn [List.find]. rewrite Hlo.
  apply N.leb_le in Hhi.
  assert (Hlt : (c <? 48 + 10)%N = true) by (apply N.ltb_lt; lia).
  rewrite Hlt. reflexivity.
Qed.

Lemma ascii_digit_not_dot c : is_ascii_digit c = true -> (c =? chr_dot)%N = false.
Proof.
  unfold is_ascii_digit, chr_dot. intros H.
  apply andb_true_iff in H. destruct H as [Hlo _].
  apply N.leb_le in Hlo. apply N.eqb_neq. lia.
Qed.

Lemma digits_value_ascii w : ascii_digits w ->
  forall acc, exists n, digits_value acc w = Some n.
Proof.
  induction 1 as [| c w Hc _ IH]; intros acc; cbn [digits_value]; [eauto |].
  rewrite (digit_value_ascii c Hc). apply IH.
Qed.

Lemma split_dot_digits w : ascii_digits w -> split_dot w = (w, None).
Proof.
  induction 1 as [| c w Hc _ IH]; cbn [split_dot]; [reflexivity |].
  rewrite (ascii_digit_not_dot c Hc), IH. reflexivity.
Qed.

Lemma split_dot_fraction w r :
  ascii_digits w -> split_dot (w ++ chr_dot :: r) = (w, Some r).
Proof.
  induction 1 as [| c w Hc _ IH]; cbn [split_dot app].
  - reflexivity.
  - rewrite (ascii_digit_not_dot c Hc), IH. reflexivity.
Qed.

(** [float] of a numeral is a whole number or a number of tenths. *)
Lemma py_float_numeral w :
  numeral w ->
  exists n : N, py_float w = Some (Qred (Z.of_N n # 1)) \/
                py_float w = Some (Qred (Z.of_N n # 10)).
Proof.
  intros (c & ds & Hds & [-> | (d & Hd & ->)]); unfold py_float.
  - rewrite (split_dot_digits _ Hds), List.app_nil_r.
    destruct (digits_value_ascii _ Hds 0%N) as [n Hn]. rewrite Hn.
    exists n. left. reflexivity.
  - rewrite (split_dot_fraction _ [d] Hds).
    assert (Hall : ascii_digits ((c :: ds) ++ [d])).
    { apply Forall_app. split; [exact Hds | constructor; [exact Hd | constructor]]. }
    destruct (digits_value_ascii _ Hall 0%N) as [n Hn].
    cbn [app] in *. rewrite Hn. exists n. right. reflexivity.
Qed.

(** *** Rounding to one decimal *)

Lemma round_half_even_int q z : (q == inject_Z z)%Q -> round_half_even q = z.
Proof.
  intros Hq. unfold round_half_even.
  assert (Hf : Qfloor q = z) by (rewrite Hq; apply Qfloor_Z).
  rewrite Hf.
  assert (Hlt : (q - inject_Z z ?= 1 # 2)%Q = Lt).
  { apply Qlt_alt. rewrite Hq. unfold Qminus. rewrite Qplus_opp_r. reflexivity. }
  rewrite Hlt. reflexivity.
Qed.

Lemma py_round1_whole (n : N) : tenths (py_round1 (Qred (Z.of_N n # 1))).
Proof.
  exists (10 * n)%N. unfold py_round1.
  rewrite (round_half_even_int _ (Z.of_N (10 * n))); [reflexivity |].
  rewrite Qred_correct. unfold Qeq, inject_Z, Qmult. cbn [Qnum Qden]. lia.
Qed.

Lemma py_round1_tenths (n : N) : tenths (py_round1 (Qred (Z.of_N n # 10))).
Proof.
  exists n. unfold py_round1.
  rewrite (round_half_even_int _ (Z.of_N n)); [reflexivity |].
  rewrite Qred_correct. unfold Qeq, inject_Z, Qmult. cbn [Qnum Qden]. lia.
Qed.

Lemma py_round1_numeral w :
  numeral w -> exists q, py_float w = Some q /\ tenths (py_round1 q).
Proof.
  intros Hw. destruct (py_float_numeral w Hw) as [n [-> | ->]]; eexists; split;
    try reflexivity; [apply py_round1_whole | apply py_round1_tenths].
Qed.

(** Rounding a numeral to one decimal place gives the numeral back. *)
Lemma py_round1_fixed w :
  numeral w -> exists q, py_float w = Some q /\ py_round1 q = q /\ tenths q.
Proof.
  intros Hw. destruct (py_float_numeral w Hw) as [n [-> | ->]]; eexists;
    (split; [reflexivity |]).
  - assert (Hr : py_round1 (Qred (Z.of_N n # 1)) = Qred (Z.of_N n # 1)).
    { unfold py_round1.
      rewrite (round_half_even_int _ (Z.of_N (10 * n))).
      - apply Qred_complete. unfold Qeq. cbn [Qnum Qden]. lia.
      - rewrite Qred_correct. unfold Qeq, inject_Z, Qmult. cbn [Qnum Qden]. lia. }
    split; [exact Hr |]. rewrite <- Hr. apply py_round1_whole.
  - assert (Hr : py_round1 (Qred (Z.of_N n # 10)) = Qred (Z.of_N n # 10)).
    { unfold py_round1.
      rewrite (round_half_even_int _ (Z.of_N n)); [reflexivity |].
      rewrite Qred_correct. unfold Qeq, inject_Z, Qmult. cbn [Qnum Qden]. lia. }
    split; [exact Hr |]. rewrite <- Hr. apply py_round1_tenths.
Qed.

(** ** Ratings *)

Lemma firstn_split (w r s : pystr) :
  s = w ++ r -> firstn (length s - length r) s = w.
Proof. intros ->. apply firstn_app_exact. Qed.

Lemma re_match_at_number c t :
  is_ascii_digit c = true ->
  exists rest,
    re_match_at Parser.FIRST_FLOAT_RE (c :: t) = Some (rest, Some (number_at (c :: t))).
Proof.
  intros Hc.
  unfold re_match_at, Parser.FIRST_FLOAT_RE, Parser.NUMBER, Plus, Lit, number_at.
  cbn [re_match dropwhile takewhile]. rewrite Hc.
  pose proof (takewhile_dropwhile is_ascii_digit t) as Hsplit.
  destruct (dropwhile is_ascii_digit t) as [| x [| d r]] eqn:Hr.
  - eexists. apply star_k_longest. rewrite Hr. cbn beta iota.
    rewrite (firstn_split (c :: takewhile is_ascii_digit t) [] (c :: t));
      [reflexivity | rewrite <- Hsplit at 1; reflexivity].
  - eexists. apply star_k_longest. rewrite Hr. cbn beta iota.
    destruct (chr_dot =? x)%N;
      (rewrite (firstn_split (c :: takewhile is_ascii_digit t) [x] (c :: t));
       [reflexivity | rewrite <- Hsplit at 1; reflexivity]).
  - destruct ((chr_dot =? x)%N && is_ascii_digit d) eqn:Hdot.
    + apply andb_true_iff in Hdot. destruct Hdot as [Hx Hd].
      eexists. apply star_k_longest. rewrite Hr. cbn beta iota. rewrite Hx, Hd.
      rewrite (firstn_split ((c :: takewhile is_ascii_digit t) ++ [x; d]) r (c :: t));
        [reflexivity |].
      rewrite <- List.app_assoc. rewrite <- Hsplit at 1. reflexivity.
    + eexists. apply star_k_longest. rewrite Hr. cbn beta iota.
      apply andb_false_iff in Hdot.
      destruct Hdot as [Hx | Hd];
        [rewrite Hx | rewrite Hd; destruct (chr_dot =? x)%N];
        (rewrite (firstn_split (c :: takewhile is_ascii_digit t) (x :: d :: r) (c :: t));
         [reflexivity | rewrite <- Hsplit at 1; reflexivity]).
Qed.

Lemma re_match_at_number_none s :
  no_digit_first s -> re_match_at Parser.FIRST_FLOAT_RE s = None.
Proof.
  unfold re_match_at, Parser.FIRST_FLOAT_RE, Parser.NUMBER, Plus. cbn [re_match].
  destruct s as [| c t]; [reflexivity |]. cbn. intros ->. reflexivity.
Qed.

Lemma re_match_at_rating_none s :
  no_digit_first s -> re_match_at Parser.RATING_RE s = None.
Proof.
  unfold re_match_at, Parser.RATING_RE, Parser.NUMBER, Plus. cbn [re_match].
  destruct s as [| c t]; [reflexivity |]. cbn. intros ->. reflexivity.
Qed.

Lemma re_search_number s :
  option_map group1 (re_search Parser.FIRST_FLOAT_RE s) = first_number s.
Proof.
  unfold first_number. induction s as [| c t IH]; [reflexivity |].
  cbn [re_search dropwhile]. destruct (is_ascii_digit c) eqn:Hc; cbn [negb].
  - destruct (re_match_at_number c t Hc) as [rest ->]. reflexivity.
  - rewrite (re_match_at_number_none (c :: t) Hc). exact IH.
Qed.

Lemma re_search_no_digit r s :
  (forall s', no_digit_first s' -> re_match_at r s' = None) ->
  Forall (fun c => is_ascii_digit c = false) s ->
  re_search r s = None.
Proof.
  intros Hr. induction 1 as [| c t Hc _ IH]; cbn [re_search].
  - rewrite (Hr [] I). reflexivity.
  - rewrite (Hr (c :: t) Hc). exact IH.
Qed.

Lemma re_match_at_grp_sound r s x :
  groupless r = true ->
  re_match_at (Grp r) s = Some x ->
  exists w, s = w ++ fst x /\ matches r w /\ snd x = Some w.
Proof.
  intros Hg. unfold re_match_at. cbn [re_match]. intros H.
  destruct (re_match_sound _ _ _ _ _ H) as (w & s' & g' & -> & Hm & Hk & _).
  rewrite firstn_app_exact in Hk. injection Hk as <-. exists w. auto.
Qed.

(** What the primary pattern finds: the leftmost place where a numeral,
    [out of] and [5] follow one another, and the numeral as group 1. *)
Lemma rating_search_sound s m :
  re_search Parser.RATING_RE s = Some m ->
  exists pre tail post,
    s = pre ++ group1 m ++ tail ++ post /\
    matches Parser.NUMBER (group1 m) /\
    matches OUT_OF_5 tail /\
    (forall pre' w' post',
       s = pre' ++ w' ++ post' -> matches Parser.RATING_RE w' ->
       length pre <= length pre').
Proof.
  intros Hs.
  destruct (re_search_sound _ _ _ Hs) as (pre & s0 & x & -> & Hx & -> & Hmin).
  destruct (re_match_at_group_sound Parser.NUMBER OUT_OF_5 s0 x eq_refl eq_refl Hx)
    as (w1 & w2 & Hs0 & Hm1 & Hm2 & Hg).
  exists pre, w2, (fst x). unfold match_of. cbn [group1]. rewrite Hg.
  repeat split; try assumption; [rewrite Hs0 at 1; reflexivity |].
  intros pre' w' post' Heq Hm'.
  destruct (Nat.le_gt_cases (length pre) (length pre')) as [Hle | Hlt]; [exact Hle |].
  exfalso. pose proof (Hmin pre' (w' ++ post') Heq Hlt) as Hnone.
  revert Hnone. unfold re_match_at. apply re_match_complete; [exact Hm' | discriminate].
Qed.

Lemma first_float_search_sound s m :
  re_search Parser.FIRST_FLOAT_RE s = Some m -> matches Parser.NUMBER (group1 m).
Proof.
  intros Hs.
  destruct (re_search_sound _ _ _ Hs) as (pre & s0 & x & -> & Hx & -> & _).
  destruct (re_match_at_grp_sound Parser.NUMBER s0 x eq_refl Hx) as (w & _ & Hm & Hg).
  unfold match_of. cbn [group1]. rewrite Hg. exact Hm.
Qed.

Lemma parse_rating_tenths raw q : Parser._parse_rating raw = Some q -> tenths q.
Proof.
  unfold Parser._parse_rating. destruct raw as [[| c t] |]; try discriminate.
  cbn [truthy negb].
  destruct (re_search Parser.RATING_RE (c :: t)) as [m |] eqn:Hprim.
  - destruct (rating_search_sound _ _ Hprim) as (_ & _ & _ & _ & Hm & _).
    destruct (py_round1_numeral _ (matches_number _ Hm)) as (q' & -> & Hq).
    cbn. intros H. injection H as <-. exact Hq.
  - destruct (re_search Parser.FIRST_FLOAT_RE (c :: t)) as [m |] eqn:Hfall;
      [| discriminate].
    destruct (py_round1_numeral _ (matches_number _ (first_float_search_sound _ _ Hfall)))
      as (q' & -> & Hq).
    cbn. intros H. injection H as <-. exact Hq.
Qed.

Lemma re_search_occurs r s m : re_search r s = Some m -> occurs r s.
Proof.
  intros Hs. destruct (re_search_sound r s m Hs) as (pre & s0 & x & -> & Hx & _ & _).
  destruct (re_match_sound _ _ _ _ _ Hx) as (w & s' & g' & -> & Hm & _ & _).
  exists pre, w, s'. auto.
Qed.

(** What the code reads on each path, whatever the length of the numerals:
    the numeral of the leftmost primary match, or else the first numeral of
    the text, rounded. *)
Lemma parse_rating_paths s :
  Parser._parse_rating (Some s) =
    match re_search Parser.RATING_RE s with
    | Some m => option_map py_round1 (py_float (group1 m))
    | None =>
        match first_number s with
        | Some num => option_map py_round1 (py_float num)
        | None => None
        end
    end.
Proof.
  unfold Parser._parse_rating. destruct s as [| c t]; [reflexivity |].
  cbn [truthy negb]. rewrite <- re_search_number.
  destruct (re_search Parser.RATING_RE (c :: t)); [reflexivity |].
  destruct (re_search Parser.FIRST_FLOAT_RE (c :: t)); reflexivity.
Qed.

Lemma first_number_numeral s num : first_number s = Some num -> numeral num.
Proof.
  rewrite <- re_search_number.
  destruct (re_search Parser.FIRST_FLOAT_RE s) as [m |] eqn:Hs; [| discriminate].
  intros H. injection H as <-.
  exact (matches_number _ (first_float_search_sound _ _ Hs)).
Qed.

(** C5, as the code has it. On a text whose numerals have at most 15 digits:
    when the text holds the pattern [<numeral> out of 5], in any case of the
    letters, the rating is the numeral of the leftmost such place; when it
    does not, the rating is the first numeral of the text. A numeral is a run
    of digits with at most one decimal digit: further decimal digits are not
    read, so that rounding to one decimal place changes nothing. An absent,
    empty or digitless text gives no rating. *)
Theorem parse_rating_spec :
  (forall s, short_numerals s -> occurs Parser.RATING_RE s -> primary_rating s) /\
  (forall s, short_numerals s -> ~ occurs Parser.RATING_RE s -> fallback_rating s) /\
  (forall s q, short_numerals s -> Parser._parse_rating (Some s) = Some q ->
               tenths q) /\
  Parser._parse_rating None = None /\
  Parser._parse_rating (Some []) = None /\
  (forall s, Forall (fun c => is_ascii_digit c = false) s ->
             Parser._parse_rating (Some s) = None) /\
  Parser._parse_rating (Some (u "4.5 out of 5 stars")) = Some (Qred 4.5) /\
  (~ occurs Parser.RATING_RE (u "4 stars") /\
   Parser._parse_rating (Some (u "4 stars")) = Some (Qred 4)) /\
  Parser._parse_rating (Some (u "no rating")) = None.
Proof.
  split; [| split; [| split]].
  - intros s _ Hocc.
    destruct (re_search Parser.RATING_RE s) as [m |] eqn:Hs;
      [| exfalso; exact (re_search_complete _ _ Hocc Hs)].
    destruct (rating_search_sound s m Hs) as (pre & tail & post & Heq & Hnum & Htail & Hleft).
    destruct (py_round1_fixed _ (matches_number _ Hnum)) as (q & Hq & Hfix & _).
    exists pre, (group1 m), tail, post, q.
    repeat split; try assumption.
    rewrite parse_rating_paths, Hs, Hq. cbn [option_map]. rewrite Hfix. reflexivity.
  - intros s _ Hno. apply re_search_none_iff in Hno.
    unfold fallback_rating. rewrite parse_rating_paths, Hno.
    destruct (first_number s) as [num |] eqn:Hnum; [| reflexivity].
    destruct (py_round1_fixed _ (first_number_numeral _ _ Hnum)) as (q & -> & Hfix & _).
    cbn [option_map]. rewrite Hfix. reflexivity.
  - intros s q _. apply parse_rating_tenths.
  - split; [reflexivity |]. split; [reflexivity |]. split.
    + intros s Hs. unfold Parser._parse_rating.
      destruct s as [| c t]; [reflexivity |]. cbn [truthy negb].
      rewrite (re_search_no_digit _ _ re_match_at_rating_none Hs).
      rewrite (re_search_no_digit _ _ re_match_at_number_none Hs). reflexivity.
    + split; [vm_compute; reflexivity |].
      split; [| vm_compute; reflexivity].
      split; [apply re_search_none_iff | ]; vm_compute; reflexivity.
Qed.

(** The primary path on the text of a star icon. *)
Lemma parse_rating_spec_witness : primary_rating (u "4.5 out of 5 stars").
Proof.
  apply (proj1 parse_rating_spec).
  - unfold short_numerals. vm_compute. lia.
  - apply (re_search_occurs _ _
             {| group0 := u "4.5 out of 5"; group1 := u "4.5" |}).
    vm_compute. reflexivity.
Defined.

(** Where the claim fails as it is written: the fallback does not read the
    first floating-point number of the text and round it, it reads one
    decimal digit and drops the rest. "3.78 stars" and "3.75 stars" give
    3.7, where the number rounded to one decimal place is 3.8. *)
Lemma parse_rating_counterexample :
  Parser._parse_rating (Some (u "3.78 stars")) = Some (Qred 3.7) /\
  parse_rating_words (Some (u "3.78 stars")) = Some (Qred 3.8) /\
  Parser._parse_rating (Some (u "3.75 stars")) = Some (Qred 3.7) /\
  parse_rating_words (Some (u "3.75 stars")) = Some (Qred 3.8) /\
  Parser._parse_rating (Some (u "3.78 stars"))
    <> parse_rating_words (Some (u "3.78 stars")).
Proof.
  repeat split; try (vm_compute; reflexivity).
  vm_compute. discriminate.
Qed.

Lemma tenths_nonneg q : tenths q -> (0 <= q)%Q.
Proof.
  intros [n ->]. rewrite Qred_correct. unfold Qle. cbn [Qnum Qden]. lia.
Qed.

(** ** What a returned record is made of *)

Lemma extract_ok_inv self item r :
  Parser.extract self item = Ok r ->
  exists v nm pr og rt rv sp,
    Parser.find_url self item Parser.URL_SELECTORS = Ok (Some v) /\
    Parser.first_truthy Parser.fetch_name item Parser.NAME_SELECTORS (Some []) = Ok nm /\
    Parser.get_price item = Ok pr /\
    Parser.first_truthy text_content item Parser.ORIGINAL_PRICE_SELECTORS None = Ok og /\
    Parser.first_truthy Parser.fetch_rating item Parser.RATING_SELECTORS None = Ok rt /\
    Parser.first_truthy text_content item Parser.REVIEWS_SELECTORS None = Ok rv /\
    Parser.is_sponsored item = Ok sp /\
    r = {| name := if truthy nm then nm else None;
           price := pr;
           original_price := Parser._parse_price (Some (Parser._normalize_text og));
           rating := Parser._parse_rating (Some (Parser._normalize_text rt));
           reviews := Parser._parse_reviews (Some (Parser._normalize_text rv));
           url := Some v;
           item_type := if sp then Sponsored else Organic;
           timestamp := None |}.
Proof.
  unfold Parser.extract. intros H.
  destruct (Parser.find_url self item Parser.URL_SELECTORS) as [[v |] | e] eqn:Hv;
    cbn [mbind result_bind] in H; try discriminate.
  rewrite (find_url_truthy _ _ _ _ Hv) in H. cbn [negb] in H.
  destruct (Parser.first_truthy Parser.fetch_name item Parser.NAME_SELECTORS (Some []))
    as [nm | e] eqn:Hnm; cbn [mbind result_bind] in H; try discriminate.
  destruct (Parser.get_price item) as [pr | e] eqn:Hpr;
    cbn [mbind result_bind] in H; try discriminate.
  destruct (Parser.first_truthy text_content item Parser.ORIGINAL_PRICE_SELECTORS None)
    as [og | e] eqn:Hog; cbn [mbind result_bind] in H; try discriminate.
  destruct (Parser.first_truthy Parser.fetch_rating item Parser.RATING_SELECTORS None)
    as [rt | e] eqn:Hrt; cbn [mbind result_bind] in H; try discriminate.
  destruct (Parser.first_truthy text_content item Parser.REVIEWS_SELECTORS None)
    as [rv | e] eqn:Hrv; cbn [mbind result_bind] in H; try discriminate.
  destruct (Parser.is_sponsored item) as [sp | e] eqn:Hsp;
    cbn [mbind result_bind] in H; try discriminate.
  injection H as <-. exists v, nm, pr, og, rt, rv, sp. repeat split.
Qed.

Lemma extract_rating self item r :
  Parser.extract self item = Ok r ->
  exists raw, rating r = Parser._parse_rating raw.
Proof.
  unfold Parser.extract. intros H.
  repeat match type of H with
  | (mbind _ ?m = Ok _) => destruct m; cbn [mbind result_bind] in H; try discriminate
  | ((if ?b then _ else _) = Ok _) => destruct b; try discriminate
  end.
  injection H as <-. cbn [rating]. eauto.
Qed.

(** C8, as the code has it. On a text whose numerals have at most 15
    digits, a rating is absent or a number of tenths that is not negative: a
    decimal with a single decimal digit. Nothing bounds it by 5: the numeral
    is taken as it is written. *)
Theorem rating_is_tenths :
  (forall s q,
     short_numerals s -> Parser._parse_rating (Some s) = Some q ->
     (0 <= q)%Q /\ tenths q) /\
  (forall self item r q,
     Parser.extract self item = Ok r -> rating r = Some q ->
     (forall t, rating_text item = Some t -> short_numerals t) ->
     exists t, rating_text item = Some t /\
               Parser._parse_rating (Some t) = Some q /\
               (0 <= q)%Q /\ tenths q).
Proof.
  split.
  - intros s q _ H. pose proof (parse_rating_tenths _ q H) as Ht.
    split; [apply tenths_nonneg, Ht | exact Ht].
  - intros self item r q Hr Hq _.
    destruct (extract_ok_inv self item r Hr)
      as (v & nm & pr & og & rt & rv & sp & _ & _ & _ & _ & Hrt & _ & _ & ->).
    cbn [rating] in Hq. exists (Parser._normalize_text rt).
    unfold rating_text. rewrite Hrt. split; [reflexivity |].
    split; [exact Hq |].
    pose proof (parse_rating_tenths _ q Hq) as Ht.
    split; [apply tenths_nonneg, Ht | exact Ht].
Qed.

Lemma rating_is_tenths_witness : (0 <= Qred 4.5)%Q /\ tenths (Qred 4.5).
Proof.
  apply (proj1 rating_is_tenths (u "4.5 out of 5 stars")).
  - unfold short_numerals. vm_compute. lia.
  - vm_compute. reflexivity.
Defined.

(** Ratings above 5: on the primary path, on the fallback path, and in the
    record of an item. *)
Lemma rating_range_counterexample :
  Parser._parse_rating (Some (u "10 out of 5 stars")) = Some (Qred 10) /\
  Parser._parse_rating (Some (u "123 ratings")) = Some (Qred 123) /\
  option_map rating
    (match Parser.extract (Parser.__init__ (base_url default_config))
             (Sample.rated (u "10 out of 5 stars")) with
     | Ok r => Some r
     | Raise _ => None
     end) = Some (Some (Qred 10)) /\
  ~ (Qred 10 <= 5)%Q /\
  ~ (Qred 123 <= 5)%Q.
Proof.
  split; [vm_compute; reflexivity |].
  split; [vm_compute; reflexivity |].
  split; [vm_compute; reflexivity |].
  split; intros H; vm_compute in H; apply H; reflexivity.
Qed.

(** ** Worked examples *)

Example parse_price_plain : Parser._parse_price (Some (u "$19.99")) = Some (Qred 19.99).
Proof. vm_compute. reflexivity. Qed.

Example parse_price_two_dots : Parser._parse_price (Some (u "v1.2.3")) = None.
Proof. vm_compute. reflexivity. Qed.

Example parse_price_first_run_only : Parser._parse_price (Some (u "approx. $5")) = None.
Proof. vm_compute. reflexivity. Qed.

Example parse_rating_upper_case :
  Parser._parse_rating (Some (u "4.5 OUT OF 5 STARS")) = Some (Qred 4.5).
Proof. vm_compute. reflexivity. Qed.

Example parse_rating_primary_first :
  Parser._parse_rating (Some (u "1 of 2 reviews, 3 out of 5")) = Some (Qred 3).
Proof. vm_compute. reflexivity. Qed.

Example parse_rating_second_decimal_unread :
  Parser._parse_rating (Some (u "3.75 stars")) = Some (Qred 3.7) /\
  Parser._parse_rating (Some (u "4.75 out of 5")) = Some (Qred 75).
Proof. split; vm_compute; reflexivity. Qed.

Example parse_reviews_grouped :
  Parser._parse_reviews (Some (u "2,345 ratings")) = Some 2345%Z /\
  Parser._parse_reviews (Some []) = None.
Proof. split; vm_compute; reflexivity. Qed.

Example normalize_text_sample :
  Parser._normalize_text (Some (9 :: u "  Echo   Dot " ++ [160; 10]))%N = u "Echo Dot".
Proof. vm_compute. reflexivity. Qed.

Example extract_full_item :
  option_map (fun r => (name r, url r, item_type r))
    (match Parser.extract (Parser.__init__ (u "https://www.amazon.com/"))
             (Sample.product (u "/dp/B01") (u " Echo  Dot ")) with
     | Ok r => Some r
     | Raise _ => None
     end)
  = Some (Some (u "Echo Dot"), Some (u "https://www.amazon.com/dp/B01"), Organic).
Proof. vm_compute. reflexivity. Qed.

Example scrape_closed_page :
  Main.process_items Sample.repeated (Parser.__init__ (u "https://www.amazon.com"))
    ([], ∅)
    [Closed "Target page, context or browser has been closed";
     Sample.product (u "/dp/B01") (u "Echo Dot")]
  = ([], ∅).
Proof. vm_compute. reflexivity. Qed.

(** * Further properties of the code *)

(** ** Review counts *)

Lemma count_run_digits run :
  Forall (fun c => Parser.count_char c = true) run ->
  ascii_digits (remove_chr chr_comma run).
Proof.
  induction 1 as [| c run Hc _ IH]; cbn [remove_chr List.filter]; [constructor |].
  destruct (N.eqb_spec c chr_comma) as [-> | Hne]; cbn [negb]; [exact IH |].
  constructor; [| exact IH].
  unfold Parser.count_char in Hc. apply orb_true_iff in Hc.
  destruct Hc as [Hc | Hc]; [exact Hc |]. apply N.eqb_eq in Hc. contradiction.
Qed.

Lemma remove_chr_nil c run :
  remove_chr c run = [] <-> Forall (fun x => x = c) run.
Proof.
  unfold remove_chr. induction run as [| x run IH]; cbn [List.filter].
  - split; [constructor | reflexivity].
  - destruct (N.eqb_spec x c) as [-> | Hne]; cbn [negb].
    + rewrite IH. split; [constructor; [reflexivity | assumption] |].
      intros H. inversion H. assumption.
    + split; [discriminate |]. intros H. inversion H. contradiction.
Qed.

Lemma py_int_digits w :
  ascii_digits w ->
  if match w with [] => true | _ => int_max_str_digits <? length w end
  then py_int w = None
  else exists n : N, py_int w = Some (Z.of_N n).
Proof.
  intros Hw. destruct w as [| c t]; [reflexivity |]. unfold py_int.
  destruct (int_max_str_digits <? length (c :: t)); [reflexivity |].
  destruct (digits_value_ascii _ Hw 0%N) as [n ->]. exists n. reflexivity.
Qed.

Lemma first_run_chars p s run :
  first_run p s = Some run -> Forall (fun c => p c = true) run.
Proof.
  unfold first_run. destruct (dropwhile _ s) as [| c t]; [discriminate |].
  intros H. injection H as <-. exact (takewhile_all p (c :: t)).
Qed.

Lemma parse_reviews_refines raw :
  Parser._parse_reviews raw = parse_reviews_words raw.
Proof.
  unfold Parser._parse_reviews, parse_reviews_words.
  destruct raw as [[| c t] |]; [reflexivity | | reflexivity].
  cbn [truthy negb]. unfold Parser.REVIEWS_RE.
  rewrite <- re_search_grp_plus.
  destruct (re_search _ _); reflexivity.
Qed.

(** X1. [_parse_reviews] is the function of the words above. A review count
    is never negative, and there is none exactly when the text has no digit
    or comma, when its first run of them holds commas only, or when more
    digits are left of the run than [int] converts. *)
Theorem parse_reviews_spec :
  (forall raw, Parser._parse_reviews raw = parse_reviews_words raw) /\
  (forall raw n, Parser._parse_reviews raw = Some n -> (0 <= n)%Z) /\
  (forall s,
     Parser._parse_reviews (Some s) = None <->
     match first_run Parser.count_char s with
     | None => True
     | Some run =>
         Forall (fun c => c = chr_comma) run \/
         int_max_str_digits < length (remove_chr chr_comma run)
     end).
Proof.
  split; [exact parse_reviews_refines |]. split.
  - intros raw n. rewrite parse_reviews_refines. unfold parse_reviews_words.
    destruct raw as [s |]; [| discriminate].
    destruct (first_run Parser.count_char s) as [run |] eqn:Hrun; [| discriminate].
    pose proof (py_int_digits _ (count_run_digits _ (first_run_chars _ _ _ Hrun))) as H.
    destruct (match remove_chr chr_comma run with
              | [] => true
              | _ => int_max_str_digits <? length (remove_chr chr_comma run)
              end); [rewrite H; discriminate |].
    destruct H as [m ->]. intros Hn. injection Hn as <-. lia.
  - intros s. rewrite parse_reviews_refines. unfold parse_reviews_words.
    destruct (first_run Parser.count_char s) as [run |] eqn:Hrun; [| tauto].
    pose proof (py_int_digits _ (count_run_digits _ (first_run_chars _ _ _ Hrun))) as H.
    rewrite <- remove_chr_nil.
    destruct (remove_chr chr_comma run) as [| c t] eqn:Hrem.
    + split; [intros _; left; reflexivity | intros _; exact H].
    + destruct (Nat.ltb_spec int_max_str_digits (length (c :: t))) as [Hlong | Hshort].
      * split; [intros _; right; exact Hlong | intros _; exact H].
      * destruct H as [m ->]. split; [discriminate |].
        intros [Hnil | Hlong]; [discriminate | lia].
Qed.

(** ** Prices are never negative *)

Lemma py_float_nonneg s q : py_float s = Some q -> (0 <= q)%Q.
Proof.
  unfold py_float. destruct (split_dot s) as [ip rest].
  destruct (ip ++ _) as [| c t]; [discriminate |].
  destruct (digits_value 0 (c :: t)) as [n |]; [| discriminate].
  intros H. injection H as <-. rewrite Qred_correct.
  unfold Qle. cbn [Qnum Qden]. lia.
Qed.

Lemma parse_price_nonneg raw q : Parser._parse_price raw = Some q -> (0 <= q)%Q.
Proof.
  unfold Parser._parse_price. destruct (negb (truthy raw)); [discriminate |].
  destruct raw as [s |]; [| discriminate].
  destruct (re_search _ _); [apply py_float_nonneg | discriminate].
Qed.

Lemma compose_price_nonneg w f q :
  Parser.compose_price w f = Some q -> (0 <= q)%Q.
Proof.
  unfold Parser.compose_price.
  destruct (truthy w && truthy f).
  - destruct (py_float (default [] w ++ [chr_dot] ++ default [] f)) as [v |] eqn:Hv.
    + intros H. injection H as <-. exact (py_float_nonneg _ _ Hv).
    + destruct (truthy w && negb (truthy f)); [apply py_float_nonneg | discriminate].
  - destruct (truthy w && negb (truthy f)); [apply py_float_nonneg | discriminate].
Qed.

Lemma price_offscreen_inv item q :
  Parser.price_offscreen item = Ok (Some q) ->
  exists raw, Parser._parse_price raw = Some q.
Proof.
  unfold Parser.price_offscreen.
  destruct (locator_first item "span.aok-offscreen") as [| msg | t i a b]; run_driver;
    try discriminate.
  intros H. injection H as H. eauto.
Qed.

Lemma price_composed_inv item q :
  Parser.price_composed item = Ok (Some q) ->
  Parser.compose_price (Parser.whole_digits (whole_text item))
                       (Parser.fraction_digits (frac_text item)) = Some q.
Proof.
  unfold Parser.price_composed, whole_text, frac_text.
  destruct (locator_first item "span.a-price") as [| msg | t i a b]; run_driver;
    try discriminate.
  destruct (locator_first (Element t i a b) "span.a-price-whole")
    as [| msg1 | t1 i1 a1 b1]; run_driver; try discriminate;
  destruct (locator_first (Element t i a b) "span.a-price-fraction")
    as [| msg2 | t2 i2 a2 b2]; run_driver; try discriminate;
  match goal with
  | |- (if ?c then _ else _) = _ -> _ => destruct c; try discriminate
  end;
  intros H; injection H as H; exact H.
Qed.

Lemma price_fallback_inv item q :
  Parser.price_fallback item = Ok (Some q) ->
  exists text m,
    inner_text item = Ok text /\
    re_search Parser.DOLLAR_RE (Parser._normalize_text (Some text)) = Some m /\
    Parser._parse_price (Some (group1 m)) = Some q.
Proof.
  unfold Parser.price_fallback.
  destruct (inner_text item) as [text | e]; run_driver; [| discriminate].
  destruct (re_search _ _) as [m |] eqn:Hm; [| discriminate].
  intros H. injection H as H. eauto.
Qed.

Lemma get_price_inv item q :
  Parser.get_price item = Ok (Some q) ->
  Parser.price_offscreen item = Ok (Some q) \/
  Parser.price_composed item = Ok (Some q) \/
  Parser.price_fallback item = Ok (Some q).
Proof.
  unfold Parser.get_price.
  destruct (Parser.price_offscreen item) as [[v1 |] | e]; run_driver;
    [auto | | discriminate].
  destruct (Parser.price_composed item) as [[v2 |] | e]; run_driver;
    [auto | auto | discriminate].
Qed.

Lemma get_price_nonneg item q : Parser.get_price item = Ok (Some q) -> (0 <= q)%Q.
Proof.
  intros H. destruct (get_price_inv item q H) as [Ho | [Hc | Hf]].
  - destruct (price_offscreen_inv item q Ho) as [raw Hraw].
    exact (parse_price_nonneg raw q Hraw).
  - exact (compose_price_nonneg _ _ q (price_composed_inv item q Hc)).
  - destruct (price_fallback_inv item q Hf) as (text & m & _ & _ & Hq).
    exact (parse_price_nonneg _ q Hq).
Qed.

(** X2. No price is negative: not what [_parse_price] returns, not what
    [get_price] returns from any of its stages, and so neither the price nor
    the original price of an extracted record. *)
Theorem prices_never_negative :
  (forall raw q, Parser._parse_price raw = Some q -> (0 <= q)%Q) /\
  (forall item q, Parser.get_price item = Ok (Some q) -> (0 <= q)%Q) /\
  (forall self item r q,
     Parser.extract self item = Ok r ->
     price r = Some q \/ original_price r = Some q -> (0 <= q)%Q).
Proof.
  split; [exact parse_price_nonneg |]. split; [exact get_price_nonneg |].
  intros self item r q Hr Hq.
  destruct (extract_ok_inv self item r Hr)
    as (v & nm & pr & og & rt & rv & sp & _ & _ & Hpr & _ & _ & _ & _ & ->).
  cbn [price original_price] in Hq. destruct Hq as [-> | Hq].
  - exact (get_price_nonneg item q Hpr).
  - exact (parse_price_nonneg _ q Hq).
Qed.

Lemma prices_never_negative_witness : (0 <= Qred 29.99)%Q.
Proof.
  apply (proj1 (proj2 prices_never_negative)
           (Sample.priced (Some (u "29")) (Some (u "99")) (u "#1 Echo Dot"))).
  vm_compute. reflexivity.
Defined.

Lemma parse_reviews_spec_witness : (0 <= 2345)%Z.
Proof.
  apply (proj1 (proj2 parse_reviews_spec) (Some (u "2,345 ratings"))).
  vm_compute. reflexivity.
Defined.

(** A count of 4300 digits is read, one of 4301 digits is not. *)
Example parse_reviews_digit_limit :
  Parser._parse_reviews (Some (repeat 49%N 4300)) <> None /\
  Parser._parse_reviews (Some (repeat 49%N 4301)) = None.
Proof. split; [vm_compute; discriminate | vm_compute; reflexivity]. Qed.

(** ** The price read from the rendered text *)

Lemma re_match_at_dollar s :
  re_match_at Parser.DOLLAR_RE s =
    match s with
    | c :: t =>
        if (c =? chr_dollar)%N then
          match t with
          | d :: t' =>
              if amount_char d
              then Some (dropwhile amount_char t', Some (d :: takewhile amount_char t'))
              else None
          | [] => None
          end
        else None
    | [] => None
    end.
Proof.
  destruct s as [| c t]; [reflexivity |].
  rewrite (N.eqb_sym c chr_dollar).
  change (re_match_at Parser.DOLLAR_RE (c :: t))
    with (if (chr_dollar =? c)%N then re_match_at (Grp (Plus amount_char)) t else None).
  rewrite re_match_at_grp_plus. reflexivity.
Qed.

Lemma re_search_dollar s :
  option_map group1 (re_search Parser.DOLLAR_RE s) = dollar_amount s.
Proof.
  induction s as [| c t IH]; [reflexivity |].
  cbn [re_search dollar_amount]. rewrite re_match_at_dollar.
  destruct (c =? chr_dollar)%N; [| exact IH].
  destruct t as [| d t']; [exact IH |]. cbn [takewhile].
  destruct (amount_char d); [reflexivity | exact IH].
Qed.

Lemma dollar_amount_chars s run :
  dollar_amount s = Some run ->
  run <> [] /\ Forall (fun c => amount_char c = true) run.
Proof.
  induction s as [| c t IH]; cbn [dollar_amount]; [discriminate |].
  destruct (c =? chr_dollar)%N; [| exact IH].
  pose proof (takewhile_all amount_char t) as Hall.
  destruct (takewhile amount_char t) as [| d r]; [exact IH |].
  intros H. injection H as <-. split; [discriminate | exact Hall].
Qed.

Lemma dollar_amount_in s run : dollar_amount s = Some run -> In chr_dollar s.
Proof.
  induction s as [| c t IH]; cbn [dollar_amount]; [discriminate |].
  destruct (N.eqb_spec c chr_dollar) as [-> | Hne]; [intros _; left; reflexivity |].
  intros H. right. exact (IH H).
Qed.

Lemma is_ascii_digit_decimal c : is_ascii_digit c = true -> is_decimal c = true.
Proof. intros H. unfold is_decimal. rewrite (digit_value_ascii c H). reflexivity. Qed.

Lemma amount_char_price c : amount_char c = true -> Parser.price_char c = true.
Proof.
  unfold amount_char, Parser.price_char. intros H.
  apply orb_true_iff in H. destruct H as [H | H].
  - apply orb_true_iff in H. destruct H as [H | H].
    + rewrite (is_ascii_digit_decimal c H). reflexivity.
    + rewrite H. apply orb_true_iff. left. apply orb_true_r.
  - rewrite H. apply orb_true_r.
Qed.

Lemma amount_char_not_nbsp c : amount_char c = true -> (c =? chr_nbsp)%N = false.
Proof.
  unfold amount_char, is_ascii_digit, chr_comma, chr_dot, chr_nbsp. intros H.
  apply N.eqb_neq. intros ->. vm_compute in H. discriminate.
Qed.

Lemma replace_chr_amount run :
  Forall (fun c => amount_char c = true) run ->
  replace_chr chr_nbsp chr_space run = run.
Proof.
  unfold replace_chr. induction 1 as [| c run Hc _ IH]; cbn [List.map]; [reflexivity |].
  rewrite (amount_char_not_nbsp c Hc), IH. reflexivity.
Qed.

Lemma takewhile_id p w : Forall (fun c => p c = true) w -> takewhile p w = w.
Proof.
  induction 1 as [| c w Hc _ IH]; cbn [takewhile]; [reflexivity |].
  rewrite Hc, IH. reflexivity.
Qed.

Lemma first_run_id p w :
  w <> [] -> Forall (fun c => p c = true) w -> first_run p w = Some w.
Proof.
  intros Hne Hall. unfold first_run. destruct w as [| c t]; [contradiction |].
  inversion Hall as [| ? ? Hc Ht]; subst. cbn [dropwhile]. rewrite Hc. cbn [negb].
  rewrite (takewhile_id p (c :: t) Hall). reflexivity.
Qed.

Lemma parse_price_amount run :
  run <> [] -> Forall (fun c => amount_char c = true) run ->
  Parser._parse_price (Some run) = py_float (remove_chr chr_comma run).
Proof.
  intros Hne Hall. rewrite parse_price_refines. unfold parse_price_words.
  rewrite (replace_chr_amount run Hall).
  rewrite (first_run_id Parser.price_char run Hne); [reflexivity |].
  eapply Forall_impl; [exact Hall | exact amount_char_price].
Qed.

Lemma squeeze_in p repl b s c :
  In c (squeeze p repl b s) -> In c s \/ In c repl.
Proof.
  revert b. induction s as [| x t IH]; intros b; cbn [squeeze]; [tauto |].
  destruct (p x).
  - destruct b.
    + intros H. destruct (IH _ H); [left; right; assumption | right; assumption].
    + intros H. apply in_app_or in H. destruct H as [H | H]; [right; exact H |].
      destruct (IH _ H); [left; right; assumption | right; assumption].
  - intros [-> | H]; [left; left; reflexivity |].
    destruct (IH _ H); [left; right; assumption | right; assumption].
Qed.

Lemma dropwhile_in p s c : In c (dropwhile p s) -> In c s.
Proof.
  induction s as [| x t IH]; cbn [dropwhile]; [tauto |].
  destruct (p x); [intros H; right; exact (IH H) | tauto].
Qed.

Lemma strip_in s c : In c (strip s) -> In c s.
Proof.
  unfold strip, rstrip, lstrip. intros H.
  apply in_rev in H. apply dropwhile_in in H. apply in_rev in H.
  exact (dropwhile_in _ _ _ H).
Qed.

(** Normalising brings in no character but the space. *)
Lemma normalize_text_in s c :
  In c (Parser._normalize_text (Some s)) -> In c s \/ c = chr_space.
Proof.
  rewrite normalize_text_spec. intros H. apply strip_in in H.
  unfold collapse_whitespace in H. apply squeeze_in in H.
  destruct H as [H | [<- | []]]; [left; exact H | right; reflexivity].
Qed.

Lemma price_fallback_refines item text :
  inner_text item = Ok text ->
  Parser.price_fallback item =
    Ok (match dollar_amount (Parser._normalize_text (Some text)) with
        | Some run => py_float (remove_chr chr_comma run)
        | None => None
        end).
Proof.
  intros Ht. unfold Parser.price_fallback. rewrite Ht. cbn [mbind result_bind].
  rewrite <- re_search_dollar.
  destruct (re_search Parser.DOLLAR_RE _) as [m |] eqn:Hm; cbn [option_map];
    [| reflexivity].
  assert (Hrun : dollar_amount (Parser._normalize_text (Some text)) = Some (group1 m)).
  { rewrite <- re_search_dollar, Hm. reflexivity. }
  destruct (dollar_amount_chars _ _ Hrun) as [Hne Hall].
  f_equal. exact (parse_price_amount _ Hne Hall).
Qed.

(** X3. The last stage of [get_price] reads the normalised rendered text of the
    item: the amount is the run of digits, commas and dots directly after the
    first [$] that has one, read with its commas dropped. A rendered text
    without a [$] gives no price, and an item with neither price node nor
    [$] has no price at all. *)
Theorem price_fallback_spec (item : Locator) (text : pystr) :
  inner_text item = Ok text ->
  Parser.price_fallback item =
    Ok (match dollar_amount (Parser._normalize_text (Some text)) with
        | Some run => py_float (remove_chr chr_comma run)
        | None => None
        end) /\
  (~ In chr_dollar text ->
   Parser.price_fallback item = Ok None /\
   (locator_first item "span.aok-offscreen" = NoMatch ->
    locator_first item "span.a-price" = NoMatch ->
    Parser.get_price item = Ok None)).
Proof.
  intros Ht. split; [exact (price_fallback_refines item text Ht) |].
  intros Hno.
  assert (Hnone : dollar_amount (Parser._normalize_text (Some text)) = None).
  { destruct (dollar_amount _) as [run |] eqn:Hrun; [| reflexivity].
    exfalso. apply dollar_amount_in in Hrun.
    apply normalize_text_in in Hrun. destruct Hrun as [Hin | Heq];
      [exact (Hno Hin) | discriminate]. }
  split.
  - rewrite (price_fallback_refines item text Ht), Hnone. reflexivity.
  - intros Ha Hc. apply (get_price_absent item text Ha Hc Ht).
    rewrite <- re_search_dollar in Hnone.
    destruct (re_search Parser.DOLLAR_RE _); [discriminate | reflexivity].
Qed.

Lemma price_fallback_spec_witness :
  Parser.price_fallback (Sample.node (u "Was $ 5, now  $1,234.56 each")) =
    Ok (Some (Qred 1234.56)).
Proof.
  rewrite (proj1 (price_fallback_spec
             (Sample.node (u "Was $ 5, now  $1,234.56 each"))
             (u "Was $ 5, now  $1,234.56 each") eq_refl)).
  vm_compute. reflexivity.
Defined.

(** ** The value of a composed price *)

Lemma pow10_succ k : N.pos (pow10 (S k)) = (10 * N.pos (pow10 k))%N.
Proof. reflexivity. Qed.

Lemma digit_value_lt c d : digit_value c = Some d -> (d < 10)%N.
Proof.
  unfold digit_value.
  destruct (List.find _ decimal_runs) as [b |] eqn:Hb; [| discriminate].
  apply List.find_some in Hb. destruct Hb as [_ Hb].
  apply andb_true_iff in Hb. destruct Hb as [Hlo Hhi].
  apply N.leb_le in Hlo. apply N.ltb_lt in Hhi.
  intros H. injection H as <-. lia.
Qed.

Lemma digit_value_not_dot c d : digit_value c = Some d -> (c =? chr_dot)%N = false.
Proof.
  intros H. destruct (N.eqb_spec c chr_dot) as [-> | Hne]; [| reflexivity].
  vm_compute in H. discriminate.
Qed.

Lemma digits_value_acc s : forall acc,
  digits_value acc s =
    option_map (fun n => (acc * N.pos (pow10 (length s)) + n)%N) (digits_value 0 s).
Proof.
  induction s as [| c t IH]; intros acc; cbn [digits_value length].
  - cbn. f_equal. lia.
  - destruct (digit_value c) as [d |]; [| reflexivity].
    rewrite (IH (acc * 10 + d)%N), (IH (0 * 10 + d)%N).
    destruct (digits_value 0 t) as [n |]; [| reflexivity].
    cbn [option_map]. f_equal. rewrite pow10_succ. lia.
Qed.

Lemma digits_value_app w f : forall acc,
  digits_value acc (w ++ f) =
    match digits_value acc w with
    | Some a => digits_value a f
    | None => None
    end.
Proof.
  induction w as [| c t IH]; intros acc; cbn [digits_value app]; [reflexivity |].
  destruct (digit_value c); [apply IH | reflexivity].
Qed.

Lemma reads_lt w n : reads w n -> (n < N.pos (pow10 (length w)))%N.
Proof.
  unfold reads. revert n. induction w as [| c t IH]; intros n; cbn [digits_value length].
  - intros H. injection H as <-. reflexivity.
  - destruct (digit_value c) as [d |] eqn:Hd; [| discriminate].
    rewrite digits_value_acc.
    destruct (digits_value 0 t) as [m |]; [| discriminate].
    cbn [option_map]. intros H. injection H as <-.
    pose proof (IH m eq_refl) as Hm. pose proof (digit_value_lt c d Hd) as Hlt.
    rewrite pow10_succ. nia.
Qed.

Lemma reads_app w f W F :
  reads w W -> reads f F -> reads (w ++ f) (W * N.pos (pow10 (length f)) + F).
Proof.
  unfold reads. intros Hw Hf. rewrite digits_value_app, Hw, digits_value_acc, Hf.
  reflexivity.
Qed.

Lemma reads_split_dot w : forall acc n r,
  digits_value acc w = Some n ->
  split_dot w = (w, None) /\ split_dot (w ++ chr_dot :: r) = (w, Some r).
Proof.
  induction w as [| c t IH]; intros acc n r; cbn [digits_value split_dot app].
  - intros _. split; reflexivity.
  - destruct (digit_value c) as [d |] eqn:Hd; [| discriminate].
    rewrite (digit_value_not_dot c d Hd). intros H.
    destruct (IH _ _ r H) as [-> ->]. split; reflexivity.
Qed.

Lemma py_float_reads w W :
  w <> [] -> reads w W -> py_float w = Some (Qred (Z.of_N W # 1)).
Proof.
  intros Hne Hw. unfold py_float.
  rewrite (proj1 (reads_split_dot w 0%N W [] Hw)), List.app_nil_r.
  destruct w as [| c t]; [contradiction |].
  unfold reads in Hw. rewrite Hw. reflexivity.
Qed.

Lemma py_float_reads_dot w f W F :
  w <> [] -> reads w W -> reads f F ->
  py_float (w ++ [chr_dot] ++ f) =
    Some (Qred (Z.of_N (W * N.pos (pow10 (length f)) + F) # pow10 (length f))).
Proof.
  intros Hne Hw Hf. unfold py_float. cbn [app].
  rewrite (proj2 (reads_split_dot w 0%N W f Hw)).
  pose proof (reads_app w f W F Hw Hf) as Hwf. unfold reads in Hwf.
  destruct w as [| c t]; [contradiction |]. cbn [app] in *.
  rewrite Hwf. reflexivity.
Qed.

Lemma re_search_group0 r s m : re_search r s = Some m -> matches r (group0 m).
Proof.
  intros H. destruct (re_search_sound r s m H) as (pre & s0 & x & _ & Hx & -> & _).
  unfold re_match_at in Hx.
  destruct (re_match_sound _ _ _ _ _ Hx) as (w & s' & g' & -> & Hm & Hk & _).
  injection Hk as <-. cbn [match_of group0 fst]. rewrite firstn_app_exact. exact Hm.
Qed.

Lemma matches_plus p w :
  matches (Plus p) w -> w <> [] /\ Forall (fun c => p c = true) w.
Proof.
  unfold Plus. intros H.
  inversion H as [| ? ? w1 w2 H1 H2 | | | |]; subst.
  inversion H1 as [? c Hc | | | | |]; subst.
  inversion H2 as [| | | | ? ? Hw |]; subst.
  split; [discriminate | constructor; assumption].
Qed.

Lemma decimals_read w :
  Forall (fun c => is_decimal c = true) w -> forall acc, exists n, digits_value acc w = Some n.
Proof.
  induction 1 as [| c w Hc _ IH]; intros acc; cbn [digits_value]; [eauto |].
  unfold is_decimal in Hc. destruct (digit_value c); [apply IH | discriminate].
Qed.

Lemma whole_digits_reads whole w :
  Parser.whole_digits whole = Some w -> exists W, reads w W.
Proof.
  unfold Parser.whole_digits. destruct (truthy whole); [| discriminate].
  destruct (re_search Parser.WHOLE_RE _) as [m |] eqn:Hm; [| discriminate].
  intros H. injection H as <-.
  destruct (matches_plus _ _ (re_search_group0 _ _ _ Hm)) as [_ Hall].
  apply decimals_read. unfold remove_chr.
  induction Hall as [| c r Hc _ IH]; cbn [List.filter]; [constructor |].
  destruct (N.eqb_spec c chr_comma) as [-> | Hne]; cbn [negb]; [exact IH |].
  constructor; [| exact IH].
  apply orb_true_iff in Hc. destruct Hc as [Hc | Hc]; [exact Hc | discriminate].
Qed.

Lemma re_search_group0_length r s m :
  re_search r s = Some m -> length (group0 m) <= length s.
Proof.
  intros H. destruct (re_search_sound r s m H) as (pre & s0 & x & -> & _ & -> & _).
  cbn [match_of group0]. rewrite List.length_firstn, List.length_app. lia.
Qed.

Lemma whole_digits_length whole w :
  Parser.whole_digits whole = Some w -> length w <= length (default [] whole).
Proof.
  unfold Parser.whole_digits. destruct (truthy whole); [| discriminate].
  destruct (re_search Parser.WHOLE_RE _) as [m |] eqn:Hm; [| discriminate].
  intros H. injection H as <-.
  pose proof (re_search_group0_length _ _ _ Hm) as Hlen.
  pose proof (List.filter_length_le (fun c => negb (c =? chr_comma)%N) (group0 m)) as Hf.
  unfold remove_chr. lia.
Qed.

Lemma fraction_digits_reads frac f :
  Parser.fraction_digits frac = Some f ->
  (exists F, reads f F) /\ 1 <= length f <= 2.
Proof.
  unfold Parser.fraction_digits. destruct (truthy frac); [| discriminate].
  destruct (re_search Parser.FRACTION_RE _) as [m |] eqn:Hm; [| discriminate].
  intros H. injection H as <-.
  pose proof (re_search_group0 _ _ _ Hm) as Hw. unfold Parser.FRACTION_RE in Hw.
  inversion Hw as [| ? ? w1 w2 H1 H2 | | | |]; subst.
  inversion H1 as [? c Hc | | | | |]; subst.
  inversion H2 as [| | ? | ? ? Hopt | |]; subst.
  - split; [| cbn; lia]. apply decimals_read. repeat constructor. exact Hc.
  - inversion Hopt as [? d Hd | | | | |]; subst.
    split; [| cbn; lia]. apply decimals_read. repeat constructor; assumption.
Qed.

Lemma fraction_value (W F : N) (p : positive) :
  (F < N.pos p)%N ->
  let q := Qred (Z.of_N (W * N.pos p + F) # p) in
  (q == inject_Z (Z.of_N W) + (Z.of_N F # p))%Q /\
  (inject_Z (Z.of_N W) <= q)%Q /\ (q < inject_Z (Z.of_N W) + 1)%Q.
Proof.
  intros HF q. unfold q. rewrite Qred_correct.
  unfold Qeq, Qle, Qlt, Qplus, inject_Z. cbn [Qnum Qden].
  rewrite N2Z.inj_add, N2Z.inj_mul. cbn [Z.of_N].
  assert (HF' : (Z.of_N F < Z.pos p)%Z) by lia.
  pose proof (N2Z.is_nonneg F) as HF0. pose proof (N2Z.is_nonneg W) as HW0.
  rewrite !Pos2Z.inj_mul. repeat split; nia.
Qed.

(** X4. A price composed from the price node, when the text of the whole
    part has at most 13 characters (so that the numeral has at most 15
    digits and its float is the one that the decimal denotes): the price is
    at least the number that the whole part reads, commas dropped, and less
    than the next whole number; it is that number when the fraction node
    gives no digits, and otherwise that number plus the one or two fraction
    digits read as a decimal fraction. *)
Theorem composed_price_value (item : Locator) (q : Q) :
  length (default [] (whole_text item)) <= 13 ->
  Parser.price_composed item = Ok (Some q) ->
  exists w W,
    Parser.whole_digits (whole_text item) = Some w /\ w <> [] /\ reads w W /\
    length w <= 13 /\
    (inject_Z (Z.of_N W) <= q)%Q /\ (q < inject_Z (Z.of_N W) + 1)%Q /\
    match Parser.fraction_digits (frac_text item) with
    | None => (q == inject_Z (Z.of_N W))%Q
    | Some f =>
        exists F, reads f F /\ 1 <= length f <= 2 /\
                  (q == inject_Z (Z.of_N W) + (Z.of_N F # pow10 (length f)))%Q
    end.
Proof.
  intros Hshort H. apply price_composed_inv in H.
  pose proof (compose_price_needs_whole _ _ _ H) as Htw.
  destruct (Parser.whole_digits (whole_text item)) as [w |] eqn:Hw; [| discriminate].
  destruct (whole_digits_reads _ _ Hw) as [W HW].
  assert (Hne : w <> []) by (destruct w; [discriminate | discriminate]).
  assert (Hlen : length w <= 13).
  { pose proof (whole_digits_length _ _ Hw). lia. }
  exists w, W. split; [reflexivity |]. split; [exact Hne |]. split; [exact HW |].
  split; [exact Hlen |].
  unfold Parser.compose_price in H. rewrite Htw in H.
  cbn [andb default from_option id] in H.
  destruct (Parser.fraction_digits (frac_text item)) as [f |] eqn:Hf.
  - destruct (fraction_digits_reads _ _ Hf) as [[F HF] Hlenf].
    assert (Htf : truthy (Some f) = true) by (destruct f; [cbn in Hlenf; lia | reflexivity]).
    rewrite Htf in H. cbn [default from_option id] in H.
    rewrite (py_float_reads_dot w f W F Hne HW HF) in H. injection H as <-.
    destruct (fraction_value W F (pow10 (length f)) (reads_lt f F HF)) as (He & Hlo & Hhi).
    repeat split; try assumption. exists F. repeat split; try assumption; lia.
  - cbn [truthy negb] in H. rewrite (py_float_reads w W Hne HW) in H.
    injection H as <-. rewrite Qred_correct.
    unfold Qeq, Qle, Qlt, Qplus, inject_Z. cbn [Qnum Qden]. repeat split; lia.
Qed.

Lemma composed_price_value_witness :
  (inject_Z 1299 <= Qred 1299.99)%Q /\ (Qred 1299.99 < inject_Z 1299 + 1)%Q.
Proof.
  assert (Hshort : length (default []
            (whole_text (Sample.priced (Some (u "1,299")) (Some (u "99"))
                           (u "#1 Echo Dot")))) <= 13)
    by (vm_compute; lia).
  destruct (composed_price_value
              (Sample.priced (Some (u "1,299")) (Some (u "99")) (u "#1 Echo Dot"))
              (Qred 1299.99) Hshort eq_refl)
    as (w & W & Hw & _ & HW & _ & Hlo & Hhi & _).
  vm_compute in Hw. injection Hw as <-.
  vm_compute in HW. injection HW as <-.
  split; [exact Hlo | exact Hhi].
Defined.

(** ** The URL of a record *)

Lemma find_url_first self item selectors v :
  Parser.find_url self item selectors = Ok (Some v) ->
  exists pre sel post href,
    selectors = pre ++ sel :: post /\
    Forall (fun s => yields_href item s = false) pre /\
    href_of item sel = Some href /\ href <> [] /\
    v = resolve self href.
Proof.
  induction selectors as [| sel0 rest IH]; cbn [Parser.find_url]; [discriminate |].
  assert (Hskip : yields_href item sel0 = false ->
                  Parser.find_url self item rest = Ok (Some v) ->
                  exists pre sel post href,
                    sel0 :: rest = pre ++ sel :: post /\
                    Forall (fun s => yields_href item s = false) pre /\
                    href_of item sel = Some href /\ href <> [] /\
                    v = resolve self href).
  { intros Hn H. destruct (IH H) as (pre & sel & post & href & -> & Hpre & Hrest).
    exists (sel0 :: pre), sel, post, href. split; [reflexivity |].
    split; [constructor; assumption | exact Hrest]. }
  unfold yields_href in Hskip.
  destruct (locator_first item sel0) as [| msg | text inner attrs below] eqn:Hloc;
    run_driver; [exact (Hskip eq_refl) | discriminate |].
  destruct (assoc "href" attrs) as [[| c h] |] eqn:Hhref;
    [exact (Hskip eq_refl) | | exact (Hskip eq_refl)].
  intros H. exists [], sel0, rest, (c :: h). split; [reflexivity |].
  split; [constructor |]. unfold href_of. rewrite Hloc, Hhref.
  split; [reflexivity |]. split; [discriminate |]. unfold resolve.
  destruct (startswith (u "http") (c :: h)); injection H as <-; reflexivity.
Qed.

Lemma dropwhile_head p s c t : dropwhile p s = c :: t -> p c = false.
Proof.
  induction s as [| x r IH]; cbn [dropwhile]; [discriminate |].
  destruct (p x) eqn:Hx; [exact IH |]. intros H. injection H as <- _. exact Hx.
Qed.

Lemma rstrip_slash_spec b :
  (exists w, b = rstrip_slash b ++ w /\ Forall (fun c => c = chr_slash) w) /\
  (forall s, rstrip_slash b <> s ++ [chr_slash]).
Proof.
  unfold rstrip_slash. split.
  - exists (rev (takewhile (N.eqb chr_slash) (rev b))). split.
    + rewrite <- List.rev_app_distr, takewhile_dropwhile, List.rev_involutive.
      reflexivity.
    + apply List.Forall_rev.
      eapply Forall_impl; [apply takewhile_all |].
      intros c Hc. apply N.eqb_eq in Hc. symmetry. exact Hc.
  - intros s H. apply (f_equal (@rev N)) in H.
    rewrite List.rev_involutive, List.rev_app_distr in H. cbn [rev app] in H.
    apply dropwhile_head in H. rewrite N.eqb_refl in H. discriminate.
Qed.

(** X5. The URL of a record is the first non-empty [href] in the order of the
    URL selectors, kept as it is when it starts with [http] and otherwise put
    after the base URL; the base URL of a parser is the configured one
    without its trailing slashes. *)
Theorem extract_url_resolved (base : pystr) :
  (exists w, base = Parser.base_url (Parser.__init__ base) ++ w /\
             Forall (fun c => c = chr_slash) w) /\
  (forall s, Parser.base_url (Parser.__init__ base) <> s ++ [chr_slash]) /\
  (forall self item r,
     Parser.extract self item = Ok r ->
     exists pre sel post href,
       Parser.URL_SELECTORS = pre ++ sel :: post /\
       Forall (fun s => yields_href item s = false) pre /\
       href_of item sel = Some href /\ href <> [] /\
       url r = Some (if startswith (u "http") href then href
                     else Parser.base_url self ++ href)).
Proof.
  split; [exact (proj1 (rstrip_slash_spec base)) |].
  split; [exact (proj2 (rstrip_slash_spec base)) |].
  intros self item r Hr.
  destruct (extract_ok_inv self item r Hr)
    as (v & nm & pr & og & rt & rv & sp & Hv & _ & _ & _ & _ & _ & _ & ->).
  destruct (find_url_first self item _ v Hv) as (pre & sel & post & href & H1 & H2 & H3 & H4 & ->).
  exists pre, sel, post, href. repeat split; assumption.
Qed.

Lemma extract_url_resolved_witness :
  exists pre sel post href,
    Parser.URL_SELECTORS = pre ++ sel :: post /\
    Forall (fun s => yields_href (Sample.product (u "/dp/B01") (u "Echo Dot")) s = false) pre /\
    href_of (Sample.product (u "/dp/B01") (u "Echo Dot")) sel = Some href /\ href <> [] /\
    Some (u "https://www.amazon.com/dp/B01") =
      Some (if startswith (u "http") href then href
            else Parser.base_url (Parser.__init__ (u "https://www.amazon.com//")) ++ href).
Proof.
  refine (proj2 (proj2 (extract_url_resolved [])) (Parser.__init__ (u "https://www.amazon.com//"))
           (Sample.product (u "/dp/B01") (u "Echo Dot"))
           {| name := Some (u "Echo Dot"); price := None; original_price := None;
              rating := None; reviews := None;
              url := Some (u "https://www.amazon.com/dp/B01");
              item_type := Organic; timestamp := None |} _).
  vm_compute. reflexivity.
Defined.

(** ** The other fields of a record *)

Lemma first_truthy_first fetch item selectors : forall cur v,
  truthy cur = false ->
  Parser.first_truthy fetch item selectors cur = Ok v ->
  truthy v = true ->
  first_hit fetch item selectors v.
Proof.
  unfold first_hit.
  induction selectors as [| sel0 rest IH]; intros cur v Hcur; cbn [Parser.first_truthy].
  - intros H Hv. injection H as <-. rewrite Hcur in Hv. discriminate.
  - destruct (locator_first item sel0) as [| msg | text inner attrs below] eqn:Hloc;
      run_driver; [| discriminate |].
    + intros H Hv. destruct (IH cur v Hcur H Hv) as (pre & sel & post & -> & Hrest).
      exists (sel0 :: pre), sel, post. split; [reflexivity |].
      destruct Hrest as (Hp & Hf & Ht & Hpre). repeat split; try assumption.
      constructor; [| exact Hpre]. rewrite Hloc. discriminate.
    + destruct (fetch (Element text inner attrs below)) as [v0 | e] eqn:Hf0;
        run_driver; [| discriminate].
      destruct (truthy v0) eqn:Hv0.
      * intros H _. injection H as <-. exists [], sel0, rest.
        rewrite Hloc. repeat split; [exact Hf0 | exact Hv0 | constructor].
      * intros H Hv. destruct (IH v0 v Hv0 H Hv) as (pre & sel & post & -> & Hrest).
        exists (sel0 :: pre), sel, post. split; [reflexivity |].
        destruct Hrest as (Hp & Hf & Ht & Hpre). repeat split; try assumption.
        constructor; [| exact Hpre]. rewrite Hloc. intros _. eauto.
Qed.

Lemma first_hit_unique fetch item selectors v : forall cur v0,
  first_hit fetch item selectors v ->
  Parser.first_truthy fetch item selectors cur = Ok v0 ->
  v0 = v.
Proof.
  intros cur v0 (pre & sel & post & -> & Hp & Hf & Ht & Hpre). revert cur.
  induction Hpre as [| s pre Hs _ IH]; intros cur; cbn [app Parser.first_truthy].
  - destruct (locator_first item sel); try discriminate Hp.
    run_driver. rewrite Hf. run_driver. rewrite Ht. intros H. injection H as <-.
    reflexivity.
  - destruct (locator_first item s) as [| msg | text inner attrs below];
      run_driver; [apply IH | discriminate |].
    destruct (Hs eq_refl) as (v' & -> & Hv'). run_driver. rewrite Hv'. apply IH.
Qed.

Lemma first_truthy_no_hit fetch item selectors cur v :
  truthy cur = false ->
  Parser.first_truthy fetch item selectors cur = Ok v ->
  (forall w, ~ first_hit fetch item selectors w) ->
  truthy v = false.
Proof.
  intros Hcur H Hno. destruct (truthy v) eqn:Hv; [| reflexivity].
  exfalso. exact (Hno v (first_truthy_first _ _ _ _ _ Hcur H Hv)).
Qed.

Lemma normalize_text_fixed raw :
  Parser._normalize_text (Some (Parser._normalize_text raw)) = Parser._normalize_text raw.
Proof.
  destruct raw as [s |]; [| reflexivity].
  rewrite !normalize_text_spec.
  assert (Ht : tidy false (strip (collapse_whitespace s)) = true)
    by apply (tidy_strip _ false), squeeze_tidy.
  unfold collapse_whitespace at 1. rewrite (tidy_squeeze _ false Ht).
  apply strip_idem.
Qed.

Lemma normalize_text_tidy raw : tidy false (Parser._normalize_text raw) = true.
Proof.
  destruct raw as [s |]; [| reflexivity].
  rewrite normalize_text_spec. apply (tidy_strip _ false), squeeze_tidy.
Qed.

Lemma no_lead_rstrip s : no_lead s -> no_lead (rstrip s).
Proof.
  intros H. destruct (rstrip_prefix s) as [w Hw]. rewrite Hw in H.
  exact (no_lead_prefix _ _ H).
Qed.

Lemma normalize_text_ends raw :
  no_lead (Parser._normalize_text raw) /\ no_lead (rev (Parser._normalize_text raw)).
Proof.
  destruct raw as [s |]; [| split; exact I].
  rewrite normalize_text_spec. unfold strip. split.
  - apply no_lead_rstrip, no_lead_dropwhile.
  - unfold rstrip. rewrite List.rev_involutive. apply no_lead_dropwhile.
Qed.

Lemma fetch_name_some l v : Parser.fetch_name l = Ok v ->
  exists raw, v = Some (Parser._normalize_text raw).
Proof.
  unfold Parser.fetch_name. destruct (text_content l) as [raw | e]; run_driver;
    [| discriminate].
  intros H. injection H as <-. eauto.
Qed.

Lemma normalize_text_falsy raw : truthy raw = false -> Parser._normalize_text raw = [].
Proof. unfold Parser._normalize_text. intros ->. reflexivity. Qed.

(** X6. The name of a record is what the first name selector with a non-empty
    normalised text gives, and absent when there is none. A name is never
    empty, has no whitespace at its ends and none inside but single spaces,
    and normalising it again changes nothing. *)
Theorem extract_name_spec (self : Parser.t) (item : Locator) (r : record) :
  Parser.extract self item = Ok r ->
  (forall v, first_hit Parser.fetch_name item Parser.NAME_SELECTORS v -> name r = v) /\
  ((forall v, ~ first_hit Parser.fetch_name item Parser.NAME_SELECTORS v) ->
   name r = None) /\
  (forall n, name r = Some n ->
     n <> [] /\ clean n /\ Parser._normalize_text (Some n) = n).
Proof.
  intros Hr.
  destruct (extract_ok_inv self item r Hr)
    as (v & nm & pr & og & rt & rv & sp & _ & Hnm & _ & _ & _ & _ & _ & ->).
  cbn [name]. split; [| split].
  - intros w Hw. rewrite (first_hit_unique _ _ _ _ _ _ Hw Hnm).
    destruct Hw as (_ & _ & _ & _ & _ & _ & -> & _). reflexivity.
  - intros Hno. rewrite (first_truthy_no_hit _ _ _ (Some []) _ eq_refl Hnm Hno). reflexivity.
  - intros n Hn. destruct (truthy nm) eqn:Ht; [| discriminate]. subst nm.
    split; [destruct n; [discriminate | discriminate] |].
    destruct (first_truthy_first _ _ _ (Some []) _ eq_refl Hnm Ht)
      as (_ & sel & _ & _ & _ & Hf & _).
    destruct (fetch_name_some _ _ Hf) as [raw Hraw]. injection Hraw as ->.
    split; [| apply normalize_text_fixed].
    split; [apply normalize_text_tidy | apply normalize_text_ends].
Qed.

Lemma extract_name_spec_witness :
  name {| name := Some (u "Echo Dot"); price := None; original_price := None;
          rating := None; reviews := None;
          url := Some (u "https://www.amazon.com/dp/B01");
          item_type := Organic; timestamp := None |} = Some (u "Echo Dot").
Proof.
  apply (proj1 (extract_name_spec (Parser.__init__ (u "https://www.amazon.com"))
                  (Sample.product (u "/dp/B01") (u "  Echo   Dot ")) _ eq_refl)).
  exists [], "div._cDEzb_p13n-sc-css-line-clamp-3_g3dy1"%string,
    (List.tl Parser.NAME_SELECTORS).
  repeat split. constructor.
Defined.

Lemma is_sponsored_spec item sp :
  Parser.is_sponsored item = Ok sp ->
  sp = present (locator_first item "text=Sponsored")
       || present (locator_first item "[aria-label='Sponsored']").
Proof.
  unfold Parser.is_sponsored.
  destruct (locator_first item "text=Sponsored"); run_driver; try discriminate.
  - destruct (locator_first item "[aria-label='Sponsored']"); run_driver;
      try discriminate; intros H; injection H as <-; reflexivity.
  - intros H; injection H as <-; reflexivity.
Qed.

(** X7. The original price, the rating and the review count of a record are
    read from the first selector of their lists whose node gives a non-empty
    text (for the rating: a non-empty [aria-label], or else a non-empty
    text), and are absent when no selector does. The record is marked
    sponsored exactly when one of the two sponsored locators is on the
    page. *)
Theorem extract_fields_spec (self : Parser.t) (item : Locator) (r : record) :
  Parser.extract self item = Ok r ->
  ((forall raw, first_hit text_content item Parser.ORIGINAL_PRICE_SELECTORS raw ->
      original_price r = Parser._parse_price (Some (Parser._normalize_text raw))) /\
   ((forall raw, ~ first_hit text_content item Parser.ORIGINAL_PRICE_SELECTORS raw) ->
      original_price r = None)) /\
  ((forall raw, first_hit Parser.fetch_rating item Parser.RATING_SELECTORS raw ->
      rating r = Parser._parse_rating (Some (Parser._normalize_text raw))) /\
   ((forall raw, ~ first_hit Parser.fetch_rating item Parser.RATING_SELECTORS raw) ->
      rating r = None)) /\
  ((forall raw, first_hit text_content item Parser.REVIEWS_SELECTORS raw ->
      reviews r = Parser._parse_reviews (Some (Parser._normalize_text raw))) /\
   ((forall raw, ~ first_hit text_content item Parser.REVIEWS_SELECTORS raw) ->
      reviews r = None)) /\
  (item_type r = Sponsored <->
   present (locator_first item "text=Sponsored") = true \/
   present (locator_first item "[aria-label='Sponsored']") = true).
Proof.
  intros Hr.
  destruct (extract_ok_inv self item r Hr)
    as (v & nm & pr & og & rt & rv & sp & _ & _ & _ & Hog & Hrt & Hrv & Hsp & ->).
  cbn [original_price rating reviews item_type].
  split; [| split; [| split]].
  - split.
    + intros raw Hraw. rewrite (first_hit_unique _ _ _ _ _ _ Hraw Hog). reflexivity.
    + intros Hno.
      rewrite (normalize_text_falsy _ (first_truthy_no_hit _ _ _ None _ eq_refl Hog Hno)).
      reflexivity.
  - split.
    + intros raw Hraw. rewrite (first_hit_unique _ _ _ _ _ _ Hraw Hrt). reflexivity.
    + intros Hno.
      rewrite (normalize_text_falsy _ (first_truthy_no_hit _ _ _ None _ eq_refl Hrt Hno)).
      reflexivity.
  - split.
    + intros raw Hraw. rewrite (first_hit_unique _ _ _ _ _ _ Hraw Hrv). reflexivity.
    + intros Hno.
      rewrite (normalize_text_falsy _ (first_truthy_no_hit _ _ _ None _ eq_refl Hrv Hno)).
      reflexivity.
  - rewrite (is_sponsored_spec item sp Hsp).
    destruct (present (locator_first item "text=Sponsored"));
      destruct (present (locator_first item "[aria-label='Sponsored']"));
      cbn [orb]; split; try reflexivity; try discriminate; auto;
      intros [H | H]; discriminate.
Qed.

Lemma extract_fields_spec_witness :
  rating {| name := Some (u "Echo Dot"); price := None; original_price := None;
            rating := Some (Qred 4.5); reviews := None;
            url := Some (u "https://www.amazon.com/dp/B01");
            item_type := Organic; timestamp := None |} =
  Parser._parse_rating (Some (Parser._normalize_text (Some (u "4.5 out of 5 stars")))).
Proof.
  apply (proj1 (proj1 (proj2 (extract_fields_spec
           (Parser.__init__ (u "https://www.amazon.com"))
           (Sample.rated (u "4.5 out of 5 stars")) _ eq_refl)))).
  exists (firstn 2 Parser.RATING_SELECTORS), "i.a-icon-star-small span.a-icon-alt"%string,
    (skipn 3 Parser.RATING_SELECTORS).
  repeat split. repeat constructor; discriminate.
Defined.

(** ** How the scroll loop is left *)

Lemma steady_step page i y h ih :
  steady page i ->
  BrowserManager.wheel page (S i) = true ->
  BrowserManager.scrollY page (S i) = Some y ->
  BrowserManager.scrollHeight page (S i) = Some h ->
  BrowserManager.innerHeight page (S i) = Some ih ->
  (y + ih + 5 < h)%N ->
  steady page (S i).
Proof.
  intros Hs Hw Hy Hh Hih Hb j Hj.
  destruct (Nat.eq_dec j (S i)) as [-> | Hne]; [| apply Hs; lia].
  split; [exact Hw |]. exists y, h, ih. auto.
Qed.

Lemma scroll_inv_step page i last_y stable y :
  scroll_inv page i last_y stable ->
  BrowserManager.scrollY page (S i) = Some y ->
  scroll_inv page (S i)
    (if (Z.of_N y =? last_y)%Z then last_y else Z.of_N y)
    (if (Z.of_N y =? last_y)%Z then S stable else 0).
Proof.
  intros Hinv Hy. right.
  destruct (Z.eqb_spec (Z.of_N y) last_y) as [Heq | Hne].
  - destruct Hinv as [(-> & -> & ->) | (Hlt & y0 & -> & Hrun)]; [lia |].
    apply N2Z.inj in Heq. subst y0.
    split; [lia |]. exists y. split; [reflexivity |].
    intros j Hj. destruct (Nat.eq_dec j (S i)) as [-> | Hn]; [exact Hy |].
    apply Hrun. lia.
  - split; [lia |]. exists y. split; [reflexivity |].
    intros j Hj. replace j with (S i) by lia. exact Hy.
Qed.

Lemma scroll_loop_sound page : forall fuel i last_y stable n why,
  scroll_inv page i last_y stable ->
  steady page i ->
  BrowserManager.scroll_loop page fuel i last_y stable = (n, why) ->
  i <= n <= i + fuel /\ (0 < fuel -> i < n) /\ steady page (n - 1) /\
  match why with
  | BrowserManager.Exhausted => n = i + fuel /\ steady page n
  | _ => left_by page n why
  end.
Proof.
  induction fuel as [| fuel IH]; intros i last_y stable n why Hinv Hst;
    cbn [BrowserManager.scroll_loop].
  - intros H. injection H as <- <-.
    split; [lia |]. split; [lia |].
    split; [intros j Hj; apply Hst; lia |]. split; [lia | exact Hst].
  - assert (Hpred : steady page (S i - 1))
      by (intros j Hj; apply Hst; lia).
    destruct (BrowserManager.wheel page (S i)) eqn:Hw; cbn [negb].
    2:{ intros H. injection H as <- <-.
        split; [lia |]. split; [lia |]. split; [exact Hpred | exact Hw]. }
    destruct (BrowserManager.scrollY page (S i)) as [y |] eqn:Hy.
    2:{ intros H. injection H as <- <-.
        split; [lia |]. split; [lia |]. split; [exact Hpred |].
        split; [exact Hw | auto]. }
    destruct (BrowserManager.scrollHeight page (S i)) as [h |] eqn:Hh.
    2:{ intros H. injection H as <- <-.
        split; [lia |]. split; [lia |]. split; [exact Hpred |].
        split; [exact Hw | auto]. }
    destruct (BrowserManager.innerHeight page (S i)) as [ih |] eqn:Hih.
    2:{ intros H. injection H as <- <-.
        split; [lia |]. split; [lia |]. split; [exact Hpred |].
        split; [exact Hw | auto]. }
    destruct (N.leb_spec h (y + ih + 5)) as [Hb | Hb].
    { intros H. injection H as <- <-.
      split; [lia |]. split; [lia |]. split; [exact Hpred |].
      split; [exact Hw |]. exists y, h, ih. auto. }
    pose proof (steady_step page i y h ih Hst Hw Hy Hh Hih Hb) as Hst'.
    pose proof (scroll_inv_step page i last_y stable y Hinv Hy) as Hinv'.
    destruct (Nat.leb_spec 3 (if (Z.of_N y =? last_y)%Z then S stable else 0))
      as [H3 | H3].
    + intros H. injection H as <- <-.
      destruct Hinv' as [(Hi & _) | (Hlt & y0 & _ & Hrun)]; [discriminate |].
      split; [lia |]. split; [lia |]. split; [exact Hpred |].
      split; [lia |]. split; [exact Hst' |].
      exists y0. intros j Hj. apply Hrun. lia.
    + intros H. destruct (IH _ _ _ _ _ Hinv' Hst' H) as (Hn & _ & Hsn & Hwhy).
      split; [lia |]. split; [lia |]. split; [exact Hsn |].
      destruct why; try assumption.
      destruct Hwhy as [-> Hs]. split; [lia | exact Hs].
Qed.

(** X8. However the scroll loop is left, it is left at a step from 1 to 120,
    every step before it went through with the bottom out of view, and the
    exit is justified: a wheel call or a query failed at that step, the
    bottom came into view at it, the last four offsets read are equal, or
    all 120 steps went through. *)
Theorem scroll_to_bottom_sound (page : BrowserManager.Page) (n : nat)
    (why : BrowserManager.Stop) :
  BrowserManager.scroll_to_bottom page = (n, why) ->
  1 <= n <= 120 /\ steady page (n - 1) /\ left_by page n why.
Proof.
  unfold BrowserManager.scroll_to_bottom. intros H.
  assert (Hinv : scroll_inv page 0 (-1)%Z 0) by (left; auto).
  assert (Hst : steady page 0) by (intros j Hj; lia).
  destruct (scroll_loop_sound page 120 0 (-1)%Z 0 n why Hinv Hst H)
    as (Hn & Hlt & Hsn & Hwhy).
  split; [lia |]. split; [exact Hsn |].
  destruct why; try exact Hwhy.
  destruct Hwhy as [-> Hs]. split; [reflexivity | exact Hs].
Qed.

Lemma scroll_to_bottom_sound_witness :
  1 <= 4 <= 120 /\ steady Sample.never_moves (4 - 1) /\
  left_by Sample.never_moves 4 BrowserManager.Stalled.
Proof.
  apply (scroll_to_bottom_sound Sample.never_moves 4 BrowserManager.Stalled).
  vm_compute. reflexivity.
Defined.

(** ** Where the rows come from, and how a run ends *)

Lemma navigate_spec s pg : forall left attempt,
  Main.navigate s pg attempt left = true <->
  exists a, attempt <= a < attempt + left /\ Main.goto s pg a = true.
Proof.
  induction left as [| left IH]; intros attempt; cbn [Main.navigate].
  - split; [discriminate | intros (a & Ha & _); lia].
  - destruct (Main.goto s pg attempt) eqn:Hg.
    + split; [intros _; exists attempt; split; [lia | exact Hg] | reflexivity].
    + rewrite IH. split; intros (a & Ha & Hga); exists a; split; try assumption; try lia.
      destruct (Nat.eq_dec a attempt) as [-> | Hne]; [congruence | lia].
Qed.

Lemma reveal_spec s pg target : forall left k items,
  0 < left ->
  exists j, k <= j < k + left /\
    Main.reveal s pg target k left items = Main.grid_items s pg j /\
    (forall i, k <= i < j -> (Z.of_nat (length (Main.grid_items s pg i)) < target)%Z) /\
    ((target <= Z.of_nat (length (Main.grid_items s pg j)))%Z \/ j = k + left - 1).
Proof.
  induction left as [| left IH]; intros k items Hleft; [lia |].
  cbn [Main.reveal].
  destruct (Z.leb_spec target (Z.of_nat (length (Main.grid_items s pg k)))) as [Hge | Hlt].
  - exists k. split; [lia |]. split; [reflexivity |]. split; [intros i Hi; lia | left; exact Hge].
  - destruct left as [| left'].
    + exists k. split; [lia |]. split; [reflexivity |].
      split; [intros i Hi; lia | right; lia].
    + destruct (IH (S k) (Main.grid_items s pg k) ltac:(lia)) as (j & Hj & Hr & Hbefore & Hend).
      exists j. split; [lia |]. split; [exact Hr |]. split.
      * intros i Hi. destruct (Nat.eq_dec i k) as [-> | Hne]; [exact Hlt | apply Hbefore; lia].
      * destruct Hend as [H | H]; [left; exact H | right; lia].
Qed.

Lemma py_take_in {A : Type} (n : Z) (items : list A) x :
  In x (Main.py_take n items) -> In x items.
Proof.
  assert (Hfirst : forall k (l : list A), In x (firstn k l) -> In x l).
  { intros k l H. rewrite <- (List.firstn_skipn k l). apply in_or_app. left. exact H. }
  unfold Main.py_take. destruct (0 <=? n)%Z; apply Hfirst.
Qed.

Lemma process_items_forall s parser (P : record -> Prop) items :
  (forall item r n, In item items -> Parser.extract parser item = Ok r ->
     DataHandler.validate_record r = true ->
     P (DataHandler.stamp (Main.utcnow s n) r)) ->
  forall st, Forall P (fst st) ->
  Forall P (fst (Main.process_items s parser st items)).
Proof.
  induction items as [| item rest IH]; intros HP st Hst; cbn [Main.process_items];
    [exact Hst |].
  assert (Hstep : Forall P (fst (fst (Main.process_item s parser st item)))).
  { destruct (process_item_cases s parser st item) as [[b Hb] | (r & Hr & Hv & _ & Hstep)].
    - rewrite Hb. exact Hst.
    - rewrite Hstep. cbn [fst]. unfold DataHandler.add_record.
      apply Forall_app. split; [exact Hst |].
      constructor; [| constructor]. apply (HP item r); [left; reflexivity | exact Hr | exact Hv]. }
  destruct (Main.process_item s parser st item) as [st' brk]. cbn [fst] in Hstep.
  destruct brk; [exact Hstep |].
  apply IH; [| exact Hstep]. intros item' r n Hin. apply HP. right. exact Hin.
Qed.

Lemma scrape_pages_forall config s parser (P : record -> Prop) pages :
  (forall pg k item r n,
     In pg pages -> k < 6 ->
     Main.navigate s pg 1 (Z.to_nat (max_retries config)) = true ->
     In item (Main.grid_items s pg k) ->
     Parser.extract parser item = Ok r ->
     DataHandler.validate_record r = true ->
     P (DataHandler.stamp (Main.utcnow s n) r)) ->
  forall rows, Forall P rows ->
  Forall P (Main.scrape_pages config s parser pages rows).
Proof.
  induction pages as [| pg rest IH]; intros HP rows Hrows;
    cbn [Main.scrape_pages]; [exact Hrows |].
  assert (HPrest : forall pg k item r n,
     In pg rest -> k < 6 ->
     Main.navigate s pg 1 (Z.to_nat (max_retries config)) = true ->
     In item (Main.grid_items s pg k) ->
     Parser.extract parser item = Ok r ->
     DataHandler.validate_record r = true ->
     P (DataHandler.stamp (Main.utcnow s n) r)).
  { intros pg' k item r n Hin. apply HP. right. exact Hin. }
  destruct (Main.navigate s pg 1 (Z.to_nat (max_retries config))) eqn:Hnav; cbn [negb];
    [| apply IH; assumption].
  destruct (reveal_spec s pg (Main.target_of pg rows) 6 0 [] ltac:(lia))
    as (j & Hj & Hr & _ & _).
  destruct (Main.reveal s pg (Main.target_of pg rows) 0 6 [])
    as [| item items] eqn:Hitems; [exact Hrows |].
  assert (Hpage : Forall P
            (Main.collect_page s parser rows (Main.target_of pg rows) (item :: items))).
  { unfold Main.collect_page. apply process_items_forall; [| exact Hrows].
    intros item' r n Hin. apply (HP pg j item' r n);
      [left; reflexivity | lia | exact Hnav |].
    rewrite <- Hr. exact (py_take_in _ _ _ Hin). }
  destruct (_ <=? _); [exact Hpage | apply IH; assumption].
Qed.

Lemma named_count_accepted rows :
  Forall accepted rows -> Main.named_count rows = length rows.
Proof.
  unfold Main.named_count. induction 1 as [| r rows [Hn _] _ IH]; [reflexivity |].
  cbn [List.filter]. rewrite Hn. cbn [length]. rewrite IH. reflexivity.
Qed.

(** X9. Every row of the dataset is a record that extraction returned for an
    item listed by a page of the run, after a [goto] that returned within the
    retries and on one of its six scroll attempts; the record passed
    validation and only the timestamp was added to it. The dataset has at
    most 100 rows. *)
Theorem scrape_rows_provenance (config : ScraperConfig) (s : Main.Session) :
  Forall (scraped_from config s) (Main.scrape config s) /\
  length (Main.scrape config s) <= 100.
Proof.
  split.
  - unfold Main.scrape. apply scrape_pages_forall; [| constructor].
    intros pg k item r n Hpg Hk Hnav Hin Hr Hv.
    exists item, r, n. apply in_seq in Hpg.
    split; [exists pg, k; repeat split; try assumption; lia |].
    repeat split; assumption.
  - unfold Main.scrape.
    destruct (scrape_pages_inv s (Parser.__init__ (base_url config)) config
                (seq 1 (Z.to_nat (max_pages config))) [])
      as [Hacc _]; [constructor | constructor |].
    rewrite <- (named_count_accepted _ Hacc). apply scrape_prefix_budget.
Qed.

Lemma process_items_extends s parser items : forall st,
  exists more, fst (Main.process_items s parser st items) = fst st ++ more.
Proof.
  induction items as [| item rest IH]; intros st; cbn [Main.process_items].
  - exists []. symmetry. apply List.app_nil_r.
  - assert (Hstep : exists more,
              fst (fst (Main.process_item s parser st item)) = fst st ++ more).
    { destruct (process_item_cases s parser st item) as [[b Hb] | (r & _ & _ & _ & Hstep)].
      - rewrite Hb. exists []. symmetry. apply List.app_nil_r.
      - rewrite Hstep. cbn [fst]. unfold DataHandler.add_record. eauto. }
    destruct (Main.process_item s parser st item) as [st' brk]. cbn [fst] in Hstep.
    destruct Hstep as [more1 Hstep].
    destruct brk; [exists more1; exact Hstep |].
    destruct (IH st') as [more2 Hrest]. exists (more1 ++ more2).
    rewrite Hrest, Hstep. symmetry. apply List.app_assoc.
Qed.

Lemma scrape_pages_extends config s parser pages : forall rows,
  exists more, Main.scrape_pages config s parser pages rows = rows ++ more.
Proof.
  induction pages as [| pg rest IH]; intros rows; cbn [Main.scrape_pages].
  - exists []. symmetry. apply List.app_nil_r.
  - destruct (negb _); [apply IH |].
    destruct (Main.reveal s pg (Main.target_of pg rows) 0 6 [])
      as [| item items]; [exists []; symmetry; apply List.app_nil_r |].
    unfold Main.collect_page.
    destruct (process_items_extends s parser
                (Main.py_take (Main.target_of pg rows) (item :: items))
                (rows, Main.urls_of rows)) as [more1 Hpage].
    cbn [fst] in Hpage. rewrite Hpage.
    destruct (_ <=? _); [exists more1; reflexivity |].
    destruct (IH (rows ++ more1)) as [more2 Hrest]. exists (more1 ++ more2).
    rewrite Hrest. symmetry. apply List.app_assoc.
Qed.

Lemma scrape_pages_app config s parser pages1 pages2 : forall rows,
  exists more,
    Main.scrape_pages config s parser (pages1 ++ pages2) rows =
    Main.scrape_pages config s parser pages1 rows ++ more.
Proof.
  induction pages1 as [| pg rest IH]; intros rows; cbn [app Main.scrape_pages].
  - apply scrape_pages_extends.
  - destruct (negb _); [apply IH |].
    destruct (Main.reveal s pg (Main.target_of pg rows) 0 6 [])
      as [| item items]; [exists []; symmetry; apply List.app_nil_r |].
    destruct (_ <=? _); [exists []; symmetry; apply List.app_nil_r | apply IH].
Qed.

(** X10. The dataset only grows: the rows a run starts from are kept, in their
    order and as they are, and the rows after the first [k] pages of a run
    are the first rows of what it has after [k + k'] pages and of the dataset
    it ends with. *)
Theorem scrape_append_only (config : ScraperConfig) (s : Main.Session) :
  (forall parser pages rows,
     exists more, Main.scrape_pages config s parser pages rows = rows ++ more) /\
  (forall k k',
     exists more,
       Main.scrape_pages config s (Parser.__init__ (base_url config)) (seq 1 (k + k')) []
       = Main.scrape_pages config s (Parser.__init__ (base_url config)) (seq 1 k) []
         ++ more) /\
  (forall k, k <= Z.to_nat (max_pages config) ->
     exists more,
       Main.scrape config s =
       Main.scrape_pages config s (Parser.__init__ (base_url config)) (seq 1 k) []
       ++ more).
Proof.
  split; [intros parser pages rows; apply scrape_pages_extends |].
  split.
  - intros k k'. rewrite List.seq_app. apply scrape_pages_app.
  - intros k Hk. unfold Main.scrape.
    replace (Z.to_nat (max_pages config)) with (k + (Z.to_nat (max_pages config) - k))
      by lia.
    rewrite List.seq_app. apply scrape_pages_app.
Qed.

Lemma scrape_append_only_witness :
  exists more,
    Main.scrape default_config Sample.catalogue =
    Main.scrape_pages default_config Sample.catalogue
      (Parser.__init__ (base_url default_config)) (seq 1 1) [] ++ more.
Proof.
  apply (proj2 (proj2 (scrape_append_only default_config Sample.catalogue)) 1).
  vm_compute. lia.
Defined.

(** X11. A page is loaded exactly when one of the attempts 1 to
    [max_retries] returns. A page that does not load is skipped and the run
    goes on with the next one. A page that loads ends the run when the
    listing read after the scroll attempts is empty, whatever the attempts
    before the last one listed: for a positive target that is when the sixth
    listing is empty and none of the first five reached the target. With no
    page or no attempt allowed the dataset is empty. *)
Theorem scrape_page_outcomes (config : ScraperConfig) (s : Main.Session) :
  (forall pg,
     Main.navigate s pg 1 (Z.to_nat (max_retries config)) = true <->
     exists a, (1 <= Z.of_nat a <= max_retries config)%Z /\ Main.goto s pg a = true) /\
  (forall parser pg rest rows,
     (forall a, (1 <= Z.of_nat a <= max_retries config)%Z -> Main.goto s pg a = false) ->
     Main.scrape_pages config s parser (pg :: rest) rows =
     Main.scrape_pages config s parser rest rows) /\
  (forall pg target,
     (0 < target)%Z ->
     (Main.reveal s pg target 0 6 [] = [] <->
      Main.grid_items s pg 5 = [] /\
      forall i, i < 5 -> (Z.of_nat (length (Main.grid_items s pg i)) < target)%Z)) /\
  (forall parser pg rest rows,
     Main.navigate s pg 1 (Z.to_nat (max_retries config)) = true ->
     (0 < Main.target_of pg rows)%Z ->
     Main.grid_items s pg 5 = [] ->
     (forall i, i < 5 ->
        (Z.of_nat (length (Main.grid_items s pg i)) < Main.target_of pg rows)%Z) ->
     Main.scrape_pages config s parser (pg :: rest) rows = rows) /\
  ((max_pages config <= 0)%Z \/ (max_retries config <= 0)%Z ->
   Main.scrape config s = []).
Proof.
  assert (Hnav : forall pg,
     Main.navigate s pg 1 (Z.to_nat (max_retries config)) = true <->
     exists a, (1 <= Z.of_nat a <= max_retries config)%Z /\ Main.goto s pg a = true).
  { intros pg. rewrite navigate_spec.
    split; intros (a & Ha & Hg); exists a; split; try assumption; lia. }
  assert (Hskip : forall parser pg rest rows,
     (forall a, (1 <= Z.of_nat a <= max_retries config)%Z -> Main.goto s pg a = false) ->
     Main.scrape_pages config s parser (pg :: rest) rows =
     Main.scrape_pages config s parser rest rows).
  { intros parser pg rest rows Hno. cbn [Main.scrape_pages].
    destruct (Main.navigate s pg 1 (Z.to_nat (max_retries config))) eqn:Hn;
      [| reflexivity].
    apply Hnav in Hn. destruct Hn as (a & Ha & Hg). rewrite (Hno a Ha) in Hg.
    discriminate. }
  assert (Hempty : forall pg target,
     (0 < target)%Z ->
     (Main.reveal s pg target 0 6 [] = [] <->
      Main.grid_items s pg 5 = [] /\
      forall i, i < 5 -> (Z.of_nat (length (Main.grid_items s pg i)) < target)%Z)).
  { intros pg target Hpos.
    destruct (reveal_spec s pg target 6 0 [] ltac:(lia)) as (j & Hj & Hr & Hb & He).
    rewrite Hr. split.
    - intros Hnil.
      assert (Hj5 : j = 5).
      { destruct He as [Hge | Heq]; [| lia]. rewrite Hnil in Hge. cbn in Hge. lia. }
      subst j. split; [exact Hnil |]. intros i Hi. apply Hb. lia.
    - intros [H5 Hlow].
      assert (Hj5 : j = 5).
      { destruct He as [Hge | Heq]; [| lia].
        destruct (Nat.eq_dec j 5) as [-> | Hne]; [reflexivity |].
        specialize (Hlow j ltac:(lia)). lia. }
      subst j. exact H5. }
  split; [exact Hnav |]. split; [exact Hskip |]. split; [exact Hempty |]. split.
  - intros parser pg rest rows Hn Hpos H5 Hlow. cbn [Main.scrape_pages]. rewrite Hn.
    cbn [negb].
    rewrite (proj2 (Hempty pg (Main.target_of pg rows) Hpos) (conj H5 Hlow)).
    reflexivity.
  - intros [Hp | Hr]; unfold Main.scrape.
    + replace (Z.to_nat (max_pages config)) with 0 by lia. reflexivity.
    + induction (seq 1 (Z.to_nat (max_pages config))) as [| pg rest IH];
        [reflexivity |].
      rewrite Hskip; [exact IH |]. intros a Ha. lia.
Qed.

(** A first page that lists a product on five attempts and nothing on the
    sixth: the run ends with no row. *)
Lemma scrape_page_outcomes_witness :
  Main.scrape_pages default_config Sample.vanishing
    (Parser.__init__ (base_url default_config)) (1 :: [2; 3]) [] = [].
Proof.
  apply (proj1 (proj2 (proj2 (proj2
           (scrape_page_outcomes default_config Sample.vanishing))))).
  - reflexivity.
  - reflexivity.
  - reflexivity.
  - intros i Hi. do 5 (destruct i as [| i]; [cbn; lia |]). lia.
Defined.

(** X12. The listing a page is read from is that of the first of the six scroll
    attempts that shows at least the targeted number of items, and that of
    the sixth attempt when none does. *)
Theorem reveal_first_enough (s : Main.Session) (pg : nat) (target : Z) :
  exists k, k < 6 /\
    Main.reveal s pg target 0 6 [] = Main.grid_items s pg k /\
    (forall i, i < k -> (Z.of_nat (length (Main.grid_items s pg i)) < target)%Z) /\
    ((target <= Z.of_nat (length (Main.grid_items s pg k)))%Z \/ k = 5).
Proof.
  destruct (reveal_spec s pg target 6 0 [] ltac:(lia)) as (j & Hj & Hr & Hb & He).
  exists j. split; [lia |]. split; [exact Hr |]. split.
  - intros i Hi. apply Hb. lia.
  - destruct He as [H | H]; [left; exact H | right; lia].
Qed.

(** ** The debug dump *)

Lemma squeeze_safe s : forall b,
  Forall (fun c => Main.safe_char c = true)
    (squeeze (fun c => negb (Main.safe_char c)) (u "_") b s).
Proof.
  induction s as [| c t IH]; intros b; cbn [squeeze]; [constructor |].
  destruct (Main.safe_char c) eqn:Hc; cbn [negb].
  - constructor; [exact Hc | apply IH].
  - destruct b; [apply IH |]. constructor; [reflexivity | apply IH].
Qed.

Lemma squeeze_length p c s : forall b,
  length (squeeze p [c] b s) <= length s.
Proof.
  induction s as [| x t IH]; intros b; cbn [squeeze length]; [lia |].
  destruct (p x).
  - destruct b; [specialize (IH true); lia |].
    cbn [app length]. specialize (IH true). lia.
  - cbn [length]. specialize (IH false). lia.
Qed.

Lemma squeeze_nonempty p c s :
  s <> [] -> squeeze p [c] false s <> [].
Proof.
  destruct s as [| x t]; [contradiction |]. intros _. cbn [squeeze].
  destruct (p x); discriminate.
Qed.

Lemma squeeze_none p repl s : forall b,
  Forall (fun c => p c = false) s -> squeeze p repl b s = s.
Proof.
  induction s as [| x t IH]; intros b Hs; cbn [squeeze]; [reflexivity |].
  inversion Hs as [| ? ? Hx Ht]; subst. rewrite Hx, (IH false Ht). reflexivity.
Qed.

Lemma Forall_firstn {A : Type} (P : A -> Prop) n (l : list A) :
  Forall P l -> Forall P (firstn n l).
Proof.
  intros H. revert n. induction H as [| x l Hx _ IH]; intros [| n]; cbn [firstn];
    constructor; auto.
Qed.

Lemma safe_refines name :
  Main.safe name =
  firstn 50 (squeeze (fun c => negb (Main.safe_char c)) (u "_") false name).
Proof.
  unfold Main.safe, re_sub.
  rewrite (proj1 (re_sub_from_plus _ (u "_") name)). reflexivity.
Qed.

Lemma safe_chars name : Forall (fun c => Main.safe_char c = true) (Main.safe name).
Proof. rewrite safe_refines. apply Forall_firstn, squeeze_safe. Qed.

Lemma safe_char_not c x :
  Main.safe_char x = false -> Forall (fun c => Main.safe_char c = true) c -> ~ In x c.
Proof.
  intros Hx Hall Hin. rewrite List.Forall_forall in Hall.
  rewrite (Hall x Hin) in Hx. discriminate.
Qed.

Lemma ascii_digits_safe now :
  ascii_digits now -> Forall (fun c => Main.safe_char c = true) now.
Proof.
  intros H. eapply Forall_impl; [exact H |]. intros c Hc.
  unfold is_ascii_digit in Hc. unfold Main.safe_char. rewrite Hc.
  rewrite !orb_true_r. reflexivity.
Qed.

(** X13. The file name that [dump_html] builds from a product name holds letters,
    digits, [_] and [-] only, has at most 50 characters, is not empty unless
    the name is, and is the name itself when that is short and safe already.
    The file written lies directly in [debug_html]: between the directory
    and the ending [.html] the path has neither a separator nor a dot.
    [dump_html] is called for records without a price and with a name only,
    so that the default name is never used. *)
Theorem dump_html_spec :
  (forall name,
     Forall (fun c => Main.safe_char c = true) (Main.safe name) /\
     length (Main.safe name) <= Nat.min 50 (length name) /\
     (name <> [] -> Main.safe name <> [])) /\
  (forall name,
     Forall (fun c => Main.safe_char c = true) name -> length name <= 50 ->
     Main.safe name = name) /\
  (forall now name,
     ascii_digits now ->
     exists stem,
       Main.dump_path now name = u "debug_html/" ++ stem ++ u ".html" /\
       ~ In chr_slash stem /\ ~ In chr_dot stem) /\
  (forall record n,
     Main.dump_request record = Some n ->
     price record = None /\ name record = Some n /\ n <> []).
Proof.
  split; [| split; [| split]].
  - intros name. split; [apply safe_chars |]. rewrite safe_refines. split.
    + rewrite List.length_firstn.
      pose proof (squeeze_length (fun c => negb (Main.safe_char c)) 95%N name false) as H.
      change (u "_") with [95%N]. lia.
    + intros Hne. pose proof (squeeze_nonempty (fun c => negb (Main.safe_char c))
                                95%N name Hne) as H.
      change (u "_") with [95%N].
      destruct (squeeze _ _ false name); [contradiction | discriminate].
  - intros name Hsafe Hlen. rewrite safe_refines, squeeze_none.
    + apply List.firstn_all2. exact Hlen.
    + eapply Forall_impl; [exact Hsafe |]. intros c Hc. cbn. rewrite Hc. reflexivity.
  - intros now name Hnow. exists (now ++ u "_" ++ Main.safe name).
    split; [unfold Main.dump_path; rewrite <- !List.app_assoc; reflexivity |].
    assert (Hall : Forall (fun c => Main.safe_char c = true)
                     (now ++ u "_" ++ Main.safe name)).
    { apply Forall_app. split; [apply ascii_digits_safe, Hnow |].
      apply Forall_app. split; [repeat constructor | apply safe_chars]. }
    split; apply (fun x Hx => safe_char_not _ x Hx Hall); reflexivity.
  - intros record n. unfold Main.dump_request.
    destruct (price record); [discriminate |].
    destruct (name record) as [[| c t] |]; cbn [truthy]; try discriminate.
    intros H. injection H as <-. repeat split. discriminate.
Qed.

Lemma dump_html_spec_witness :
  Main.safe (u "Echo_Dot-4") = u "Echo_Dot-4".
Proof.
  apply (proj1 (proj2 dump_html_spec)).
  - repeat constructor.
  - cbn. lia.
Defined.

(** ** The export *)

Lemma rfind_from_none c s : forall i,
  DataHandler.rfind_from c s i = None -> ~ In c s.
Proof.
  induction s as [| x t IH]; intros i; cbn [DataHandler.rfind_from]; [intros _ [] |].
  destruct (DataHandler.rfind_from c t (S i)) eqn:Ht; [discriminate |].
  destruct (N.eqb_spec x c) as [-> | Hne]; [discriminate |].
  intros _ [H | H]; [contradiction | exact (IH _ Ht H)].
Qed.

Lemma rfind_from_some c s : forall i j,
  DataHandler.rfind_from c s i = Some j ->
  i <= j /\
  exists pre post, s = pre ++ c :: post /\ length pre = j - i /\ ~ In c post.
Proof.
  induction s as [| x t IH]; intros i j; cbn [DataHandler.rfind_from]; [discriminate |].
  destruct (DataHandler.rfind_from c t (S i)) as [j' |] eqn:Ht.
  - intros H. injection H as <-.
    destruct (IH _ _ Ht) as (Hle & pre & post & -> & Hlen & Hno).
    split; [lia |]. exists (x :: pre), post. split; [reflexivity |].
    split; [cbn [length]; lia | exact Hno].
  - destruct (N.eqb_spec x c) as [-> | Hne]; [| discriminate].
    intros H. injection H as <-. split; [lia |].
    exists [], t. split; [reflexivity |]. split; [cbn; lia |].
    exact (rfind_from_none _ _ _ Ht).
Qed.

Lemma skipn_in {A : Type} (x : A) k l : In x (skipn k l) -> In x l.
Proof.
  intros H. rewrite <- (List.firstn_skipn k l). apply in_or_app. right. exact H.
Qed.

Lemma skipn_app_exact {A : Type} (pre l : list A) :
  skipn (length pre) (pre ++ l) = l.
Proof. induction pre as [| x pre IH]; [reflexivity | exact IH]. Qed.

Lemma splitext_spec p :
  fst (DataHandler.splitext p) ++ snd (DataHandler.splitext p) = p /\
  (snd (DataHandler.splitext p) = [] \/
   exists e, snd (DataHandler.splitext p) = chr_dot :: e /\
             ~ In chr_dot e /\ ~ In chr_slash e).
Proof.
  unfold DataHandler.splitext, DataHandler.rfind.
  destruct (DataHandler.rfind_from chr_dot p 0) as [dotIndex |] eqn:Hdot;
    [| cbn [fst snd]; rewrite List.app_nil_r; auto].
  destruct (Nat.leb_spec
              match DataHandler.rfind_from chr_slash p 0 with
              | Some sepIndex => S sepIndex
              | None => 0
              end dotIndex) as [Hle | Hgt];
    [| cbn [fst snd]; rewrite List.app_nil_r; auto].
  destruct (forallb _ _);
    [cbn [fst snd]; rewrite List.app_nil_r; auto |].
  cbn [fst snd]. split; [apply List.firstn_skipn |]. right.
  destruct (rfind_from_some _ _ _ _ Hdot) as (_ & pre & post & Hp & Hlen & Hno).
  assert (Hskip : skipn dotIndex p = chr_dot :: post).
  { rewrite Hp. replace dotIndex with (length pre) by lia.
    apply skipn_app_exact. }
  exists post. split; [exact Hskip |]. split; [exact Hno |].
  destruct (DataHandler.rfind_from chr_slash p 0) as [sepIndex |] eqn:Hsep.
  - destruct (rfind_from_some _ _ _ _ Hsep) as (_ & pre2 & post2 & Hp2 & Hlen2 & Hno2).
    intros Hin. apply Hno2.
    assert (Hpost2 : post2 = skipn (S sepIndex) p).
    { rewrite Hp2. replace (S sepIndex) with (length (pre2 ++ [chr_slash]))
        by (rewrite List.length_app; cbn; lia).
      replace (pre2 ++ chr_slash :: post2) with ((pre2 ++ [chr_slash]) ++ post2)
        by (rewrite <- List.app_assoc; reflexivity).
      symmetry. apply skipn_app_exact. }
    assert (Hpost : post = skipn (S dotIndex) p).
    { change (S dotIndex) with (1 + dotIndex).
      rewrite <- List.skipn_skipn, Hskip. reflexivity. }
    rewrite Hpost2. rewrite Hpost in Hin.
    replace (S dotIndex) with ((dotIndex - sepIndex) + S sepIndex) in Hin by lia.
    rewrite <- List.skipn_skipn in Hin. exact (skipn_in _ _ _ Hin).
  - intros Hin. apply (rfind_from_none _ _ _ Hsep).
    rewrite Hp. apply in_or_app. right. right. exact Hin.
Qed.

(** X14. Splitting a path takes nothing away: base and extension put together
    are the path, and an extension is a dot followed by characters that are
    neither dots nor separators. The fallback path keeps the base, inserts
    the time, and ends with the extension of the target or with [.csv] when
    it has none; it is longer than the target, so it is never the path that
    was just refused. *)
Theorem fallback_path_spec (ts file_path : pystr) :
  let base := fst (DataHandler.splitext file_path) in
  let ext := snd (DataHandler.splitext file_path) in
  base ++ ext = file_path /\
  (ext = [] \/
   exists e, ext = chr_dot :: e /\ ~ In chr_dot e /\ ~ In chr_slash e) /\
  DataHandler.fallback_path ts file_path =
    base ++ u "_" ++ ts ++ (match ext with [] => u ".csv" | _ => ext end) /\
  length file_path < length (DataHandler.fallback_path ts file_path) /\
  DataHandler.fallback_path ts file_path <> file_path.
Proof.
  intros base ext.
  destruct (splitext_spec file_path) as [Hcat Hext]. fold base ext in Hcat, Hext.
  assert (Hfb : DataHandler.fallback_path ts file_path =
                base ++ u "_" ++ ts ++ (match ext with [] => u ".csv" | _ => ext end)).
  { unfold DataHandler.fallback_path, base, ext.
    destruct (DataHandler.splitext file_path) as [b e]. reflexivity. }
  assert (Hlen : length file_path < length (DataHandler.fallback_path ts file_path)).
  { rewrite Hfb, <- Hcat, !List.length_app.
    destruct ext; cbn [length u]; cbn; lia. }
  split; [exact Hcat |]. split; [exact Hext |]. split; [exact Hfb |].
  split; [exact Hlen |]. intros Heq. rewrite Heq in Hlen. lia.
Qed.

Lemma fallback_differs ts file_path :
  DataHandler.fallback_path ts file_path <> file_path.
Proof.
  destruct (splitext_spec file_path) as [Hcat _].
  assert (Hlen : length file_path < length (DataHandler.fallback_path ts file_path)).
  { unfold DataHandler.fallback_path. rewrite <- Hcat at 1.
    destruct (DataHandler.splitext file_path) as [b e]. cbn [fst snd].
    rewrite !List.length_app. destruct e; cbn [length u]; cbn; lia. }
  intros Heq. rewrite Heq in Hlen. lia.
Qed.

Lemma write_lines_spec fs path lines : forall i n a,
  DataHandler.write_lines fs path i lines = (n, a) ->
  n <= length lines /\
  (a = DataHandler.Fine -> n = length lines) /\
  (forall j, j < n -> DataHandler.write fs path (i + j) = DataHandler.Fine) /\
  (a <> DataHandler.Fine -> DataHandler.write fs path (i + n) = a).
Proof.
  induction lines as [| l rest IH]; intros i n a; cbn [DataHandler.write_lines length].
  - intros H. injection H as <- <-. repeat split; try lia. contradiction.
  - destruct (DataHandler.write fs path i) eqn:Hw.
    + destruct (DataHandler.write_lines fs path (S i) rest) as [n' a'] eqn:Hrest.
      intros H. injection H as <- <-.
      destruct (IH _ _ _ Hrest) as (Hle & Hall & Hfine & Hfail).
      split; [lia |]. split; [intros Ha; rewrite (Hall Ha); reflexivity |]. split.
      * intros j Hj. destruct j as [| j]; [rewrite Nat.add_0_r; exact Hw |].
        replace (i + S j) with (S i + j) by lia. apply Hfine. lia.
      * intros Ha. replace (i + S n') with (S i + n') by lia. exact (Hfail Ha).
    + intros H. injection H as <- <-. split; [lia |]. split; [discriminate |].
      split; [intros j Hj; lia |]. intros _. rewrite Nat.add_0_r. exact Hw.
    + intros H. injection H as <- <-. split; [lia |]. split; [discriminate |].
      split; [intros j Hj; lia |]. intros _. rewrite Nat.add_0_r. exact Hw.
Qed.

(** A block that ends without an exception handed every line to the writer
    of a file that it opened. *)
Lemma write_file_fine fs path lines n :
  DataHandler.write_file fs path lines = (n, DataHandler.Fine) ->
  n = Some (length lines) /\
  DataHandler.open fs path = DataHandler.Fine /\
  (forall j, j < length lines -> DataHandler.write fs path j = DataHandler.Fine) /\
  DataHandler.close fs path = DataHandler.Fine.
Proof.
  unfold DataHandler.write_file.
  destruct (DataHandler.open fs path) eqn:Ho; try discriminate.
  destruct (DataHandler.write_lines fs path 0 lines) as [k a] eqn:Hw.
  destruct (DataHandler.close fs path) eqn:Hc; try discriminate.
  intros H. injection H as <- ->.
  destruct (write_lines_spec _ _ _ _ _ _ Hw) as (_ & Hall & Hfine & _).
  rewrite (Hall eq_refl) in *. repeat split; try reflexivity. exact Hfine.
Qed.

Lemma write_file_opened fs path lines n a k :
  DataHandler.write_file fs path lines = (n, a) ->
  In (path, k) (DataHandler.opened path n) -> k <= length lines.
Proof.
  unfold DataHandler.write_file.
  destruct (DataHandler.open fs path).
  - destruct (DataHandler.write_lines fs path 0 lines) as [k' a'] eqn:Hw.
    intros H. injection H as <- _. cbn [DataHandler.opened].
    intros [Heq | []]. injection Heq as <-.
    exact (proj1 (write_lines_spec _ _ _ _ _ _ Hw)).
  - intros H. injection H as <- _. intros [].
  - intros H. injection H as <- _. intros [].
Qed.

Lemma csv_lines_shape rows :
  length (DataHandler.csv_lines rows) = S (length rows) /\
  Forall (fun l => length l = 7) (DataHandler.csv_lines rows).
Proof.
  unfold DataHandler.csv_lines. split.
  - cbn [length]. rewrite List.length_map. reflexivity.
  - constructor; [reflexivity |]. apply List.Forall_forall. intros l Hl.
    apply List.in_map_iff in Hl. destruct Hl as (r & <- & _). reflexivity.
Qed.

Lemma csv_row_filled r :
  accepted r -> timestamp r <> None ->
  filled (column 0 (DataHandler.csv_row r)) /\
  filled (column 4 (DataHandler.csv_row r)) /\
  column 6 (DataHandler.csv_row r) <> DataHandler.CNone.
Proof.
  intros [Hn Hu] Ht. unfold column, DataHandler.csv_row. cbn [nth].
  destruct (name r) as [[| c t] |]; try discriminate.
  destruct (url r) as [[| c' t'] |]; try discriminate.
  destruct (timestamp r) as [ts |]; [| contradiction].
  split; [eexists; split; [reflexivity | discriminate] |].
  split; [eexists; split; [reflexivity | discriminate] | discriminate].
Qed.

Lemma csv_rows_urls rows :
  NoDup (List.map url rows) ->
  NoDup (List.map (column 4) (List.map DataHandler.csv_row rows)).
Proof.
  rewrite List.map_map.
  induction rows as [| r rows IH]; cbn [List.map]; intros Hnd; [constructor |].
  apply NoDup_cons in Hnd. destruct Hnd as [Hnotin Hnd].
  apply NoDup_cons. split; [| exact (IH Hnd)].
  intros Hin. apply Hnotin. apply list_elem_of_In. apply list_elem_of_In in Hin.
  apply List.in_map_iff in Hin. destruct Hin as (r' & Heq & Hin).
  apply List.in_map_iff. exists r'. split; [| exact Hin].
  unfold column, DataHandler.csv_row in Heq. cbn [nth] in Heq.
  destruct (url r'), (url r); cbn in Heq; congruence.
Qed.



(** ** A page that closes during extraction *)

Lemma prefix_spec needle : forall hay,
  String.prefix needle hay = true <-> exists post, hay = (needle ++ post)%string.
Proof.
  induction needle as [| a n IH]; intros hay.
  - split; [intros _; exists hay; reflexivity | intros _; destruct hay; reflexivity].
  - destruct hay as [| b h]; simpl.
    + split; [discriminate | intros (post & H); discriminate].
    + destruct (Ascii.ascii_dec a b) as [-> | Hne].
      * rewrite IH. split; intros (post & H); exists post.
        -- rewrite H. reflexivity.
        -- cbn [String.append] in H. injection H as ->. reflexivity.
      * split; [discriminate |]. intros (post & H).
        cbn [String.append] in H. injection H as H _. congruence.
Qed.

Lemma contains_spec needle hay :
  Main.contains needle hay = true <->
  exists pre post, hay = (pre ++ needle ++ post)%string.
Proof.
  induction hay as [| c t IH]; cbn [Main.contains].
  - rewrite orb_false_r, prefix_spec. split.
    + intros (post & H). exists EmptyString, post. exact H.
    + intros (pre & post & H). destruct pre; [| discriminate]. exists post. exact H.
  - rewrite orb_true_iff, prefix_spec, IH. split.
    + intros [(post & H) | (pre & post & H)].
      * exists EmptyString, post. exact H.
      * exists (String c pre), post. rewrite H. reflexivity.
    + intros (pre & post & H). destruct pre as [| c' pre].
      * left. exists post. exact H.
      * right. cbn [String.append] in H. injection H as _ ->. eauto.
Qed.

Lemma extract_closed parser msg :
  Parser.extract parser (Closed msg) = Raise (Error msg).
Proof. reflexivity. Qed.

Lemma process_items_closed s parser pre : forall st item post e,
  Forall (fun i => forall e', Parser.extract parser i = Raise (Error e') ->
                   Main.contains Main.closed_msg e' = false) pre ->
  Parser.extract parser item = Raise (Error e) ->
  Main.contains Main.closed_msg e = true ->
  Main.process_items s parser st (pre ++ item :: post) =
  Main.process_items s parser st pre.
Proof.
  induction pre as [| i pre IH]; intros st item post e Hpre He Hc;
    cbn [app Main.process_items].
  - unfold Main.process_item. destruct st as [rows seen]. rewrite He, Hc. reflexivity.
  - inversion Hpre as [| ? ? Hi Hrest]; subst.
    destruct (Main.process_item s parser st i) as [st' brk] eqn:Hstep.
    destruct brk; [reflexivity |]. exact (IH st' item post e Hrest He Hc).
Qed.

(** X16. An item whose browsing context is gone makes extraction raise the
    driver's error. When the message of such an error holds the text that
    tells of a closed page, the items after it on the page are not
    processed: the rows and the seen urls are those of the items before it.
    An error with any other message costs the item alone. *)
Theorem closed_page_ends_page (s : Main.Session) (parser : Parser.t) :
  (forall msg, Parser.extract parser (Closed msg) = Raise (Error msg)) /\
  (forall e, Main.contains Main.closed_msg e = true <->
             exists pre post, e = (pre ++ Main.closed_msg ++ post)%string) /\
  (forall st pre item post e,
     Forall (fun i => forall e', Parser.extract parser i = Raise (Error e') ->
                      Main.contains Main.closed_msg e' = false) pre ->
     Parser.extract parser item = Raise (Error e) ->
     Main.contains Main.closed_msg e = true ->
     Main.process_items s parser st (pre ++ item :: post) =
     Main.process_items s parser st pre) /\
  (forall st item rest e,
     Parser.extract parser item = Raise (Error e) ->
     Main.contains Main.closed_msg e = false ->
     Main.process_items s parser st (item :: rest) =
     Main.process_items s parser st rest).
Proof.
  split; [exact (extract_closed parser) |].
  split; [exact (contains_spec Main.closed_msg) |].
  split; [intros st pre; apply process_items_closed |].
  intros st item rest e He Hc. cbn [Main.process_items].
  unfold Main.process_item. destruct st as [rows seen]. rewrite He, Hc. reflexivity.
Qed.

Lemma closed_page_ends_page_witness :
  Main.process_items Sample.catalogue (Parser.__init__ (u "https://www.amazon.com"))
    ([], ∅)
    ([Sample.product (u "/dp/B01") (u "Echo Dot")]
     ++ Closed "Locator.count: Target page, context or browser has been closed"%string
     :: [Sample.product (u "/dp/B02") (u "Fire TV")]) =
  Main.process_items Sample.catalogue (Parser.__init__ (u "https://www.amazon.com"))
    ([], ∅) [Sample.product (u "/dp/B01") (u "Echo Dot")].
Proof.
  apply (proj1 (proj2 (proj2 (closed_page_ends_page Sample.catalogue
           (Parser.__init__ (u "https://www.amazon.com")))))
         ([], ∅) [Sample.product (u "/dp/B01") (u "Echo Dot")]
         (Closed "Locator.count: Target page, context or browser has been closed"%string)
         [Sample.product (u "/dp/B02") (u "Fire TV")]
         "Locator.count: Target page, context or browser has been closed"%string).
  - constructor; [| constructor]. intros e' H. vm_compute in H. discriminate.
  - reflexivity.
  - vm_compute. reflexivity.
Defined.
